(** * ReflowMarkdown: a shallow embedding of [src/extension.ts]

    The development follows the TypeScript source: the string primitives
    the code relies on ([trim], [split(/\s+/)], [join]), a backtracking
    matcher for the regular expressions of [reConsts.ts] and
    [extension.ts], the structural detectors, the line classifier, the
    greedy reflow of [reflowLines], the skip policy and the edit planner
    [computeReflowEdits]. *)

From Stdlib Require Import Strings.String Strings.Ascii.
From Stdlib Require Import List ZArith NArith Bool Lia Arith.
Import ListNotations.


(** ** Strings

    A JavaScript string is a sequence of UTF-16 code units; [length] of
    the list is the string's [.length]. *)

Definition char := N.
Definition str := list char.

Definition str_of (s : string) : str :=
  map N_of_ascii (list_ascii_of_string s).

Arguments str_of s%_string.

Definition chr (a : ascii) : char := N_of_ascii a.

Definition len (s : str) : Z := Z.of_nat (length s).

(** [nonempty s] is the truthiness of a string and the test [s !== ''] *)
Definition nonempty (s : str) : bool :=
  match s with [] => false | _ :: _ => true end.

(** Line terminators of ECMAScript: LF, CR, LS, PS. *)
Definition is_line_terminator (c : char) : bool :=
  (N.eqb c 10 || N.eqb c 13 || N.eqb c 8232 || N.eqb c 8233)%bool.

(** The class [\s] (WhiteSpace and LineTerminator), which is also the set
    removed by [String.prototype.trim]. *)
Definition is_ws (c : char) : bool :=
  (N.eqb c 9 || N.eqb c 10 || N.eqb c 11 || N.eqb c 12 || N.eqb c 13
   || N.eqb c 32 || N.eqb c 160 || N.eqb c 5760
   || (N.leb 8192 c && N.leb c 8202)
   || N.eqb c 8232 || N.eqb c 8233 || N.eqb c 8239 || N.eqb c 8287
   || N.eqb c 12288 || N.eqb c 65279)%bool.

(** The class [.] without the [s] flag. *)
Definition is_dot (c : char) : bool := negb (is_line_terminator c).

(** The class [\d]. *)
Definition is_digit (c : char) : bool := (N.leb 48 c && N.leb c 57)%bool.

Definition is_alpha (c : char) : bool :=
  ((N.leb 65 c && N.leb c 90) || (N.leb 97 c && N.leb c 122))%bool.

Definition is_chr (a : ascii) (c : char) : bool := N.eqb c (chr a).

Definition one_of (set : string) (c : char) : bool :=
  existsb (N.eqb c) (str_of set).

Definition none_of (set : string) (c : char) : bool := negb (one_of set c).

Definition SP : char := 32%N.
Definition LF : char := 10%N.

Fixpoint drop_while (p : char -> bool) (s : str) : str :=
  match s with
  | [] => []
  | c :: s' => if p c then drop_while p s' else s
  end.

Fixpoint take_while (p : char -> bool) (s : str) : str :=
  match s with
  | [] => []
  | c :: s' => if p c then c :: take_while p s' else []
  end.

(** [String.prototype.trim] *)
Definition trim (s : str) : str :=
  rev (drop_while is_ws (rev (drop_while is_ws s))).

(** [Array.prototype.join] on an array of strings *)
Fixpoint join (sep : str) (l : list str) : str :=
  match l with
  | [] => []
  | [x] => x
  | x :: l' => x ++ sep ++ join sep l'
  end.

(** [s.split(/\s+/)]: the pieces between maximal runs of white space; a
    leading or trailing run leaves an empty piece, and the empty string
    splits into one empty piece.  [insep] tells that the scan is inside
    a separator run. *)
Fixpoint split_go (insep : bool) (s : str) : list str :=
  match s with
  | [] => [[]]
  | c :: s' =>
      if is_ws c then
        if insep then split_go true s' else [] :: split_go true s'
      else
        match split_go false s' with
        | w :: ws => (c :: w) :: ws
        | [] => [[c]]
        end
  end.

Definition split_ws (s : str) : list str := split_go false s.

(** [' '.repeat(n)] *)
Definition spaces (n : nat) : str := repeat SP n.

(** ** Regular expressions

    The expressions of the source are kept as syntax and run by a
    backtracking matcher with the priorities of ECMAScript: alternatives
    left to right, greedy quantifiers longest first, lazy ones shortest
    first.  Every quantified sub-expression of the source consumes at
    least one character per iteration, so an iteration that makes no
    progress is cut and [length s + 1] iterations are enough. *)

Inductive regex : Type :=
| RChar (p : char -> bool)
| REmpty
| RSeq (r1 r2 : regex)
| RAlt (r1 r2 : regex)
| RRep (lo : nat) (hi : option nat) (greedy : bool) (r : regex)
| RGroup (n : nat) (r : regex)
| RBol
| REol.

(** the captures of a match, most recent first *)
Definition caps := list (nat * str).

(** a continuation receives the position, the rest of the input and the
    captures *)
Definition cont := nat -> str -> caps -> option caps.

Definition orelse (a b : option caps) : option caps :=
  match a with Some x => Some x | None => b end.

Definition hi_open (hi : option nat) : bool :=
  match hi with Some 0 => false | _ => true end.

Definition hi_pred (hi : option nat) : option nat :=
  match hi with Some n => Some (pred n) | None => None end.

Fixpoint rep_loop (body : nat -> str -> caps -> cont -> option caps)
    (greedy : bool) (fuel lo : nat) (hi : option nat)
    (pos : nat) (s : str) (c : caps) (k : cont) {struct fuel} : option caps :=
  let more :=
    if hi_open hi then
      match fuel with
      | O => None
      | S fuel' =>
          body pos s c (fun pos' s' c' =>
            if pos <? pos'
            then rep_loop body greedy fuel' (pred lo) (hi_pred hi) pos' s' c' k
            else None)
      end
    else None in
  match lo with
  | S _ => more
  | O => if greedy then orelse more (k pos s c) else orelse (k pos s c) more
  end.

Fixpoint rmatch (r : regex) (pos : nat) (s : str) (c : caps) (k : cont)
    {struct r} : option caps :=
  match r with
  | RChar p =>
      match s with
      | x :: s' => if p x then k (S pos) s' c else None
      | [] => None
      end
  | REmpty => k pos s c
  | RSeq r1 r2 => rmatch r1 pos s c (fun pos' s' c' => rmatch r2 pos' s' c' k)
  | RAlt r1 r2 => orelse (rmatch r1 pos s c k) (rmatch r2 pos s c k)
  | RRep lo hi g r1 => rep_loop (rmatch r1) g (S (length s)) lo hi pos s c k
  | RGroup n r1 =>
      rmatch r1 pos s c (fun pos' s' c' =>
        k pos' s' ((n, firstn (pos' - pos) s) :: c'))
  | RBol => if pos =? 0 then k pos s c else None
  | REol => match s with [] => k pos s c | _ :: _ => None end
  end.

(** [re.exec(s)] for an expression without flags: the first start
    offset, from the left, at which the expression matches. *)
Fixpoint exec_from (r : regex) (pos : nat) (s : str) : option caps :=
  match rmatch r pos s [] (fun _ _ c => Some c) with
  | Some m => Some m
  | None =>
      match s with
      | [] => None
      | _ :: s' => exec_from r (S pos) s'
      end
  end.

Definition exec (r : regex) (s : str) : option caps := exec_from r 0 s.

(** [re.test(s)] *)
Definition test (r : regex) (s : str) : bool :=
  match exec r s with Some _ => true | None => false end.

(** [m[n]] for a group that took part in the match *)
Fixpoint group (n : nat) (m : caps) : str :=
  match m with
  | [] => []
  | (i, g) :: m' => if i =? n then g else group n m'
  end.

(** *** Regex syntax helpers *)

Fixpoint seqs (l : list regex) : regex :=
  match l with
  | [] => REmpty
  | [r] => r
  | r :: l' => RSeq r (seqs l')
  end.

Definition star (r : regex) := RRep 0 None true r.
Definition plus (r : regex) := RRep 1 None true r.
Definition lazy_star (r : regex) := RRep 0 None false r.
Definition lazy_plus (r : regex) := RRep 1 None false r.
Definition opt (r : regex) := RRep 0 (Some 1) true r.
Definition at_least (n : nat) (r : regex) := RRep n None true r.
Definition between (lo hi : nat) (r : regex) := RRep lo (Some hi) true r.
Definition lit (a : ascii) := RChar (is_chr a).
Arguments lit a%_char.
Arguments is_chr a%_char c.
Arguments one_of set%_string c.
Arguments none_of set%_string c.
Definition lits (s : string) := seqs (map (fun c => RChar (N.eqb c)) (str_of s)).
Arguments lits s%_string.
Definition ws := RChar is_ws.
Definition dot := RChar is_dot.
Definition digit := RChar is_digit.

Definition is_quote (c : char) : bool := (N.eqb c 39 || N.eqb c 34)%bool.

(** *** The expressions of [reConsts.ts]

    In the comments a blank separates a star from a following
    parenthesis; the source has none. *)

(** The import pattern: [^\s*import\s+], then optionally a lazy run of
    characters other than quotes and semicolons followed by
    [\s+from\s+], then a quote, one or more non-quote characters, a
    quote, [\s*;?\s*$].  A quote is either the single or the double
    quote character. *)
Definition MDX_IMPORT_RE : regex :=
  seqs [RBol; star ws; lits "import"; plus ws;
        opt (seqs [lazy_plus (RChar (fun c => negb (is_quote c || is_chr ";" c)));
                   plus ws; lits "from"; plus ws]);
        RChar is_quote; plus (RChar (fun c => negb (is_quote c))); RChar is_quote;
        star ws; opt (lit ";"); star ws; REol].

(** [/^\s*:::/] *)
Definition TRIPLE_COLON_RE : regex := seqs [RBol; star ws; lits ":::"].

(** [/^\s*<\/?[a-zA-Z][a-zA-Z0-9\-]*(?:\s[^>]* )?\/?>\s*$/] *)
Definition XML_TAG_ONLY_RE : regex :=
  seqs [RBol; star ws; lit "<"; opt (lit "/"); RChar is_alpha;
        star (RChar (fun c => is_alpha c || is_digit c || is_chr "-" c));
        opt (seqs [ws; star (RChar (none_of ">"))]);
        opt (lit "/"); lit ">"; star ws; REol].

(** [/^\s*<!--.*?-->\s*$/] *)
Definition HTML_COMMENT_ONLY_RE : regex :=
  seqs [RBol; star ws; lits "<!--"; lazy_star dot; lits "-->"; star ws; REol].

(** [/^\s*\[\^?[^\]]+\]:[ \t]+/] *)
Definition FOOTNOTE_DEF_RE : regex :=
  seqs [RBol; star ws; lit "["; opt (lit "^"); plus (RChar (none_of "]"));
        lits "]:"; plus (RChar (fun c => N.eqb c 32 || N.eqb c 9))].

(** [/^\s*[-*]\s+\[[^\]]*\]\([^)]* \)\.?\s*$/] *)
Definition LIST_LINK_ONLY_RE : regex :=
  seqs [RBol; star ws; RChar (one_of "-*"); plus ws;
        lit "["; star (RChar (none_of "]")); lit "]";
        lit "("; star (RChar (none_of ")")); lit ")";
        opt (lit "."); star ws; REol].

(** [/^\s*\|?\s*:?-{3,}:?\s* (\|\s*:?-{3,}:?\s* )+\|?\s*$/] *)
Definition MD_TABLE_SEPARATOR_RE : regex :=
  seqs [RBol; star ws; opt (lit "|"); star ws;
        opt (lit ":"); at_least 3 (lit "-"); opt (lit ":"); star ws;
        plus (RGroup 1 (seqs [lit "|"; star ws; opt (lit ":");
                              at_least 3 (lit "-"); opt (lit ":"); star ws]));
        opt (lit "|"); star ws; REol].

(** [/^\s*\|.*\|.*$/] *)
Definition MD_TABLE_ROW_RE : regex :=
  seqs [RBol; star ws; lit "|"; star dot; lit "|"; star dot; REol].

(** [/^\s{0,3}#{1,6}(?:\s|$)/] *)
Definition ATX_HEADING_RE : regex :=
  seqs [RBol; between 0 3 ws; between 1 6 (lit "#"); RAlt ws REol].

(** *** The expressions written inline in [extension.ts] *)

(** [openRe], [/^\s{0,3}(`{3,}|~{3,})/] *)
Definition openRe : regex :=
  seqs [RBol; between 0 3 ws;
        RGroup 1 (RAlt (at_least 3 (lit "`")) (at_least 3 (lit "~")))].

(** [closeRe], built by the source from the opening fence:
    [new RegExp(`^\\s{0,3}${fenceChar}{${fenceLen},}\\s*$`)] *)
Definition closeRe (fenceChar : char) (fenceLen : nat) : regex :=
  seqs [RBol; between 0 3 ws; at_least fenceLen (RChar (N.eqb fenceChar));
        star ws; REol].

(** [/^\s*---\s*$/], [/^\s*\+\+\+\s*$/] and [/^\s* (---|\.\.\.)\s*$/] of
    [getFrontMatterRange] *)
Definition YAML_OPEN_RE : regex := seqs [RBol; star ws; lits "---"; star ws; REol].
Definition TOML_FENCE_RE : regex := seqs [RBol; star ws; lits "+++"; star ws; REol].
Definition YAML_CLOSE_RE : regex :=
  seqs [RBol; star ws; RGroup 1 (RAlt (lits "---") (lits "...")); star ws; REol].

(** [/^(\s* )([*\-+]|\d+\.)\s+(.* )$/] of [getLineContext] *)
Definition LIST_ITEM_RE : regex :=
  seqs [RBol; RGroup 1 (star ws);
        RGroup 2 (RAlt (RChar (one_of "*-+")) (RSeq (plus digit) (lit ".")));
        plus ws; RGroup 3 (star dot); REol].

(** [/^(\s* )(>+)\s* (.* )$/] of [getLineContext] *)
Definition BLOCKQUOTE_RE : regex :=
  seqs [RBol; RGroup 1 (star ws); RGroup 2 (plus (lit ">"));
        star ws; RGroup 3 (star dot); REol].

(** [/^(\s* )/] of [getLineContext] *)
Definition LEADING_WS_RE : regex := seqs [RBol; RGroup 1 (star ws)].

(** ** Documents and results

    A document is the list of its lines (without line terminators);
    line numbers are integers as in the source, where [lineCount - 1] is
    [-1] on an empty document.  [document.lineAt] throws on a line number
    outside the document, and the planner's [while] loop is run with
    fuel: a computation ends in a value, in the exception, or out of
    fuel. *)

Definition document := list str.

Definition lineCount (doc : document) : Z := Z.of_nat (length doc).

Inductive result (A : Type) : Type :=
| Done (a : A)
| Thrown
| OutOfFuel.

Arguments Done {A} a.
Arguments Thrown {A}.
Arguments OutOfFuel {A}.

Definition bind {A B : Type} (m : result A) (f : A -> result B) : result B :=
  match m with
  | Done a => f a
  | Thrown => Thrown
  | OutOfFuel => OutOfFuel
  end.

Notation "x <- m ;; k" := (bind m (fun x => k))
  (at level 61, m at next level, right associativity).

(** [document.lineAt(i).text] *)
Definition lineAt (doc : document) (i : Z) : result str :=
  if (0 <=? i)%Z && (i <? lineCount doc)%Z
  then Done (nth (Z.to_nat i) doc [])
  else Thrown.

(** the number of iterations of [for (let i = a; i <= b; i++)] *)
Definition trips (a b : Z) : nat := Z.to_nat (b - a + 1).

(** the shape shared by the [paragraphHas...] helpers:
    [for (i = a; i <= b; i++) if (p(lineAt(i).text)) return true;
     return false] *)
Fixpoint anyLineFrom (p : str -> bool) (doc : document) (i : Z) (n : nat)
    : result bool :=
  match n with
  | O => Done false
  | S n' =>
      t <- lineAt doc i ;;
      if p t then Done true else anyLineFrom p doc (i + 1) n'
  end.

Definition anyLine (p : str -> bool) (doc : document) (a b : Z) : result bool :=
  anyLineFrom p doc a (trips a b).

(** ** The structural line classifier, [getLineContext] *)

Inductive LineType : Type := TList | TBlockquote | TParagraph.

Record LineContext : Type := mkLineContext {
  type : LineType;
  indent : str;
  prefix : str;
  content : str
}.

Definition getLineContext (text : str) : LineContext :=
  match exec LIST_ITEM_RE text with
  | Some listMatch =>
      {| type := TList;
         indent := group 1 listMatch;
         prefix := group 2 listMatch;
         content := group 3 listMatch |}
  | None =>
      match exec BLOCKQUOTE_RE text with
      | Some blockquoteMatch =>
          {| type := TBlockquote;
             indent := group 1 blockquoteMatch;
             prefix := group 2 blockquoteMatch;
             content := group 3 blockquoteMatch |}
      | None =>
          {| type := TParagraph;
             indent := match exec LEADING_WS_RE text with
                       | Some m => group 1 m
                       | None => []
                       end;
             prefix := [];
             content := trim text |}
      end
  end.

(** ** The reflow engine, [reflowLines] *)

(** the collecting loop: the content of every line of the unit *)
Fixpoint collectFrom (doc : document) (i : Z) (n : nat) : result (list str) :=
  match n with
  | O => Done []
  | S n' =>
      text <- lineAt doc i ;;
      rest <- collectFrom doc (i + 1) n' ;;
      Done (content (getLineContext text) :: rest)
  end.

(** one iteration of [for (const word of words)] on the pair
    [(reflowedLines, currentLine)] *)
Definition fillStep (effectiveLength : Z) (st : list str * str) (word : str)
    : list str * str :=
  let (reflowedLines, currentLine) := st in
  if negb (nonempty currentLine) then (reflowedLines, word)
  else if (len (currentLine ++ [SP] ++ word) <=? effectiveLength)%Z
       then (reflowedLines, currentLine ++ [SP] ++ word)
       else (reflowedLines ++ [currentLine], word).

Definition fill (effectiveLength : Z) (words : list str) : list str :=
  let (reflowedLines, currentLine) :=
    fold_left (fillStep effectiveLength) words ([], []) in
  if nonempty currentLine then reflowedLines ++ [currentLine] else reflowedLines.

(** [context.indent.length + (context.prefix ? context.prefix.length + 1 : 0)] *)
Definition prefixLength (context : LineContext) : Z :=
  len (indent context)
  + (if nonempty (prefix context) then len (prefix context) + 1 else 0).

(** the callback of [reflowedLines.map((line, index) => ...)] *)
Definition addPrefix (context : LineContext) (index : nat) (line : str) : str :=
  match type context with
  | TList =>
      match index with
      | O => indent context ++ prefix context ++ [SP] ++ line
      | S _ => indent context ++ spaces (length (prefix context) + 1) ++ line
      end
  | TBlockquote => indent context ++ prefix context ++ [SP] ++ line
  | TParagraph => indent context ++ line
  end.

Fixpoint mapi_from {A B : Type} (f : nat -> A -> B) (i : nat) (l : list A)
    : list B :=
  match l with
  | [] => []
  | x :: l' => f i x :: mapi_from f (S i) l'
  end.

Definition mapi {A B : Type} (f : nat -> A -> B) (l : list A) : list B :=
  mapi_from f 0 l.

Definition reflowLines (doc : document) (startLine endLine : Z)
    (preferredLineLength : Z) : result (list str) :=
  first <- lineAt doc startLine ;;
  let context := getLineContext first in
  lines <- collectFrom doc startLine (trips startLine endLine) ;;
  let allText := trim (join [SP] lines) in
  let words := split_ws allText in
  let effectiveLength := (preferredLineLength - prefixLength context)%Z in
  let reflowedLines := fill effectiveLength words in
  Done (mapi (addPrefix context) reflowedLines).

(** ** Positions and ranges of the editor API

    [new vscode.Range(startLine, startCharacter, endLine, endCharacter)]
    orders its two positions; [new vscode.Position] rejects a negative
    line or character.  [mkRange] is the constructor on arguments that
    cannot be negative (the detectors pass line numbers of their loops
    and lengths of lines), [newRange] the constructor on line numbers
    that come from the extent resolver. *)

Record Position : Type := mkPosition { line : Z; character : Z }.

Record Range : Type := mkRangeRaw { start : Position; end_ : Position }.

Definition isBefore (a b : Position) : bool :=
  (line a <? line b)%Z || ((line a =? line b)%Z && (character a <? character b)%Z).

Definition isBeforeOrEqual (a b : Position) : bool :=
  (line a <? line b)%Z || ((line a =? line b)%Z && (character a <=? character b)%Z).

Definition mkRange (startLine startCharacter endLine endCharacter : Z) : Range :=
  let a := mkPosition startLine startCharacter in
  let b := mkPosition endLine endCharacter in
  if isBefore b a then mkRangeRaw b a else mkRangeRaw a b.

Definition newRange (startLine startCharacter endLine endCharacter : Z)
    : result Range :=
  if (startLine <? 0)%Z || (startCharacter <? 0)%Z
     || (endLine <? 0)%Z || (endCharacter <? 0)%Z
  then Thrown
  else Done (mkRange startLine startCharacter endLine endCharacter).

(** [range.contains(position)] and [range.contains(otherRange)] *)
Definition containsPosition (r : Range) (p : Position) : bool :=
  negb (isBefore p (start r) || isBefore (end_ r) p).

Definition containsRange (r other : Range) : bool :=
  containsPosition r (start other) && containsPosition r (end_ other).

(** the text of line [i] where the source reads a line inside the bounds
    of its loop *)
Definition textAt (doc : document) (i : Z) : str := nth (Z.to_nat i) doc [].

(** ** The front matter detector, [getFrontMatterRange] *)

(** the first line, numbered from [i], that satisfies [p] *)
Fixpoint findFrom (p : str -> bool) (lines : list str) (i : Z) : option Z :=
  match lines with
  | [] => None
  | t :: rest => if p t then Some i else findFrom p rest (i + 1)
  end.

Definition isBlank (t : str) : bool := negb (nonempty (trim t)).

Definition getFrontMatterRange (doc : document) : option Range :=
  if (lineCount doc =? 0)%Z then None
  else
    match findFrom (fun t => negb (isBlank t)) doc 0 with
    | None => None
    | Some first =>
        let firstText := textAt doc first in
        let isYaml := test YAML_OPEN_RE firstText in
        let isToml := test TOML_FENCE_RE firstText in
        if negb isYaml && negb isToml then None
        else
          let closing := if isYaml then YAML_CLOSE_RE else TOML_FENCE_RE in
          match findFrom (test closing) (skipn (Z.to_nat (first + 1)) doc) (first + 1) with
          | Some i => Some (mkRange first 0 i (len (textAt doc i)))
          | None =>
              let lastLine := (lineCount doc - 1)%Z in
              Some (mkRange first 0 lastLine (len (textAt doc lastLine)))
          end
    end.

(** ** The fenced code block detector, [getFencedCodeBlockRanges] *)

Record FenceState : Type := mkFenceState {
  fRanges : list Range;
  inBlock : bool;
  blockStart : Z;
  fenceChar : char;   (* the one-character string [seq[0]]; only read while [inBlock] *)
  fenceLen : nat
}.

(** the body of the [for] loop at line [i] *)
Definition fenceStep (st : FenceState) (i : Z) (text : str) : FenceState :=
  if negb (inBlock st) then
    match exec openRe text with
    | Some m =>
        let seq := group 1 m in
        mkFenceState (fRanges st) true i (nth 0 seq 0%N) (length seq)
    | None => st
    end
  else if test (closeRe (fenceChar st) (fenceLen st)) text then
    mkFenceState (fRanges st ++ [mkRange (blockStart st) 0 i (len text)])
                 false (blockStart st) 0%N 0
  else st.

Fixpoint fenceScan (lines : list str) (i : Z) (st : FenceState) : FenceState :=
  match lines with
  | [] => st
  | text :: rest => fenceScan rest (i + 1) (fenceStep st i text)
  end.

Definition getFencedCodeBlockRanges (doc : document) : list Range :=
  let st := fenceScan doc 0 (mkFenceState [] false 0 0%N 0) in
  if inBlock st then
    let last := (lineCount doc - 1)%Z in
    fRanges st ++ [mkRange (blockStart st) 0 last (len (textAt doc last))]
  else fRanges st.

(** [findRangeContainingLine] and [rangeOverlapsAny] *)
Definition containsLine (l : Z) (r : Range) : bool :=
  (l >=? line (start r))%Z && (l <=? line (end_ r))%Z.

Definition findRangeContainingLine (ranges : list Range) (l : Z) : option Range :=
  find (containsLine l) ranges.

Definition overlapsLines (startLine endLine : Z) (r : Range) : bool :=
  negb ((endLine <? line (start r))%Z || (startLine >? line (end_ r))%Z).

Definition rangeOverlapsAny (startLine endLine : Z) (ranges : list Range) : bool :=
  existsb (overlapsLines startLine endLine) ranges.

(** ** The bracket-expression balancer, [getJsxExpressionRanges] *)

Record InlineState : Type := mkInlineState {
  inInline : bool;
  inlineTickRun : nat;
  lineInside : bool;
  depth : Z
}.

Definition is_tick (c : char) : bool := N.eqb c 96.

(** the inner loop over the characters of a line; [skip] is what is left
    of [idx += run - 1] *)
Fixpoint scanChars (skip : nat) (text : str) (st : InlineState) : InlineState :=
  match text with
  | [] => st
  | ch :: rest =>
      match skip with
      | S skip' => scanChars skip' rest st
      | O =>
          if is_tick ch then
            let run := S (length (take_while is_tick rest)) in
            let st' :=
              if negb (inInline st)
              then mkInlineState true run (lineInside st) (depth st)
              else if (inlineTickRun st <=? run)%nat
                   then mkInlineState false 0 (lineInside st) (depth st)
                   else st in
            scanChars (run - 1) rest st'
          else if inInline st then scanChars 0 rest st
          else if is_chr "{" ch then
            scanChars 0 rest
              (mkInlineState (inInline st) (inlineTickRun st) true (depth st + 1))
          else if is_chr "}" ch then
            scanChars 0 rest
              (mkInlineState (inInline st) (inlineTickRun st) (lineInside st)
                             (Z.max 0 (depth st - 1)))
          else scanChars 0 rest st
      end
  end.

Record JsxState : Type := mkJsxState {
  jRanges : list Range;
  jDepth : Z;
  currentStart : option Z
}.

(** the body of the outer [for] loop at line [i] *)
Definition jsxStep (doc : document) (fencedRanges : list Range)
    (st : JsxState) (i : Z) (text : str) : JsxState :=
  match findRangeContainingLine fencedRanges i with
  | Some _ =>
      match currentStart st with
      | Some cs =>
          mkJsxState (jRanges st ++ [mkRange cs 0 (i - 1) (len (textAt doc (i - 1)))])
                     (jDepth st) None
      | None => st
      end
  | None =>
      let line := scanChars 0 text
                    (mkInlineState false 0 (0 <? jDepth st)%Z (jDepth st)) in
      if lineInside line then
        match currentStart st with
        | None => mkJsxState (jRanges st) (depth line) (Some i)
        | Some _ => mkJsxState (jRanges st) (depth line) (currentStart st)
        end
      else
        match currentStart st with
        | Some cs =>
            let prev := (i - 1)%Z in
            mkJsxState (jRanges st ++ [mkRange cs 0 prev (len (textAt doc prev))])
                       (depth line) None
        | None => mkJsxState (jRanges st) (depth line) None
        end
  end.

Fixpoint jsxScan (doc : document) (fencedRanges : list Range)
    (lines : list str) (i : Z) (st : JsxState) : JsxState :=
  match lines with
  | [] => st
  | text :: rest =>
      jsxScan doc fencedRanges rest (i + 1) (jsxStep doc fencedRanges st i text)
  end.

Definition getJsxExpressionRanges (doc : document) (fencedRanges : list Range)
    : list Range :=
  let st := jsxScan doc fencedRanges doc 0 (mkJsxState [] 0 None) in
  match currentStart st with
  | Some cs =>
      let last := (lineCount doc - 1)%Z in
      jRanges st ++ [mkRange cs 0 last (len (textAt doc last))]
  | None => jRanges st
  end.

(** ** Settings, extents and edits *)

Record Settings : Type := mkSettings {
  preferredLineLength : Z;
  doubleSpaceBetweenSentences : bool;
  wrapLongLinks : str;
  neverReflowFirstParagraph : bool
}.

Record TextEdit : Type := mkTextEdit { range : Range; newText : str }.

(** [document.getText(range)] on a document with LF line ends: the range
    is clamped to the document as the editor does *)
Definition getText (doc : document) (r : Range) : str :=
  let a := start r in
  let b := end_ r in
  if (line a =? line b)%Z then
    firstn (Z.to_nat (character b) - Z.to_nat (character a))
           (skipn (Z.to_nat (character a)) (textAt doc (line a)))
  else
    join [LF]
      (skipn (Z.to_nat (character a)) (textAt doc (line a))
       :: firstn (Z.to_nat (line b - line a - 1))
                 (skipn (S (Z.to_nat (line a))) doc)
       ++ [firstn (Z.to_nat (character b)) (textAt doc (line b))]).

(** what line 451 of [reflow] hands to the editor: [reflowLines] is given
    the preferred line length and no other setting *)
Definition reflowCommandLines (doc : document) (lineStart lineEnd : Z)
    (settings : Settings) : result (list str) :=
  reflowLines doc lineStart lineEnd (preferredLineLength settings).

(** ** The skip policy and the edit planner

    [getStartLine], [getEndLine], [getLineIndent], [OtherInfo] and
    [getReflowedText] belong to the module [./testable], which this
    development does not cover: they are parameters.  [getStartLine] and
    [getEndLine] stand for the line numbers of the lines that the
    functions of the source return for the seed line [i] (with
    [maxLineNum = lineCount - 1]), [otherInfoOf] for the [OtherInfo] that
    [getEndLine] and [getLineIndent] fill in. *)

Section Planner.

Variable OtherInfo : Type.
Variable getStartLine : document -> Z -> Z.
Variable getEndLine : document -> Z -> Z.
Variable otherInfoOf : document -> Z -> OtherInfo.

Record StartEndInfo : Type := mkStartEndInfo {
  lineStart : Z;
  lineEnd : Z;
  otherInfo : OtherInfo
}.

Variable getReflowedText : StartEndInfo -> str -> Settings -> str.

Definition paragraphHasMdxImport := anyLine (test MDX_IMPORT_RE).
Definition paragraphHasFootnoteDef := anyLine (test FOOTNOTE_DEF_RE).
Definition paragraphHasListLinkOnly := anyLine (test LIST_LINK_ONLY_RE).
Definition paragraphHasMarkdownTable :=
  anyLine (fun t => test MD_TABLE_SEPARATOR_RE t || test MD_TABLE_ROW_RE t).
Definition paragraphHasAtxHeading := anyLine (test ATX_HEADING_RE).

Definition lineStartsWithTripleColon (text : str) : bool :=
  test TRIPLE_COLON_RE text.

Definition lineIsXmlTagOnly (text : str) : bool :=
  test XML_TAG_ONLY_RE text || test HTML_COMMENT_ONLY_RE text.

(** [getFirstContentParagraphRange] *)
Definition getFirstContentParagraphRange (doc : document) : result (option Range) :=
  let fm := getFrontMatterRange doc in
  let i0 := match fm with Some r => (line (end_ r) + 1)%Z | None => 0%Z end in
  match findFrom (fun t => negb (isBlank t || test MDX_IMPORT_RE t))
                 (skipn (Z.to_nat i0) doc) i0 with
  | None => Done None
  | Some i =>
      let s := getStartLine doc i in
      let e := getEndLine doc i in
      endText <- lineAt doc e ;;
      r <- newRange s 0 e (len endText) ;;
      Done (Some r)
  end.

Record ParagraphSkipContext : Type := mkParagraphSkipContext {
  ctxDocument : document;
  ctxLineStart : Z;
  ctxLineEnd : Z;
  ctxFencedRanges : list Range;
  ctxJsxExprRanges : list Range;
  ctxFrontMatterRange : option Range;
  ctxSettings : Settings
}.

Definition overlapsFrontMatter (ctx : ParagraphSkipContext) : bool :=
  match ctxFrontMatterRange ctx with
  | Some fm => overlapsLines (ctxLineStart ctx) (ctxLineEnd ctx) fm
  | None => false
  end.

(** the first-paragraph rule of [shouldSkipParagraph] *)
Definition overlapsFirstParagraph (ctx : ParagraphSkipContext) : result bool :=
  if neverReflowFirstParagraph (ctxSettings ctx) then
    firstPara <- getFirstContentParagraphRange (ctxDocument ctx) ;;
    match firstPara with
    | Some r => Done (overlapsLines (ctxLineStart ctx) (ctxLineEnd ctx) r)
    | None => Done false
    end
  else Done false.

(** [lineStart === lineEnd && p(document.lineAt(lineStart).text)] *)
Definition singleLine (p : str -> bool) (doc : document) (lineStart lineEnd : Z)
    : result bool :=
  if (lineStart =? lineEnd)%Z
  then text <- lineAt doc lineStart ;; Done (p text)
  else Done false.

Definition shouldSkipParagraph (ctx : ParagraphSkipContext) : result bool :=
  let document := ctxDocument ctx in
  let lineStart := ctxLineStart ctx in
  let lineEnd := ctxLineEnd ctx in
  if overlapsFrontMatter ctx then Done true
  else if rangeOverlapsAny lineStart lineEnd (ctxFencedRanges ctx)
          || rangeOverlapsAny lineStart lineEnd (ctxJsxExprRanges ctx)
  then Done true
  else
    heading <- paragraphHasAtxHeading document lineStart lineEnd ;;
    if heading then Done true else
    import <- paragraphHasMdxImport document lineStart lineEnd ;;
    if import then Done true else
    footnote <- paragraphHasFootnoteDef document lineStart lineEnd ;;
    if footnote then Done true else
    table <- paragraphHasMarkdownTable document lineStart lineEnd ;;
    if table then Done true else
    linkOnly <- paragraphHasListLinkOnly document lineStart lineEnd ;;
    if linkOnly then Done true else
    firstPara <- overlapsFirstParagraph ctx ;;
    if firstPara then Done true else
    tripleColon <- singleLine lineStartsWithTripleColon document lineStart lineEnd ;;
    if tripleColon then Done true else
    xmlTag <- singleLine lineIsXmlTagOnly document lineStart lineEnd ;;
    if xmlTag then Done true else
    Done false.

(** what one iteration of the planner's loop does at cursor [i] *)
Inductive Outcome : Type :=
| Continue (next : Z) (edit : option TextEdit)
| Break.

(** [fm && i >= fm.start.line && i <= fm.end.line] *)
Definition inFrontMatter (fm : option Range) (i : Z) : option Range :=
  match fm with
  | Some r => if containsLine i r then Some r else None
  | None => None
  end.

Definition str_eqb (a b : str) : bool :=
  if list_eq_dec N.eq_dec a b then true else false.

Definition planStep (doc : document) (fm : option Range)
    (fenced jsxExpr : list Range) (hasRange : bool) (startLine endLine : Z)
    (settings : Settings) (i : Z) : result Outcome :=
  match inFrontMatter fm i with
  | Some r => Done (Continue (line (end_ r) + 1) None)
  | None =>
  match findRangeContainingLine fenced i with
  | Some fencedRange => Done (Continue (line (end_ fencedRange) + 1) None)
  | None =>
  match findRangeContainingLine jsxExpr i with
  | Some jsxRange => Done (Continue (line (end_ jsxRange) + 1) None)
  | None =>
      midLine <- lineAt doc i ;;
      let sei := mkStartEndInfo (getStartLine doc i) (getEndLine doc i)
                                (otherInfoOf doc i) in
      if hasRange && (lineEnd sei <? startLine)%Z
      then Done (Continue (lineEnd sei + 1) None)
      else if hasRange && (lineStart sei >? endLine)%Z
      then Done Break
      else if hasRange
              && ((lineStart sei <? startLine)%Z || (lineEnd sei >? endLine)%Z)
      then Done (Continue (lineEnd sei + 1) None)
      else
        skip <- shouldSkipParagraph
                  (mkParagraphSkipContext doc (lineStart sei) (lineEnd sei)
                                          fenced jsxExpr fm settings) ;;
        if skip then Done (Continue (lineEnd sei + 1) None)
        else
          endText <- lineAt doc (lineEnd sei) ;;
          rng <- newRange (lineStart sei) 0 (lineEnd sei) (len endText) ;;
          let original := getText doc rng in
          let reflowed := getReflowedText sei original settings in
          Done (Continue (lineEnd sei + 1)
                         (if str_eqb original reflowed then None
                          else Some (mkTextEdit rng reflowed)))
  end end end.

Definition pushEdit (edits : list TextEdit) (e : option TextEdit) : list TextEdit :=
  match e with Some x => edits ++ [x] | None => edits end.

(** the [while (i <= endLine)] loop *)
Fixpoint planLoop (fuel : nat) (doc : document) (fm : option Range)
    (fenced jsxExpr : list Range) (hasRange : bool) (startLine endLine : Z)
    (settings : Settings) (i : Z) (edits : list TextEdit)
    : result (list TextEdit) :=
  if (i <=? endLine)%Z then
    match fuel with
    | O => OutOfFuel
    | S fuel' =>
        o <- planStep doc fm fenced jsxExpr hasRange startLine endLine settings i ;;
        match o with
        | Break => Done edits
        | Continue next e =>
            planLoop fuel' doc fm fenced jsxExpr hasRange startLine endLine
                     settings next (pushEdit edits e)
        end
    end
  else Done edits.

Definition computeReflowEdits (fuel : nat) (doc : document)
    (targetRange : option Range) (settings : Settings)
    : result (list TextEdit) :=
  let fm := getFrontMatterRange doc in
  let fenced := getFencedCodeBlockRanges doc in
  let jsxExpr := getJsxExpressionRanges doc fenced in
  let hasRange := match targetRange with Some _ => true | None => false end in
  let startLine := match targetRange with Some r => line (start r) | None => 0%Z end in
  let endLine := match targetRange with
                 | Some r => line (end_ r)
                 | None => (lineCount doc - 1)%Z
                 end in
  let i := match targetRange, fm with
           | None, Some r => Z.max startLine (line (end_ r) + 1)
           | _, _ => startLine
           end in
  match targetRange, fm with
  | Some t, Some r => if containsRange r t then Done []
                      else planLoop fuel doc fm fenced jsxExpr hasRange
                                    startLine endLine settings i []
  | _, _ => planLoop fuel doc fm fenced jsxExpr hasRange
                     startLine endLine settings i []
  end.

End Planner.

(** ** Predicates on strings used in the statements *)

Definition no_ws (w : str) : bool := forallb (fun c => negb (is_ws c)) w.

(** a word: non-empty and free of white space *)
Definition clean (w : str) : Prop := nonempty w = true /\ no_ws w = true.

(** [heads_ok s]: [s] does not start with white space *)
Definition heads_ok (s : str) : Prop :=
  match s with [] => True | c :: _ => is_ws c = false end.

(** [last_ws s]: [s] ends with white space *)
Fixpoint last_ws (s : str) : bool :=
  match s with
  | [] => false
  | [c] => is_ws c
  | _ :: s' => last_ws s'
  end.


(** the whitespace-normalized word sequence of a text *)
Definition words_of (s : str) : list str := filter nonempty (split_ws s).

(** a segment of words that [fill] puts on one line: a single word, or
    several whose joined length respects the width *)
Definition good (effectiveLength : Z) (seg : list str) : Prop :=
  seg <> [] /\ Forall clean seg /\
  (length seg = 1%nat \/ (len (join [SP] seg) <= effectiveLength)%Z).

(** ** Direct forms of the classifier's expressions

    What the backtracking matcher computes on the three expressions of
    [getLineContext], written without backtracking; the equivalence with
    [exec] is proved below. *)

Definition kfin : cont := fun _ _ c => Some c.

(** the candidates of a greedy [p*] ([lo = 0]) or [p+] ([lo = 1]) in the
    order in which the matcher tries them: longest first *)
Fixpoint greedy_run (p : char -> bool) (k : cont) (c : caps) (lo pos : nat)
    (s : str) : option caps :=
  let here := match lo with O => k pos s c | S _ => None end in
  match s with
  | x :: s' =>
      if p x then orelse (greedy_run p k c (pred lo) (S pos) s') here else here
  | [] => here
  end.

(** [\s{lo,}(.* )$] after the groups in [c] *)
Definition ws_tail (lo : nat) (s : str) (c : caps) : option caps :=
  if (lo <=? length (take_while is_ws s)) && forallb is_dot (drop_while is_ws s)
  then Some ((3, drop_while is_ws s) :: c) else None.

(** [([*\-+]|\d+\.)\s+(.* )$] after the groups in [c] *)
Definition token_direct (s : str) (c : caps) : option caps :=
  match s with
  | x :: r =>
      if one_of "*-+" x then ws_tail 1 r ((2, [x]) :: c)
      else
        match take_while is_digit s, drop_while is_digit s with
        | _ :: _, d :: r' =>
            if is_chr "." d
            then ws_tail 1 r' ((2, take_while is_digit s ++ [d]) :: c)
            else None
        | _, _ => None
        end
  | [] => None
  end.

(** [(>+)\s*(.* )$] after the groups in [c] *)
Definition marks_direct (s : str) (c : caps) : option caps :=
  if nonempty (take_while (is_chr ">") s)
  then ws_tail 0 (drop_while (is_chr ">") s) ((2, take_while (is_chr ">") s) :: c)
  else None.

Definition list_direct (text : str) : option caps :=
  token_direct (drop_while is_ws text) [(1, take_while is_ws text)].

Definition quote_direct (text : str) : option caps :=
  marks_direct (drop_while is_ws text) [(1, take_while is_ws text)].

(** ** Units and the shape of the engine's output *)

(** the lines of the extent [[startLine, endLine]] *)
Definition unitLines (doc : document) (startLine endLine : Z) : list str :=
  firstn (trips startLine endLine) (skipn (Z.to_nat startLine) doc).

(** the contents the classifier extracts from the lines of a unit *)
Definition contents (lines : list str) : list str :=
  map (fun text => content (getLineContext text)) lines.

(** the lines of the text [reflowedLines.join('\n')] once it has replaced
    the unit: the empty text is one empty line *)
Definition linesOfText (out : list str) : document :=
  match out with [] => [[]] | _ :: _ => out end.

(** the block type under which [addPrefix] writes the line at [index] of
    a unit of type [t]: the continuation lines of a list item carry no
    marker *)
Definition emittedType (t : LineType) (index : nat) : LineType :=
  match t, index with
  | TList, S _ => TParagraph
  | _, _ => t
  end.

(** every output line, classified on its own, has the block type under
    which it was written *)
Definition stable (t : LineType) (out : list str) : Prop :=
  mapi (fun _ line => type (getLineContext line)) out
  = mapi (fun index _ => emittedType t index) out.

(** a list marker: one of the three bullets, or digits and a period *)
Definition isToken (tok : str) : Prop :=
  (exists b, tok = [b] /\ one_of "*-+" b = true)
  \/ (exists ds d, tok = ds ++ [d] /\ ds <> [] /\ forallb is_digit ds = true
                   /\ is_chr "." d = true).

(** the result of [reflowLines] from the first line of the unit and the
    contents of its lines *)
Definition reflowTexts (first : str) (cs : list str) (preferredLineLength : Z)
    : list str :=
  let context := getLineContext first in
  mapi (addPrefix context)
       (fill (preferredLineLength - prefixLength context)
             (split_ws (trim (join [SP] cs)))).

(** a line as [fill] writes it: words separated by single spaces *)
Definition filled (line : str) : Prop :=
  exists seg, seg <> [] /\ Forall clean seg /\ line = join [SP] seg.

(** ** An instance of the planner's parameters

    Paragraphs delimited by blank lines as extent resolver, and the
    engine of [reflowLines] as [getReflowedText]; it serves to run the
    planner on concrete documents. *)

Fixpoint sampleBack (doc : document) (n : nat) : nat :=
  match n with
  | O => O
  | S k => if isBlank (nth k doc []) then S k else sampleBack doc k
  end.

Fixpoint sampleForward (rest : list str) (i : Z) : Z :=
  match rest with
  | [] => i
  | t :: rest' => if isBlank t then i else sampleForward rest' (i + 1)
  end.

Definition sampleStartLine (doc : document) (i : Z) : Z :=
  if isBlank (textAt doc i) then i else Z.of_nat (sampleBack doc (Z.to_nat i)).

Definition sampleEndLine (doc : document) (i : Z) : Z :=
  if isBlank (textAt doc i) then i
  else sampleForward (skipn (S (Z.to_nat i)) doc) i.

Definition sampleOtherInfo (doc : document) (i : Z) : unit := tt.

(** the lines of a text with LF line ends *)
Fixpoint splitLines (s : str) : list str :=
  match s with
  | [] => [[]]
  | c :: s' =>
      if N.eqb c LF then [] :: splitLines s'
      else match splitLines s' with
           | l :: ls => (c :: l) :: ls
           | [] => [[c]]
           end
  end.

Definition sampleReflowedText (sei : StartEndInfo unit) (text : str)
    (settings : Settings) : str :=
  let lines := splitLines text in
  match reflowLines lines 0 (lineCount lines - 1) (preferredLineLength settings) with
  | Done out => join [LF] out
  | _ => text
  end.

Definition sampleEdits (fuel : nat) (doc : document) (targetRange : option Range)
    (settings : Settings) : result (list TextEdit) :=
  computeReflowEdits unit sampleStartLine sampleEndLine sampleOtherInfo
                     sampleReflowedText fuel doc targetRange settings.

(** the structural ranges and bounds that [computeReflowEdits] hands to
    its loop *)
Definition boundsOf (doc : document) (targetRange : option Range) : bool * Z * Z :=
  match targetRange with
  | Some r => (true, line (start r), line (end_ r))
  | None => (false, 0%Z, (lineCount doc - 1)%Z)
  end.


(** a requested range lies in the document *)
Definition validTarget (doc : document) (targetRange : option Range) : Prop :=
  match targetRange with
  | Some r => (0 <= line (start r))%Z /\ (line (end_ r) < lineCount doc)%Z
  | None => True
  end.

(** a line that keeps every unit that contains it from being reflowed:
    the five [paragraphHas...] tests of [shouldSkipParagraph] *)
Definition isTriggerLine (t : str) : bool :=
  test ATX_HEADING_RE t || test MDX_IMPORT_RE t || test FOOTNOTE_DEF_RE t
  || (test MD_TABLE_SEPARATOR_RE t || test MD_TABLE_ROW_RE t)
  || test LIST_LINK_ONLY_RE t.

(** ** Invariants of the detectors *)

(** no line of [[a, b]] lies in a fenced range *)
Definition fenceFree (fencedRanges : list Range) (a b : Z) : Prop :=
  forall l, (a <= l <= b)%Z -> findRangeContainingLine fencedRanges l = None.

(** a range of lines of the first [i] lines, none of them fenced *)
Definition closedBefore (fencedRanges : list Range) (i : Z) (r : Range) : Prop :=
  (0 <= line (start r) <= line (end_ r))%Z /\ (line (end_ r) < i)%Z
  /\ fenceFree fencedRanges (line (start r)) (line (end_ r)).

(** the state of the balancer before line [i] *)
Definition jsxInv (fencedRanges : list Range) (st : JsxState) (i : Z) : Prop :=
  Forall (closedBefore fencedRanges i) (jRanges st)
  /\ (forall cs, currentStart st = Some cs ->
                 (0 <= cs < i)%Z /\ fenceFree fencedRanges cs (i - 1)).

Definition ordered (r : Range) : Prop := (line (start r) <= line (end_ r))%Z.

(** ** Sample documents *)

Definition docBraceBeforeFence : document :=
  [str_of "{"; str_of "```"; str_of "code"; str_of "```"; str_of "after"].

Definition docFrontMatter : document :=
  [str_of "---"; str_of "tags: {a: 1}"; str_of "```"; str_of "---";
   str_of "text"; str_of "```"].

Definition docBraces : document :=
  [str_of "a {b"; str_of "c `}` d"; str_of "e } f"; str_of "g";
   str_of "~~~~"; str_of "```"; str_of "~~~"; str_of "~~~~~ "; str_of "x {"].

Definition docQuote : document := [str_of "> a"; str_of "> b"].

Definition docDash : document :=
  [str_of "The total is fifteen - five equals ten"].

Definition docItem : document :=
  [str_of "1. The quick brown fox jumps over the lazy dog"].

Definition docMixed : document :=
  [str_of "# Heading that is long enough to wrap"; str_of "";
   str_of "The quick brown fox jumps over the lazy dog"; str_of "and more";
   str_of ""; str_of "```"; str_of "code code code code code code code code";
   str_of "```"; str_of ":::note this is a container line"; str_of "";
   str_of "<div class=1 data-attribute=2 another=3>"; str_of "";
   str_of "+ [some long link text that wraps](http://example.com)"; str_of "";
   str_of "- [some long link text that wraps](http://example.com)"].

Definition sampleSettings : Settings := mkSettings 20 false [] false.

(** ** Further notions used in the statements *)

(** every break between consecutive segments is forced: the first word
    of the next segment does not fit behind the segment before it *)
Fixpoint tight (effectiveLength : Z) (segs : list (list str)) : Prop :=
  match segs with
  | [] => True
  | a :: rest =>
      match rest with
      | b :: _ => (effectiveLength < len (join [SP] a ++ [SP] ++ hd [] b))%Z
      | [] => True
      end
      /\ tight effectiveLength rest
  end.

(** the ranges of a list follow each other in the order of the list,
    with at least [gap - 1] lines between the end line of one and the
    start line of a later one *)
Definition separated (gap : Z) (rs : list Range) : Prop :=
  forall i j r1 r2, (i < j)%nat ->
    nth_error rs i = Some r1 -> nth_error rs j = Some r2 ->
    (line (end_ r1) + gap <= line (start r2))%Z.

(** a range of whole lines of the document *)
Definition inDocument (doc : document) (r : Range) : Prop :=
  (0 <= line (start r) <= line (end_ r))%Z /\ (line (end_ r) < lineCount doc)%Z.

(** the same, as a chain from the bound [lo] on: every range starts at
    or after the bound, and the bound moves [gap] lines past its end *)
Fixpoint chain (gap lo : Z) (rs : list Range) : Prop :=
  match rs with
  | [] => True
  | r :: rs' =>
      (lo <= line (start r))%Z /\ (line (start r) <= line (end_ r))%Z
      /\ chain gap (line (end_ r) + gap) rs'
  end.

(** the bound after the last range of a chain *)
Definition chainEnd (gap lo : Z) (rs : list Range) : Z :=
  fold_left (fun _ r => (line (end_ r) + gap)%Z) rs lo.

(** line [l] lies in the front matter, in a fenced code block or in a
    bracket-expression range *)
Definition inZone (doc : document) (l : Z) : bool :=
  let fenced := getFencedCodeBlockRanges doc in
  match inFrontMatter (getFrontMatterRange doc) l,
        findRangeContainingLine fenced l,
        findRangeContainingLine (getJsxExpressionRanges doc fenced) l with
  | None, None, None => false
  | _, _, _ => true
  end.

(** a line that [getFirstContentParagraphRange] does not pass over:
    neither blank nor an import line *)
Definition isContentLine (t : str) : bool :=
  negb (isBlank t || test MDX_IMPORT_RE t).

(** the first line after the front matter *)
Definition afterFrontMatter (doc : document) : Z :=
  match getFrontMatterRange doc with
  | Some r => (line (end_ r) + 1)%Z
  | None => 0%Z
  end.

(** ** More sample data *)

Definition docTwoParagraphs : document :=
  [str_of "The quick brown fox jumps over the lazy dog"; str_of "";
   str_of "The quick brown fox jumps over the lazy dog"].

Definition sampleSettingsFirst : Settings := mkSettings 20 false [] true.

(** ** What the detectors maintain *)

(** [t] closes the fence that the line [opener] opens: the test of
    [closeRe] for the character and the length of the opening run *)
Definition closesFence (opener t : str) : bool :=
  match exec openRe opener with
  | Some m => test (closeRe (nth 0 (group 1 m) 0%N) (length (group 1 m))) t
  | None => false
  end.

(** a fenced range starts on an opening fence, holds no closing fence
    of its opener strictly inside, and ends on one or on the last line
    of the document *)
Definition delimited (doc : document) (r : Range) : Prop :=
  let a := line (start r) in
  let b := line (end_ r) in
  test openRe (textAt doc a) = true
  /\ (forall l, (a < l < b)%Z -> closesFence (textAt doc a) (textAt doc l) = false)
  /\ ((a < b)%Z /\ closesFence (textAt doc a) (textAt doc b) = true
      \/ b = (lineCount doc - 1)%Z).

(** the state of the fence scan before line [i] *)
Definition fenceInv (doc : document) (st : FenceState) (i : Z) : Prop :=
  chain 1 0 (fRanges st)
  /\ (chainEnd 1 0 (fRanges st) <= if inBlock st then blockStart st else i)%Z
  /\ Forall (delimited doc) (fRanges st)
  /\ (inBlock st = true ->
      (0 <= blockStart st < i)%Z
      /\ (exists m, exec openRe (textAt doc (blockStart st)) = Some m
                    /\ fenceChar st = nth 0 (group 1 m) 0%N
                    /\ fenceLen st = length (group 1 m))
      /\ forall l, (blockStart st < l < i)%Z ->
                   closesFence (textAt doc (blockStart st)) (textAt doc l) = false)
  /\ (forall l, (0 <= l < i)%Z -> test openRe (textAt doc l) = true ->
                (exists r, In r (fRanges st)
                           /\ (line (start r) <= l <= line (end_ r))%Z)
                \/ (inBlock st = true /\ (blockStart st <= l)%Z)).

Definition hasOpenBrace (t : str) : bool := existsb (is_chr "{") t.

(** line [cs] holds an opening brace, or the line before it is fenced *)
Definition startsExpression (doc : document) (fencedRanges : list Range) (cs : Z)
    : Prop :=
  hasOpenBrace (textAt doc cs) = true
  \/ findRangeContainingLine fencedRanges (cs - 1) <> None.

(** the state of the balancer before line [i], as to the order of its
    ranges, the depth and the lines on which ranges start *)
Definition balancerInv (doc : document) (fencedRanges : list Range)
    (st : JsxState) (i : Z) : Prop :=
  chain 2 0 (jRanges st)
  /\ (0 <= jDepth st)%Z
  /\ Forall (fun r => startsExpression doc fencedRanges (line (start r)))
            (jRanges st)
  /\ match currentStart st with
     | Some cs =>
         (chainEnd 2 0 (jRanges st) <= cs)%Z /\ (0 <= cs < i)%Z
         /\ startsExpression doc fencedRanges cs
     | None =>
         (chainEnd 2 0 (jRanges st) <= i)%Z
         /\ (jDepth st = 0%Z
             \/ findRangeContainingLine fencedRanges (i - 1) <> None)
     end
  /\ ((forall l, (0 <= l < i)%Z -> hasOpenBrace (textAt doc l) = false) ->
      jRanges st = [] /\ currentStart st = None /\ jDepth st = 0%Z).

(** a run of [n] backticks *)
Definition TICK : char := 96%N.
Definition ticks (n : nat) : str := repeat TICK n.

Definition tick_free (s : str) : bool := forallb (fun c => negb (is_tick c)) s.

(** ** The delimiters of the front matter *)

(** [s] starts with the three characters [a], [b], [c]; what follows *)
Definition starts3 (a b c : char) (s : str) : option str :=
  match s with
  | x :: y :: z :: s' =>
      if N.eqb a x && N.eqb b y && N.eqb c z then Some s' else None
  | _ => None
  end.

(** white space, the three characters, white space, and nothing else *)
Definition delim_direct (a b c : char) (t : str) : bool :=
  match starts3 a b c (drop_while is_ws t) with
  | Some tail => forallb is_ws tail
  | None => false
  end.

(** the line, trimmed, is the delimiter [d] *)
Definition isDelimiter (d : string) (t : str) : bool :=
  str_eqb (trim t) (str_of d).

Arguments isDelimiter d%_string t.

Definition isOpener (t : str) : bool :=
  isDelimiter "---" t || isDelimiter "+++" t.

(** [t] closes the front matter that the line [opener] opens *)
Definition closesFrontMatter (opener t : str) : bool :=
  if isDelimiter "---" opener
  then isDelimiter "---" t || isDelimiter "..." t
  else isDelimiter "+++" t.

(** ** The interactive command, [reflow] and [GetStartEndInfo]

    The command works on the document of the active editor and on the
    position of its cursor; the case without active editor, where it
    only shows a warning, is left out.  Its result is the replacement it
    hands to [editor.edit], if any. *)

Section Command.

Variable OtherInfo : Type.
Variable getStartLine : document -> Z -> Z.
Variable getEndLine : document -> Z -> Z.
Variable otherInfoOf : document -> Z -> OtherInfo.

Definition GetStartEndInfo (doc : document) (position : Position)
    : result (StartEndInfo OtherInfo) :=
  let midLineNum := line position in
  midLine <- lineAt doc midLineNum ;;
  Done (mkStartEndInfo OtherInfo (getStartLine doc midLineNum)
                       (getEndLine doc midLineNum) (otherInfoOf doc midLineNum)).

Definition reflow (doc : document) (position : Position) (settings : Settings)
    : result (option TextEdit) :=
  let fm := getFrontMatterRange doc in
  if match fm with Some r => containsPosition r position | None => false end
  then Done None
  else
    let fenced := getFencedCodeBlockRanges doc in
    let jsxExpr := getJsxExpressionRanges doc fenced in
    match findRangeContainingLine fenced (line position),
          findRangeContainingLine jsxExpr (line position) with
    | None, None =>
        text <- lineAt doc (line position) ;;
        if test ATX_HEADING_RE text then Done None
        else
          sei <- GetStartEndInfo doc position ;;
          skip <- shouldSkipParagraph getStartLine getEndLine
                    (mkParagraphSkipContext doc (lineStart OtherInfo sei)
                                            (lineEnd OtherInfo sei)
                                            fenced jsxExpr fm settings) ;;
          if skip then Done None
          else
            reflowedLines <- reflowCommandLines doc (lineStart OtherInfo sei)
                                                (lineEnd OtherInfo sei) settings ;;
            endText <- lineAt doc (lineEnd OtherInfo sei) ;;
            rng <- newRange (lineStart OtherInfo sei) 0 (lineEnd OtherInfo sei)
                            (len endText) ;;
            Done (Some (mkTextEdit rng (join [LF] reflowedLines)))
    | _, _ => Done None
    end.

End Command.

(** ** Direct forms of further expressions *)

(** the candidates of a greedy [p{lo,hi}] in the order in which the
    matcher tries them *)
Fixpoint greedy_upto (p : char -> bool) (k : cont) (c : caps) (lo hi pos : nat)
    (s : str) : option caps :=
  let here := match lo with O => k pos s c | S _ => None end in
  match hi, s with
  | S hi', x :: s' =>
      if p x then orelse (greedy_upto p k c (pred lo) hi' (S pos) s') here else here
  | _, _ => here
  end.

(** the length of the run of [p] at the head of [s] *)
Definition run (p : char -> bool) (s : str) : nat := length (take_while p s).

(** a heading line: at most three white space characters, one to six
    hash signs, then white space or the end of the line *)
Definition atx_direct (t : str) : bool :=
  let r := drop_while is_ws t in
  (run is_ws t <=? 3)%nat
  && (1 <=? run (is_chr "#") r)%nat && (run (is_chr "#") r <=? 6)%nat
  && match drop_while (is_chr "#") r with
     | [] => true
     | x :: _ => is_ws x
     end.

(** the fence that a line opens: its character and the length of its
    run, after at most three white space characters *)
Definition fenceOf (t : str) : option (char * nat) :=
  let r := drop_while is_ws t in
  if (run is_ws t <=? 3)%nat then
    if (3 <=? run (is_chr "`") r)%nat then Some (chr "`", run (is_chr "`") r)
    else if (3 <=? run (is_chr "~") r)%nat then Some (chr "~", run (is_chr "~") r)
    else None
  else None.

(** a closing fence for the character [fc] and the length [fl]: at most
    three white space characters, at least [fl] times [fc], then white
    space only *)
Definition closes_direct (fc : char) (fl : nat) (t : str) : bool :=
  let r := drop_while is_ws t in
  (run is_ws t <=? 3)%nat
  && (fl <=? run (N.eqb fc) r)%nat
  && forallb is_ws (drop_while (N.eqb fc) r).

(** ** What a pass owes to a line

    When the extent of line [l] passes the skip policy, the extent was
    resolved at one of its lines and, if [getReflowedText] changes its
    text, the replacement is among the edits. *)
Definition served (OtherInfo : Type) (getStartLine getEndLine : document -> Z -> Z)
    (otherInfoOf : document -> Z -> OtherInfo)
    (getReflowedText : StartEndInfo OtherInfo -> str -> Settings -> str)
    (doc : document) (settings : Settings) (edits : list TextEdit) (l : Z)
    : Prop :=
  let fenced := getFencedCodeBlockRanges doc in
  let ls := getStartLine doc l in
  let le := getEndLine doc l in
  let rng := mkRange ls 0 le (len (textAt doc le)) in
  shouldSkipParagraph getStartLine getEndLine
    (mkParagraphSkipContext doc ls le fenced
       (getJsxExpressionRanges doc fenced) (getFrontMatterRange doc) settings)
  = Done false ->
  exists j,
    (ls <= j <= le)%Z
    /\ let new := getReflowedText
                    (mkStartEndInfo OtherInfo ls le (otherInfoOf doc j))
                    (getText doc rng) settings in
       new <> getText doc rng -> In (mkTextEdit rng new) edits.

(** a table row for [MD_TABLE_ROW_RE]: a pipe after the leading white
    space, a second pipe somewhere behind it, and no line terminator
    behind the first pipe *)
Definition table_row_direct (t : str) : bool :=
  match drop_while is_ws t with
  | x :: r => is_chr "|" x && forallb is_dot r && existsb (is_chr "|") r
  | [] => false
  end.

(** ** The balancer along the document *)

(** the state of the balancer when it reaches line [i]: the scan of the
    first [i] lines *)
Definition balancerBefore (doc : document) (fencedRanges : list Range) (i : Z)
    : JsxState :=
  jsxScan doc fencedRanges (firstn (Z.to_nat i) doc) 0 (mkJsxState [] 0 None).

(** the brace depth with which the balancer reaches line [i] *)
Definition depthBefore (doc : document) (fencedRanges : list Range) (i : Z) : Z :=
  jDepth (balancerBefore doc fencedRanges i).

(** line [l] counts as a line of an expression: it is not fenced, and
    the scan of its characters ends with [lineInside] set, which is so
    when the depth before the line is positive or the line opens a brace
    outside inline code *)
Definition exprLine (doc : document) (fencedRanges : list Range) (l : Z) : bool :=
  match findRangeContainingLine fencedRanges l with
  | Some _ => false
  | None =>
      lineInside
        (scanChars 0 (textAt doc l)
           (mkInlineState false 0 (0 <? depthBefore doc fencedRanges l)%Z
                          (depthBefore doc fencedRanges l)))
  end.

(** what the balancer has recorded before line [i]: closed ranges of
    expression lines that end at least two lines back, an open range of
    expression lines up to line [i - 1], and every run of expression
    lines inside one of them *)
Definition runInv (doc : document) (fencedRanges : list Range) (st : JsxState)
    (i : Z) : Prop :=
  (forall r, In r (jRanges st) ->
     (0 <= line (start r) <= line (end_ r))%Z /\ (line (end_ r) + 2 <= i)%Z
     /\ forall l, (line (start r) <= l <= line (end_ r))%Z ->
                  exprLine doc fencedRanges l = true)
  /\ (forall cs, currentStart st = Some cs ->
        (0 <= cs < i)%Z
        /\ forall l, (cs <= l < i)%Z -> exprLine doc fencedRanges l = true)
  /\ (forall a b, (0 <= a <= b)%Z -> (b < i)%Z ->
        (forall k, (a <= k <= b)%Z -> exprLine doc fencedRanges k = true) ->
        (exists r, In r (jRanges st)
                   /\ (line (start r) <= a)%Z /\ (b <= line (end_ r))%Z)
        \/ (exists cs, currentStart st = Some cs /\ (cs <= a)%Z)).

(** ** Link-only list lines as the specification words them

    A list line in the sense of the line classifier (a bullet [-], [*]
    or [+], or digits and a period) whose entire content is a single
    markdown link. *)

(** [s] is [[text](url)] and nothing else *)
Definition isMarkdownLink (s : str) : bool :=
  match s with
  | c :: r =>
      is_chr "[" c
      && match drop_while (none_of "]") r with
         | c1 :: c2 :: r2 =>
             is_chr "]" c1 && is_chr "(" c2
             && match drop_while (none_of ")") r2 with
                | [c3] => is_chr ")" c3
                | _ => false
                end
         | _ => false
         end
  | [] => false
  end.

Definition specLinkOnlyListLine (t : str) : bool :=
  match type (getLineContext t) with
  | TList => isMarkdownLink (content (getLineContext t))
  | _ => false
  end.

Definition docPlusLink : document :=
  [str_of "+ [some long link text that wraps](http://example.com)"].

Definition docNumberedLink : document :=
  [str_of "1. [some long link text that wraps](http://example.com)"].

(** * Properties *)

(** ** Strings *)

Lemma drop_while_head p s :
  match drop_while p s with [] => True | c :: _ => p c = false end.
Proof.
  induction s as [|x s IH]; simpl; auto.
  destruct (p x) eqn:E; auto.
Qed.

Lemma drop_while_id p s :
  match s with [] => True | c :: _ => p c = false end -> drop_while p s = s.
Proof. destruct s; simpl; auto. intros ->; reflexivity. Qed.

Lemma take_drop_while p s : take_while p s ++ drop_while p s = s.
Proof. induction s as [|x s IH]; simpl; auto. destruct (p x); simpl; congruence. Qed.

Lemma take_while_all p s : forallb p (take_while p s) = true.
Proof.
  induction s as [|x s IH]; simpl; auto.
  destruct (p x) eqn:E; simpl; auto. now rewrite E.
Qed.

Lemma span_app p a b :
  forallb p a = true ->
  match b with [] => True | c :: _ => p c = false end ->
  take_while p (a ++ b) = a /\ drop_while p (a ++ b) = b.
Proof.
  intros Ha Hb. induction a as [|x a IH]; simpl in *.
  - destruct b; simpl; auto. rewrite Hb; auto.
  - apply andb_true_iff in Ha as [Hx Ha]. rewrite Hx.
    destruct (IH Ha) as [-> ->]; auto.
Qed.

Lemma last_ws_rev s :
  last_ws s = match rev s with [] => false | c :: _ => is_ws c end.
Proof.
  induction s as [|x s IH]; auto.
  destruct s as [|y s]; auto.
  change (last_ws (x :: y :: s)) with (last_ws (y :: s)). rewrite IH.
  change (rev (x :: y :: s)) with (rev (y :: s) ++ [x]).
  destruct (rev (y :: s)) eqn:E; auto.
  apply (f_equal (@length _)) in E. rewrite length_rev in E. discriminate.
Qed.

Lemma last_ws_app a c : last_ws (a ++ [c]) = is_ws c.
Proof. rewrite last_ws_rev, rev_app_distr. reflexivity. Qed.

Lemma last_ws_app_ne a b : b <> [] -> last_ws (a ++ b) = last_ws b.
Proof.
  intros Hb. destruct (exists_last Hb) as (b' & c & ->).
  rewrite app_assoc, !last_ws_app. reflexivity.
Qed.

Lemma trim_id s : heads_ok s -> last_ws s = false -> trim s = s.
Proof.
  intros Hh Hl. unfold trim. rewrite (drop_while_id is_ws s Hh).
  rewrite drop_while_id; [apply rev_involutive|].
  rewrite last_ws_rev in Hl. destruct (rev s); auto.
Qed.

Lemma trim_heads_ok t : heads_ok (trim t).
Proof.
  unfold trim. set (u := drop_while is_ws t).
  assert (Hu : heads_ok u) by apply drop_while_head.
  destruct (rev (drop_while is_ws (rev u))) as [|c r] eqn:E; simpl; auto.
  pose proof (take_drop_while is_ws (rev u)) as Hs.
  apply (f_equal (@rev _)) in Hs. rewrite rev_app_distr, rev_involutive, E in Hs.
  rewrite <- Hs in Hu. exact Hu.
Qed.

Lemma trim_last_ok t : last_ws (trim t) = false.
Proof.
  unfold trim. rewrite last_ws_rev, rev_involutive.
  pose proof (drop_while_head is_ws (rev (drop_while is_ws t))) as H.
  destruct (drop_while is_ws (rev (drop_while is_ws t))); auto.
Qed.

(** *** [split] *)

Lemma split_go_no_ws b s : Forall (fun w => no_ws w = true) (split_go b s).
Proof.
  revert b. induction s as [|c s IH]; intros b; simpl.
  - repeat constructor.
  - destruct (is_ws c) eqn:E.
    + destruct b; [apply IH | constructor; [reflexivity | apply IH]].
    + specialize (IH false). destruct (split_go false s) as [|w l].
      * repeat constructor. simpl. now rewrite E.
      * inversion IH; subst. constructor; auto. simpl. now rewrite E.
Qed.

Lemma split_go_heads_ok b s :
  heads_ok s -> s <> [] -> split_go b s = split_go false s.
Proof.
  destruct s as [|c s]; [congruence|]. simpl. intros -> _. reflexivity.
Qed.

Lemma split_go_tail s :
  last_ws s = false ->
  (forall w l, split_go false s = w :: l -> Forall (fun x => nonempty x = true) l)
  /\ (s <> [] -> Forall (fun x => nonempty x = true) (split_go true s)).
Proof.
  induction s as [|c s IH]; intros Hl.
  - split; [|congruence]. simpl. intros w l H; inversion H; constructor.
  - destruct s as [|d s].
    + simpl in Hl. simpl. rewrite Hl. split.
      * intros w l H; inversion H; constructor.
      * intros _. repeat constructor.
    + change (last_ws (c :: d :: s)) with (last_ws (d :: s)) in Hl.
      destruct (IH Hl) as [IH1 IH2]. 
      assert (Hne : d :: s <> []) by discriminate. specialize (IH2 Hne).
      remember (d :: s) as s'. simpl. destruct (is_ws c) eqn:E.
      * split; auto. intros w l H; inversion H; subst; auto.
      * destruct (split_go false s') as [|w l] eqn:E'.
        { split; [intros ? ? H; inversion H; constructor | intros _; repeat constructor]. }
        { specialize (IH1 _ _ eq_refl). split.
          - intros ? ? H; inversion H; subst; auto.
          - intros _. constructor; auto. }
Qed.

(** the pieces of a trimmed, non-empty string are words *)
Lemma split_ws_trimmed s :
  heads_ok s -> last_ws s = false -> s <> [] -> Forall clean (split_ws s).
Proof.
  intros Hh Hl Hne.
  destruct (split_go_tail s Hl) as [_ H2]. specialize (H2 Hne).
  rewrite (split_go_heads_ok true s Hh Hne) in H2.
  pose proof (split_go_no_ws false s) as H3. unfold split_ws.
  rewrite Forall_forall in *. intros w Hw. split; auto.
Qed.

Lemma split_ws_trim t :
  trim t = [] \/ Forall clean (split_ws (trim t)).
Proof.
  destruct (trim t) eqn:E; [now left|right]. rewrite <- E.
  apply split_ws_trimmed; [apply trim_heads_ok | apply trim_last_ok | congruence].
Qed.
Lemma no_ws_last w : no_ws w = true -> last_ws w = false.
Proof.
  induction w as [|c w IH]; auto. simpl. intros H.
  apply andb_true_iff in H as [Hc Hw]. destruct w; auto.
  now apply negb_true_iff in Hc.
Qed.

Lemma clean_heads_ok w : clean w -> heads_ok w /\ w <> [].
Proof.
  intros [Hn Hw]. destruct w as [|c w]; [discriminate|]. split; [|discriminate].
  simpl in *. apply andb_true_iff in Hw as [Hc _]. now apply negb_true_iff in Hc.
Qed.

Lemma split_go_word w c rest :
  no_ws w = true -> is_ws c = true ->
  split_go false (w ++ c :: rest) = w :: split_go true rest.
Proof.
  intros Hw Hc. induction w as [|x w IH]; simpl.
  - now rewrite Hc.
  - simpl in Hw. apply andb_true_iff in Hw as [Hx Hw].
    apply negb_true_iff in Hx. rewrite Hx, (IH Hw). reflexivity.
Qed.

Lemma split_go_single w : no_ws w = true -> split_go false w = [w].
Proof.
  induction w as [|x w IH]; simpl; auto. intros Hw.
  apply andb_true_iff in Hw as [Hx Hw].
  apply negb_true_iff in Hx. rewrite Hx, (IH Hw). reflexivity.
Qed.

Lemma join_cons sep x l :
  l <> [] -> join sep (x :: l) = x ++ sep ++ join sep l.
Proof. destruct l; [congruence | reflexivity]. Qed.

Lemma join_snoc sep l x :
  l <> [] -> join sep (l ++ [x]) = join sep l ++ sep ++ x.
Proof.
  induction l as [|y l IH]; [congruence|]. intros _.
  destruct l as [|z l]; [reflexivity|].
  change ((y :: z :: l) ++ [x]) with (y :: ((z :: l) ++ [x])).
  rewrite join_cons by (simpl; discriminate).
  rewrite IH by discriminate.
  rewrite (join_cons sep y (z :: l)) by discriminate.
  now rewrite <- !app_assoc.
Qed.

Lemma join_app sep a b :
  a <> [] -> b <> [] -> join sep (a ++ b) = join sep a ++ sep ++ join sep b.
Proof.
  induction a as [|x a IH]; [congruence|]. intros _ Hb.
  destruct a as [|y a].
  - simpl app. now rewrite join_cons.
  - change ((x :: y :: a) ++ b) with (x :: ((y :: a) ++ b)).
    rewrite join_cons by (simpl; discriminate).
    rewrite IH by (auto; discriminate).
    rewrite (join_cons sep x (y :: a)) by discriminate.
    now rewrite <- !app_assoc.
Qed.

Lemma join_words_ends ws :
  Forall clean ws -> ws <> [] ->
  heads_ok (join [SP] ws) /\ last_ws (join [SP] ws) = false /\ join [SP] ws <> [].
Proof.
  induction 1 as [|w l Hw Hl IH]; [congruence|]. intros _.
  destruct (clean_heads_ok w Hw) as [Hh Hne].
  destruct l as [|w2 l].
  - simpl. repeat split; auto. apply no_ws_last, Hw.
  - rewrite join_cons by discriminate.
    destruct IH as (_ & IH2 & IH3); [discriminate|].
    repeat split.
    + destruct w; [congruence | exact Hh].
    + rewrite last_ws_app_ne by discriminate.
      rewrite last_ws_app_ne; auto.
    + destruct w; [congruence | discriminate].
Qed.

Lemma split_join_words ws :
  Forall clean ws -> ws <> [] -> split_ws (join [SP] ws) = ws.
Proof.
  induction 1 as [|w l Hw Hl IH]; [congruence|]. intros _.
  destruct l as [|w2 l].
  - simpl. apply split_go_single, Hw.
  - rewrite join_cons by discriminate. unfold split_ws.
    simpl app. rewrite split_go_word; [|apply Hw | reflexivity].
    destruct (join_words_ends _ Hl) as (Hh & _ & Hne); [discriminate|].
    rewrite split_go_heads_ok by assumption.
    f_equal. apply IH. discriminate.
Qed.

Lemma trim_join_words ws :
  Forall clean ws -> ws <> [] -> trim (join [SP] ws) = join [SP] ws.
Proof.
  intros H Hne. destruct (join_words_ends _ H Hne) as (Hh & Hl & _).
  now apply trim_id.
Qed.

Lemma filter_nonempty_id l :
  Forall (fun x => nonempty x = true) l -> filter nonempty l = l.
Proof. induction 1 as [|x l Hx _ IH]; simpl; auto. now rewrite Hx, IH. Qed.

Lemma clean_nonempty l : Forall clean l -> Forall (fun x => nonempty x = true) l.
Proof. apply Forall_impl. now intros w [H _]. Qed.

Lemma words_of_join ws : Forall clean ws -> words_of (join [SP] ws) = ws.
Proof.
  intros H. destruct ws as [|w l]; [reflexivity|]. unfold words_of.
  rewrite split_join_words by (auto; discriminate).
  apply filter_nonempty_id, clean_nonempty, H.
Qed.

(** *** [words_of] ignores white space at both ends *)

Lemma words_go_insep b s :
  filter nonempty (split_go b s) = filter nonempty (split_go false s).
Proof.
  destruct b; auto. destruct s as [|c s]; auto. simpl.
  destruct (is_ws c); reflexivity.
Qed.

Lemma words_go_all_ws b s :
  forallb is_ws s = true -> filter nonempty (split_go b s) = [].
Proof.
  revert b. induction s as [|c s IH]; intros b; simpl; auto.
  intros H. apply andb_true_iff in H as [Hc Hs]. rewrite Hc.
  destruct b; simpl; auto.
Qed.

Lemma words_go_leading s :
  filter nonempty (split_go false (drop_while is_ws s))
  = filter nonempty (split_go false s).
Proof.
  induction s as [|c s IH]; auto. simpl.
  destruct (is_ws c) eqn:E; simpl; [|now rewrite E].
  now rewrite IH, (words_go_insep true s).
Qed.

Lemma split_go_trailing core tr :
  forallb is_ws tr = true ->
  hd [] (split_go false (core ++ tr)) = hd [] (split_go false core)
  /\ filter nonempty (tl (split_go false (core ++ tr)))
     = filter nonempty (tl (split_go false core))
  /\ filter nonempty (split_go true (core ++ tr))
     = filter nonempty (split_go true core).
Proof.
  intros Htr. induction core as [|c core (IH1 & IH2 & IH3)].
  - simpl app. destruct tr as [|t tr]; simpl; auto.
    simpl in Htr. apply andb_true_iff in Htr as [Ht Htr]. rewrite Ht. simpl.
    rewrite (words_go_all_ws true tr Htr). auto.
  - simpl. destruct (is_ws c) eqn:E; simpl; auto.
    destruct (split_go false (core ++ tr)) as [|w l];
      destruct (split_go false core) as [|w' l']; simpl in *; subst; auto.
    + repeat split; auto. now rewrite IH2.
    + repeat split; auto. now rewrite <- IH2.
    + repeat split; auto. now rewrite IH2.
Qed.

Lemma words_go_trailing core tr :
  forallb is_ws tr = true ->
  filter nonempty (split_go false (core ++ tr))
  = filter nonempty (split_go false core).
Proof.
  intros Htr. destruct (split_go_trailing core tr Htr) as (H1 & H2 & _).
  destruct (split_go false (core ++ tr)) as [|w l];
    destruct (split_go false core) as [|w' l']; simpl in *; subst; auto;
    try (now rewrite <- H2); now rewrite H2.
Qed.

Lemma forallb_rev (p : char -> bool) l : forallb p l = true -> forallb p (rev l) = true.
Proof.
  rewrite !forallb_forall. intros H x Hx. apply H. now apply in_rev.
Qed.

Lemma words_of_trim t : words_of (trim t) = words_of t.
Proof.
  unfold words_of, split_ws, trim.
  rewrite <- (words_go_leading t). set (u := drop_while is_ws t).
  pose proof (take_drop_while is_ws (rev u)) as Hs.
  apply (f_equal (@rev _)) in Hs. rewrite rev_app_distr, rev_involutive in Hs.
  rewrite <- Hs at 2. symmetry. apply words_go_trailing.
  apply forallb_rev, take_while_all.
Qed.

(** the words the engine extracts from a text *)
Lemma split_trim_words t :
  (trim t = [] /\ words_of t = [])
  \/ (Forall clean (split_ws (trim t)) /\ split_ws (trim t) = words_of t).
Proof.
  destruct (split_ws_trim t) as [E|H].
  - left. split; auto. rewrite <- words_of_trim, E. reflexivity.
  - right. split; auto. rewrite <- words_of_trim. unfold words_of.
    symmetry. apply filter_nonempty_id, clean_nonempty, H.
Qed.

(** ** The greedy fill *)

Lemma join_clean_nonempty seg :
  seg <> [] -> Forall clean seg -> nonempty (join [SP] seg) = true.
Proof.
  intros Hne H. destruct (join_words_ends seg H Hne) as (_ & _ & Hj).
  destruct (join [SP] seg); [congruence | reflexivity].
Qed.

Lemma fillStep_nonempty eff done cur w :
  nonempty cur = true ->
  fillStep eff (done, cur) w
  = if (len (cur ++ [SP] ++ w) <=? eff)%Z
    then (done, cur ++ [SP] ++ w) else (done ++ [cur], w).
Proof. intros H. unfold fillStep. now rewrite H. Qed.

Lemma fold_fill_segments eff ws :
  Forall clean ws ->
  forall segs seg, Forall (good eff) segs -> good eff seg ->
  exists segs' seg',
    fold_left (fillStep eff) ws (map (join [SP]) segs, join [SP] seg)
      = (map (join [SP]) segs', join [SP] seg')
    /\ Forall (good eff) segs' /\ good eff seg'
    /\ concat (segs' ++ [seg']) = concat (segs ++ [seg]) ++ ws.
Proof.
  induction 1 as [|w ws Hw Hws IH]; intros segs seg Hsegs Hseg.
  - exists segs, seg. simpl. rewrite app_nil_r. auto.
  - cbn [fold_left]. pose proof Hseg as Hgood. destruct Hseg as (Hne & Hcl & Hlen).
    rewrite (fillStep_nonempty _ _ _ _ (join_clean_nonempty seg Hne Hcl)).
    destruct (len (join [SP] seg ++ [SP] ++ w) <=? eff)%Z eqn:E.
    + rewrite <- (join_snoc [SP] seg w Hne) in *.
      destruct (IH segs (seg ++ [w])) as (segs' & seg' & H1 & H2 & H3 & H4); auto.
      { repeat split.
        - destruct seg; discriminate.
        - apply Forall_app; auto.
        - right. now apply Z.leb_le. }
      exists segs', seg'. repeat split; auto; try apply H3.
      rewrite H4, !concat_app. simpl. now rewrite !app_nil_r, <- !app_assoc.
    + assert (Hm : map (join [SP]) segs ++ [join [SP] seg]
                   = map (join [SP]) (segs ++ [seg])) by now rewrite map_app.
      rewrite Hm. change w with (join [SP] [w]) at 1.
      destruct (IH (segs ++ [seg]) [w]) as (segs' & seg' & H1 & H2 & H3 & H4).
      { apply Forall_app; split; auto. }
      { split; [discriminate | split; [constructor; [exact Hw | constructor] | now left]]. }
      exists segs', seg'. repeat split; auto; try apply H3.
      rewrite H4, !concat_app. simpl. now rewrite !app_nil_r, <- !app_assoc.
Qed.

(** [fill] cuts the words into consecutive segments, one per line *)
Lemma fill_segments eff ws :
  Forall clean ws ->
  exists segs, fill eff ws = map (join [SP]) segs
               /\ concat segs = ws /\ Forall (good eff) segs.
Proof.
  intros H. destruct H as [|w ws Hw Hws].
  - exists []. auto.
  - unfold fill. simpl fold_left.
    change ([] : list str) with (map (join [SP]) []) at 1.
    change w with (join [SP] [w]) at 1.
    destruct (fold_fill_segments eff ws Hws [] [w]) as (segs' & seg' & H1 & H2 & H3 & H4).
    { constructor. }
    { split; [discriminate | split; [constructor; [exact Hw | constructor] | now left]]. }
    rewrite H1, (join_clean_nonempty seg' (proj1 H3) (proj1 (proj2 H3))).
    exists (segs' ++ [seg']). rewrite map_app.
    split; [reflexivity | split; [exact H4|]].
    apply Forall_app; split; auto.
Qed.

Lemma fill_empty eff : fill eff [[]] = [].
Proof. reflexivity. Qed.

(** ** The matcher on the classifier's expressions *)

Lemma orelse_none_r a : orelse a None = a.
Proof. now destruct a. Qed.

Lemma rep_loop_ext body body' g fuel :
  (forall pos s c k k', (forall p' s' c', k p' s' c' = k' p' s' c') ->
                        body pos s c k = body' pos s c k') ->
  forall lo hi pos s c k k',
    (forall p' s' c', k p' s' c' = k' p' s' c') ->
    rep_loop body g fuel lo hi pos s c k = rep_loop body' g fuel lo hi pos s c k'.
Proof.
  intros Hb. induction fuel as [|fuel IH]; intros lo hi pos s c k k' Hk; simpl.
  - rewrite (Hk pos s c). reflexivity.
  - rewrite (Hk pos s c).
    assert (E : body pos s c
                  (fun pos' s' c' =>
                     if pos <? pos'
                     then rep_loop body g fuel (pred lo) (hi_pred hi) pos' s' c' k
                     else None)
                = body' pos s c
                  (fun pos' s' c' =>
                     if pos <? pos'
                     then rep_loop body' g fuel (pred lo) (hi_pred hi) pos' s' c' k'
                     else None)).
    { apply Hb. intros p' s' c'. destruct (pos <? p'); auto. }
    rewrite E. reflexivity.
Qed.

(** the matcher only uses its continuation through its values *)
Lemma rmatch_ext r :
  forall pos s c k k',
    (forall p' s' c', k p' s' c' = k' p' s' c') ->
    rmatch r pos s c k = rmatch r pos s c k'.
Proof.
  induction r as [p| |r1 IH1 r2 IH2|r1 IH1 r2 IH2|lo hi g r IH|n r IH| |];
    intros pos s c k k' Hk; cbn [rmatch].
  - destruct s as [|x s]; auto. destruct (p x); auto.
  - auto.
  - apply IH1. intros. now apply IH2.
  - now rewrite (IH1 _ _ _ k k' Hk), (IH2 _ _ _ k k' Hk).
  - apply rep_loop_ext; auto.
  - apply IH. intros. apply Hk.
  - destruct (pos =? 0); auto.
  - destruct s; auto.
Qed.

Lemma greedy_run_ext p k k' c lo pos s :
  (forall p' s' c', k p' s' c' = k' p' s' c') ->
  greedy_run p k c lo pos s = greedy_run p k' c lo pos s.
Proof.
  intros Hk. revert lo pos. induction s as [|x s IH]; intros lo pos; simpl.
  - now rewrite Hk.
  - now rewrite Hk, IH.
Qed.

Lemma rep_loop_chr p c k s :
  forall fuel lo pos, (length s < fuel)%nat ->
    rep_loop (rmatch (RChar p)) true fuel lo None pos s c k
    = greedy_run p k c lo pos s.
Proof.
  induction s as [|x s IH]; intros fuel lo pos Hf;
    (destruct fuel as [|fuel]; [simpl in Hf; lia|]).
  - simpl. destruct lo; reflexivity.
  - cbn [rep_loop hi_open rmatch greedy_run]. destruct (p x).
    + assert (E : (pos <? S pos) = true) by (apply Nat.ltb_lt; lia).
      rewrite E. rewrite IH by (simpl in Hf; lia).
      destruct lo; [reflexivity | now rewrite orelse_none_r].
    + destruct lo; reflexivity.
Qed.

Lemma rmatch_rep_chr lo p pos s c k :
  rmatch (RRep lo None true (RChar p)) pos s c k = greedy_run p k c lo pos s.
Proof. cbn [rmatch]. apply rep_loop_chr. lia. Qed.

Lemma skipn_run_head p s j :
  (j < length (take_while p s))%nat ->
  exists x r, skipn j s = x :: r /\ p x = true.
Proof.
  revert j. induction s as [|x s IH]; intros j; simpl; [lia|].
  destruct (p x) eqn:E; simpl; [|lia]. destruct j as [|j].
  - intros _. now exists x, s.
  - intros H. apply IH. lia.
Qed.

Lemma skipn_run_suffix p s j :
  (j <= length (take_while p s))%nat ->
  exists a, skipn j s = a ++ drop_while p s /\ forallb p a = true.
Proof.
  revert j. induction s as [|x s IH]; intros j; simpl.
  - intros _. exists []. now destruct j.
  - destruct (p x) eqn:E; simpl.
    + destruct j as [|j]; intros H.
      * destruct (IH 0%nat) as (a & Ha & Hp); [lia|]. simpl in Ha.
        exists (x :: a). simpl. now rewrite E, Hp, <- Ha.
      * apply IH. lia.
    + intros H. assert (j = 0)%nat by lia. subst. now exists [].
Qed.

Lemma firstn_run p s : firstn (length (take_while p s)) s = take_while p s.
Proof. induction s as [|x s IH]; simpl; auto. destruct (p x); simpl; congruence. Qed.

Lemma skipn_run p s : skipn (length (take_while p s)) s = drop_while p s.
Proof. induction s as [|x s IH]; simpl; auto. destruct (p x); simpl; congruence. Qed.

(** a greedy run settles on its longest candidate when the shorter ones
    cannot succeed where the longest fails *)
Lemma greedy_run_max p k c s :
  forall lo pos,
    (k (pos + length (take_while p s))%nat (drop_while p s) c = None ->
     forall j, (lo <= j < length (take_while p s))%nat ->
               k (pos + j)%nat (skipn j s) c = None) ->
    greedy_run p k c lo pos s
    = if (lo <=? length (take_while p s))%nat
      then k (pos + length (take_while p s))%nat (drop_while p s) c
      else None.
Proof.
  induction s as [|x s IH]; intros lo pos H.
  - simpl. rewrite Nat.add_0_r. destruct lo; reflexivity.
  - cbn [greedy_run take_while drop_while]. cbn [take_while drop_while] in H.
    destruct (p x) eqn:E.
    + cbn [length] in *. rewrite IH.
      * replace (S pos + length (take_while p s))%nat
          with (pos + S (length (take_while p s)))%nat by lia.
        destruct lo as [|lo]; cbn [pred Nat.leb].
        { destruct (k (pos + S (length (take_while p s)))%nat (drop_while p s) c) eqn:Ek;
            [reflexivity|]. simpl.
          specialize (H eq_refl 0%nat). rewrite Nat.add_0_r in H. apply H. lia. }
        { now rewrite orelse_none_r. }
      * intros Ek j Hj.
        replace (S pos + length (take_while p s))%nat
          with (pos + S (length (take_while p s)))%nat in Ek by lia.
        specialize (H Ek (S j)).
        replace (S pos + j)%nat with (pos + S j)%nat by lia. apply H. lia.
    + simpl. rewrite Nat.add_0_r. destruct lo; reflexivity.
Qed.

(** an expression anchored by [^] can only match at offset 0 *)
Lemma exec_bol r s : exec (RSeq RBol r) s = rmatch r 0 s [] kfin.
Proof.
  unfold exec. 
  assert (H : forall s pos, exec_from (RSeq RBol r) (S pos) s = None).
  { clear s. induction s as [|x s IH]; intros pos; simpl; auto. }
  destruct s as [|x s]; simpl.
  - unfold kfin. now destruct (rmatch r 0 [] [] _).
  - rewrite H. unfold kfin. now destruct (rmatch r 0 (x :: s) [] _).
Qed.

Lemma rmatch_seq r1 r2 pos s c k :
  rmatch (RSeq r1 r2) pos s c k
  = rmatch r1 pos s c (fun pos' s' c' => rmatch r2 pos' s' c' k).
Proof. reflexivity. Qed.

Lemma rmatch_group n r pos s c k :
  rmatch (RGroup n r) pos s c k
  = rmatch r pos s c (fun pos' s' c' => k pos' s' ((n, firstn (pos' - pos) s) :: c')).
Proof. reflexivity. Qed.

Lemma rmatch_alt r1 r2 pos s c k :
  rmatch (RAlt r1 r2) pos s c k = orelse (rmatch r1 pos s c k) (rmatch r2 pos s c k).
Proof. reflexivity. Qed.

Lemma rmatch_chr p pos s c k :
  rmatch (RChar p) pos s c k
  = match s with x :: s' => if p x then k (S pos) s' c else None | [] => None end.
Proof. reflexivity. Qed.

Lemma rmatch_eol pos s c k :
  rmatch REol pos s c k = match s with [] => k pos s c | _ :: _ => None end.
Proof. reflexivity. Qed.

Lemma drop_while_all p s : forallb p s = true -> drop_while p s = [] /\ take_while p s = s.
Proof.
  induction s as [|x s IH]; simpl; auto. intros H.
  apply andb_true_iff in H as [Hx Hs]. rewrite Hx.
  destruct (IH Hs) as [-> ->]. auto.
Qed.

Lemma drop_while_not_all p s : forallb p s = false -> drop_while p s <> [].
Proof.
  induction s as [|x s IH]; simpl; [discriminate|].
  destruct (p x); simpl; auto. discriminate.
Qed.

Lemma forallb_suffix (p : char -> bool) a b :
  forallb p b = false -> forallb p (a ++ b) = false.
Proof.
  intros H. rewrite forallb_app, H. apply andb_false_r.
Qed.

Lemma add_sub_l a b : (a + b - a = b)%nat.
Proof. lia. Qed.

(** [(.* )$] *)
Lemma rmatch_tail pos s c :
  rmatch (RSeq (RGroup 3 (star dot)) REol) pos s c kfin
  = if forallb is_dot s then Some ((3, s) :: c) else None.
Proof.
  unfold star, dot. rewrite rmatch_seq, rmatch_group, rmatch_rep_chr.
  rewrite greedy_run_max.
  - cbn [Nat.leb]. rewrite rmatch_eol, add_sub_l, firstn_run.
    destruct (forallb is_dot s) eqn:E.
    + destruct (drop_while_all is_dot s E) as [-> ->]. reflexivity.
    + pose proof (drop_while_not_all is_dot s E).
      destruct (drop_while is_dot s); [congruence | reflexivity].
  - intros _ j Hj. destruct (skipn_run_head is_dot s j) as (x & r & -> & _); [lia|].
    reflexivity.
Qed.

(** [\s+(.* )$] and [\s*(.* )$] *)
Lemma rmatch_ws_tail lo pos s c :
  rmatch (RSeq (RRep lo None true ws) (RSeq (RGroup 3 (star dot)) REol)) pos s c kfin
  = ws_tail lo s c.
Proof.
  unfold ws. rewrite rmatch_seq, rmatch_rep_chr.
  rewrite (greedy_run_ext is_ws _ (fun _ s' c' =>
             if forallb is_dot s' then Some ((3, s') :: c') else None))
    by (intros; apply rmatch_tail).
  rewrite greedy_run_max; [unfold ws_tail; now destruct (_ <=? _)%nat|].
  intros H j Hj.
  destruct (skipn_run_suffix is_ws s j) as (a & -> & _); [lia|].
  destruct (forallb is_dot (drop_while is_ws s)) eqn:E; [discriminate|].
  now rewrite (forallb_suffix is_dot a _ E).
Qed.

(** *** Facts on character classes *)

Ltac char_fact :=
  intros;
  repeat match goal with H : _ = true |- _ => revert H end;
  unfold is_ws, is_digit, is_chr, one_of, is_dot, is_line_terminator, chr;
  cbn [str_of list_ascii_of_string map existsb N_of_ascii N_of_digits];
  match goal with
  | |- context [_ = false] =>
      intros; apply not_true_is_false; intro;
      repeat match goal with H : _ = true |- _ => revert H end
  | _ => idtac
  end;
  rewrite ?orb_true_iff, ?andb_true_iff, ?N.eqb_eq, ?N.leb_le; simpl; lia.

Lemma ws_not_bullet x : is_ws x = true -> one_of "*-+" x = false.
Proof. char_fact. Qed.

Lemma ws_not_digit x : is_ws x = true -> is_digit x = false.
Proof. char_fact. Qed.

Lemma ws_not_gt x : is_ws x = true -> is_chr ">" x = false.
Proof. char_fact. Qed.

Lemma gt_not_ws x : is_chr ">" x = true -> is_ws x = false.
Proof. char_fact. Qed.

Lemma digit_not_period x : is_digit x = true -> is_chr "." x = false.
Proof. char_fact. Qed.

Lemma bullet_not_digit x : one_of "*-+" x = true -> is_digit x = false.
Proof. char_fact. Qed.

Lemma bullet_not_ws x : one_of "*-+" x = true -> is_ws x = false.
Proof. char_fact. Qed.

Lemma digit_not_ws x : is_digit x = true -> is_ws x = false.
Proof. char_fact. Qed.

Lemma period_not_ws x : is_chr "." x = true -> is_ws x = false.
Proof. char_fact. Qed.

Lemma period_not_digit x : is_chr "." x = true -> is_digit x = false.
Proof. char_fact. Qed.

Lemma sp_is_ws : is_ws SP = true.
Proof. reflexivity. Qed.

Lemma not_ws_is_dot x : is_ws x = false -> is_dot x = true.
Proof.
  unfold is_dot. intros H. apply negb_true_iff, not_true_is_false. intro H2.
  revert H. apply eq_true_false_abs. revert H2.
  unfold is_ws, is_line_terminator.
  rewrite ?orb_true_iff, ?andb_true_iff, ?N.eqb_eq, ?N.leb_le. lia.
Qed.

Lemma succ_sub_l a : (S a - a = 1)%nat.
Proof. lia. Qed.

Lemma firstn_succ_run p s d r :
  drop_while p s = d :: r ->
  firstn (S (length (take_while p s))) s = take_while p s ++ [d].
Proof.
  induction s as [|x s IH]; cbn [take_while drop_while]; [discriminate|].
  destruct (p x); intros H.
  - cbn [length]. change (firstn (S (S (length (take_while p s)))) (x :: s))
      with (x :: firstn (S (length (take_while p s))) s).
    rewrite (IH H). reflexivity.
  - inversion H. reflexivity.
Qed.

(** the marker of a list item and what follows it *)
Lemma rmatch_token pos s c :
  rmatch (RSeq (RGroup 2 (RAlt (RChar (one_of "*-+")) (RSeq (plus digit) (lit "."))))
               (RSeq (plus ws) (RSeq (RGroup 3 (star dot)) REol))) pos s c kfin
  = token_direct s c.
Proof.
  rewrite rmatch_seq, rmatch_group, rmatch_alt, rmatch_chr, rmatch_seq.
  unfold plus, digit. rewrite rmatch_rep_chr.
  rewrite greedy_run_max.
  2:{ intros _ j Hj.
      destruct (skipn_run_head is_digit s j) as (x & r & -> & Hx); [lia|].
      unfold lit. rewrite rmatch_chr. now rewrite (digit_not_period x Hx). }
  unfold token_direct. destruct s as [|x r]; [reflexivity|].
  destruct (one_of "*-+" x) eqn:Eb.
  - cbn [take_while]. rewrite (bullet_not_digit x Eb). cbn [length Nat.leb].
    rewrite orelse_none_r. rewrite rmatch_ws_tail, succ_sub_l.
    reflexivity.
  - cbn [orelse].
    destruct (take_while is_digit (x :: r)) as [|y ds] eqn:Et; [reflexivity|].
    cbn [length Nat.leb]. unfold lit. rewrite rmatch_chr.
    destruct (drop_while is_digit (x :: r)) as [|d r'] eqn:Ed; [reflexivity|].
    destruct (is_chr "." d); [|reflexivity].
    rewrite rmatch_ws_tail.
    replace (S (pos + S (length ds)) - pos)%nat with (S (S (length ds))) by lia.
    change (S (length ds)) with (length (y :: ds)). rewrite <- Et.
    now rewrite (firstn_succ_run is_digit (x :: r) d r' Ed).
Qed.

Lemma nonempty_length (s : str) : nonempty s = (1 <=? length s)%nat.
Proof. now destruct s. Qed.

(** the marks of a block quote and what follows them *)
Lemma rmatch_marks pos s c :
  rmatch (RSeq (RGroup 2 (plus (lit ">")))
               (RSeq (star ws) (RSeq (RGroup 3 (star dot)) REol))) pos s c kfin
  = marks_direct s c.
Proof.
  rewrite rmatch_seq, rmatch_group. unfold plus, lit. rewrite rmatch_rep_chr.
  rewrite (greedy_run_ext (is_chr ">") _ (fun pos' s' c' =>
             ws_tail 0 s' ((2, firstn (pos' - pos) s) :: c')))
    by (intros; unfold star; apply rmatch_ws_tail).
  rewrite greedy_run_max.
  - unfold marks_direct. rewrite nonempty_length, add_sub_l, firstn_run. reflexivity.
  - intros H j Hj.
    destruct (skipn_run_head (is_chr ">") s j) as (x & r & E & Hx); [lia|].
    destruct (skipn_run_suffix (is_chr ">") s j) as (a & Ea & _); [lia|].
    unfold ws_tail in *. cbn [Nat.leb andb] in *.
    destruct (forallb is_dot (drop_while is_ws (drop_while (is_chr ">") s))) eqn:Ef;
      [discriminate|].
    rewrite E. cbn [drop_while]. rewrite (gt_not_ws x Hx), <- E, Ea.
    rewrite <- (take_drop_while is_ws (drop_while (is_chr ">") s)), app_assoc.
    now rewrite (forallb_suffix is_dot _ _ Ef).
Qed.

(** ** The three expressions of [getLineContext], without backtracking *)

Lemma exec_LIST_ITEM_RE text : exec LIST_ITEM_RE text = list_direct text.
Proof.
  unfold LIST_ITEM_RE. cbn [seqs]. rewrite exec_bol, rmatch_seq, rmatch_group.
  unfold star at 1, ws at 1. rewrite rmatch_rep_chr.
  rewrite (greedy_run_ext is_ws _ (fun pos' s' c' =>
             token_direct s' ((1, firstn (pos' - 0) text) :: c')))
    by (intros; apply rmatch_token).
  rewrite greedy_run_max.
  - cbn [Nat.leb Nat.add]. rewrite Nat.sub_0_r, firstn_run. reflexivity.
  - intros _ j Hj.
    destruct (skipn_run_head is_ws text j) as (x & r & -> & Hx); [lia|].
    unfold token_direct. rewrite (ws_not_bullet x Hx). cbn [take_while].
    now rewrite (ws_not_digit x Hx).
Qed.

Lemma exec_BLOCKQUOTE_RE text : exec BLOCKQUOTE_RE text = quote_direct text.
Proof.
  unfold BLOCKQUOTE_RE. cbn [seqs]. rewrite exec_bol, rmatch_seq, rmatch_group.
  unfold star at 1, ws at 1. rewrite rmatch_rep_chr.
  rewrite (greedy_run_ext is_ws _ (fun pos' s' c' =>
             marks_direct s' ((1, firstn (pos' - 0) text) :: c')))
    by (intros; apply rmatch_marks).
  rewrite greedy_run_max.
  - cbn [Nat.leb Nat.add]. rewrite Nat.sub_0_r, firstn_run. reflexivity.
  - intros _ j Hj.
    destruct (skipn_run_head is_ws text j) as (x & r & -> & Hx); [lia|].
    unfold marks_direct. cbn [take_while]. now rewrite (ws_not_gt x Hx).
Qed.

Lemma exec_LEADING_WS_RE text :
  exec LEADING_WS_RE text = Some [(1, take_while is_ws text)].
Proof.
  unfold LEADING_WS_RE. cbn [seqs]. rewrite exec_bol, rmatch_group.
  unfold star, ws. rewrite rmatch_rep_chr, greedy_run_max.
  - cbn [Nat.leb Nat.add]. unfold kfin. now rewrite Nat.sub_0_r, firstn_run.
  - discriminate.
Qed.

(** ** The classifier *)

Lemma getLineContext_direct text :
  getLineContext text =
  match list_direct text with
  | Some m => mkLineContext TList (group 1 m) (group 2 m) (group 3 m)
  | None =>
      match quote_direct text with
      | Some m => mkLineContext TBlockquote (group 1 m) (group 2 m) (group 3 m)
      | None => mkLineContext TParagraph (take_while is_ws text) [] (trim text)
      end
  end.
Proof.
  unfold getLineContext.
  now rewrite exec_LIST_ITEM_RE, exec_BLOCKQUOTE_RE, exec_LEADING_WS_RE.
Qed.

Lemma ws_tail_groups lo s c m :
  ws_tail lo s c = Some m ->
  m = (3, drop_while is_ws s) :: c
  /\ (lo <= length (take_while is_ws s))%nat
  /\ forallb is_dot (drop_while is_ws s) = true.
Proof.
  unfold ws_tail. destruct (_ <=? _)%nat eqn:E1; [|discriminate].
  destruct (forallb _ _) eqn:E2; [|discriminate]. simpl.
  intros H; inversion H. apply Nat.leb_le in E1. auto.
Qed.

Lemma token_direct_groups s c m :
  token_direct s c = Some m ->
  exists tok r, s = tok ++ r /\ isToken tok
                /\ ws_tail 1 r ((2, tok) :: c) = Some m.
Proof.
  unfold token_direct. destruct s as [|x r]; [discriminate|].
  destruct (one_of "*-+" x) eqn:Eb.
  - intros H. exists [x], r. repeat split; auto. left. now exists x.
  - destruct (take_while is_digit (x :: r)) as [|y ds] eqn:Et; [discriminate|].
    destruct (drop_while is_digit (x :: r)) as [|d r'] eqn:Ed; [discriminate|].
    destruct (is_chr "." d) eqn:Ep; [|discriminate]. intros H.
    exists ((y :: ds) ++ [d]), r'. repeat split; auto.
    + rewrite <- app_assoc. simpl app at 2. rewrite <- Et, <- Ed.
      symmetry. apply take_drop_while.
    + right. exists (y :: ds), d. repeat split; auto; [discriminate|].
      rewrite <- Et. apply take_while_all.
Qed.

(** the context of a line always has the line's leading white space as
    indent; a list or block-quote context has a non-empty prefix *)
Lemma getLineContext_indent text :
  indent (getLineContext text) = take_while is_ws text.
Proof.
  rewrite getLineContext_direct. unfold list_direct, quote_direct, marks_direct.
  destruct (token_direct _ _) as [m|] eqn:E.
  - apply token_direct_groups in E as (tok & r & _ & _ & E).
    apply ws_tail_groups in E as (-> & _). reflexivity.
  - destruct (nonempty _); [|reflexivity].
    destruct (ws_tail _ _ _) as [m|] eqn:E2; [|reflexivity].
    apply ws_tail_groups in E2 as (-> & _). reflexivity.
Qed.

Lemma getLineContext_list text :
  type (getLineContext text) = TList ->
  isToken (prefix (getLineContext text)).
Proof.
  rewrite getLineContext_direct. unfold list_direct.
  destruct (token_direct _ _) as [m|] eqn:E.
  - intros _. apply token_direct_groups in E as (tok & r & _ & Ht & E).
    apply ws_tail_groups in E as (-> & _). exact Ht.
  - destruct (quote_direct text); discriminate.
Qed.

Lemma getLineContext_quote text :
  type (getLineContext text) = TBlockquote ->
  nonempty (prefix (getLineContext text)) = true
  /\ forallb (is_chr ">") (prefix (getLineContext text)) = true.
Proof.
  rewrite getLineContext_direct.
  destruct (list_direct text); [discriminate|].
  unfold quote_direct, marks_direct.
  destruct (nonempty _) eqn:En; [|discriminate].
  destruct (ws_tail _ _ _) as [m|] eqn:E; [|discriminate].
  apply ws_tail_groups in E as (-> & _). intros _. simpl. split; auto.
  apply take_while_all.
Qed.

Lemma getLineContext_paragraph text :
  type (getLineContext text) = TParagraph ->
  prefix (getLineContext text) = [] /\ content (getLineContext text) = trim text.
Proof.
  rewrite getLineContext_direct.
  destruct (list_direct text); [discriminate|].
  destruct (quote_direct text); [discriminate|]. auto.
Qed.

Lemma isToken_nonempty tok : isToken tok -> nonempty tok = true.
Proof.
  intros [(b & -> & _)|(ds & d & -> & _)]; [reflexivity|].
  now destruct ds.
Qed.

(** the length of what [addPrefix] puts before a line is [prefixLength] *)
Lemma addPrefix_length text index line :
  exists lead, addPrefix (getLineContext text) index line = lead ++ line
               /\ len lead = prefixLength (getLineContext text).
Proof.
  unfold addPrefix, prefixLength, len.
  destruct (type (getLineContext text)) eqn:Et.
  - pose proof (isToken_nonempty _ (getLineContext_list text Et)) as Hn.
    rewrite Hn. destruct index.
    + exists (indent (getLineContext text) ++ prefix (getLineContext text) ++ [SP]).
      rewrite <- !app_assoc. split; auto. rewrite !length_app. simpl. lia.
    + exists (indent (getLineContext text)
              ++ spaces (length (prefix (getLineContext text)) + 1)).
      rewrite <- !app_assoc. split; auto.
      unfold spaces. rewrite !length_app, repeat_length. lia.
  - destruct (getLineContext_quote text Et) as [Hn _]. rewrite Hn.
    exists (indent (getLineContext text) ++ prefix (getLineContext text) ++ [SP]).
    rewrite <- !app_assoc. split; auto. rewrite !length_app. simpl. lia.
  - destruct (getLineContext_paragraph text Et) as [-> _]. simpl.
    exists (indent (getLineContext text)). split; auto. lia.
Qed.

(** ** [reflowLines] on an extent of the document *)

Lemma lineAt_in doc i :
  (0 <= i < lineCount doc)%Z -> lineAt doc i = Done (nth (Z.to_nat i) doc []).
Proof.
  intros [H1 H2]. unfold lineAt.
  apply Z.leb_le in H1. apply Z.ltb_lt in H2. now rewrite H1, H2.
Qed.

Lemma lineAt_out doc i :
  ~ (0 <= i < lineCount doc)%Z -> lineAt doc i = Thrown.
Proof.
  intros H. unfold lineAt.
  destruct (0 <=? i)%Z eqn:E1; destruct (i <? lineCount doc)%Z eqn:E2; auto.
  apply Z.leb_le in E1. apply Z.ltb_lt in E2. lia.
Qed.

Lemma skipn_nth {A} (d : A) l i :
  (i < length l)%nat -> skipn i l = nth i l d :: skipn (S i) l.
Proof.
  revert i. induction l as [|x l IH]; intros i Hi; simpl in Hi; [lia|].
  destruct i; [reflexivity|]. simpl. apply IH. lia.
Qed.

Lemma collectFrom_unit doc n :
  forall s, (0 <= s)%Z -> (s + Z.of_nat n <= lineCount doc)%Z ->
    collectFrom doc s n = Done (contents (firstn n (skipn (Z.to_nat s) doc))).
Proof.
  unfold lineCount.
  induction n as [|n IH]; intros s H0 H1; [reflexivity|].
  cbn [collectFrom]. rewrite lineAt_in by (unfold lineCount; lia).
  cbn [bind]. rewrite IH by lia. cbn [bind].
  rewrite (@skipn_nth str [] doc (Z.to_nat s)) by lia.
  replace (Z.to_nat (s + 1)) with (S (Z.to_nat s)) by lia.
  reflexivity.
Qed.

Lemma reflowLines_unit doc s e L :
  (0 <= s)%Z -> (s <= e)%Z -> (e < lineCount doc)%Z ->
  reflowLines doc s e L
  = Done (reflowTexts (nth (Z.to_nat s) doc []) (contents (unitLines doc s e)) L).
Proof.
  intros H0 H1 H2. unfold reflowLines.
  rewrite lineAt_in by lia. cbn [bind].
  rewrite collectFrom_unit; [reflexivity | lia | unfold trips; lia].
Qed.

Lemma in_mapi_from {A B} (f : nat -> A -> B) l :
  forall i y, In y (mapi_from f i l) -> exists j x, In x l /\ y = f j x.
Proof.
  induction l as [|x l IH]; intros i y; simpl; [tauto|].
  intros [<-|H].
  - exists i, x. auto.
  - destruct (IH _ _ H) as (j & x' & Hx & ->). exists j, x'. auto.
Qed.

Lemma in_concat_seg {A} (seg : list A) segs x :
  In seg segs -> In x seg -> In x (concat segs).
Proof. intros H1 H2. apply in_concat. now exists seg. Qed.

(** the shape of the engine's lines: nothing, or the segments of [fill]
    on the words of the unit *)
Lemma reflowTexts_shape first cs L :
  reflowTexts first cs L = [] /\ words_of (join [SP] cs) = []
  \/ exists segs,
       reflowTexts first cs L
       = mapi (addPrefix (getLineContext first)) (map (join [SP]) segs)
       /\ concat segs = words_of (join [SP] cs)
       /\ Forall (good (L - prefixLength (getLineContext first))) segs
       /\ segs <> []
       /\ split_ws (trim (join [SP] cs)) = concat segs
       /\ fill (L - prefixLength (getLineContext first)) (concat segs)
          = map (join [SP]) segs.
Proof.
  unfold reflowTexts.
  destruct (split_trim_words (join [SP] cs)) as [[E1 E2]|[H1 H2]].
  - left. rewrite E1. auto.
  - right.
    destruct (fill_segments (L - prefixLength (getLineContext first)) _ H1)
      as (segs & Hf & Hc & Hg).
    exists segs. rewrite Hc, Hf, H2. repeat split; auto.
    intros ->. simpl in Hc.
    unfold split_ws in Hc. destruct (trim (join [SP] cs)) as [|x t]; [discriminate|].
    simpl in Hc. destruct (is_ws x); [discriminate|].
    destruct (split_go false t); discriminate.
Qed.

Lemma len_app a b : len (a ++ b) = (len a + len b)%Z.
Proof. unfold len. rewrite length_app. lia. Qed.

(** C3.  For every valid extent and every preferred line length (the
    configured lengths, 1 or more, among them), [reflowLines] returns, and
    every line it returns is at most [preferredLineLength] long, unless it
    is one word of the unit, alone behind the indent and prefix that
    [addPrefix] re-attaches, and longer than the effective width
    [preferredLineLength - prefixLength]; such a word is kept whole. *)
Theorem reflowLines_width_bound doc s e L :
  (0 <= s)%Z -> (s <= e)%Z -> (e < lineCount doc)%Z ->
  let context := getLineContext (nth (Z.to_nat s) doc []) in
  exists out,
    reflowLines doc s e L = Done out
    /\ forall line, In line out ->
         (len line <= L)%Z
         \/ exists index word,
              line = addPrefix context index word
              /\ clean word
              /\ In word (words_of (join [SP] (contents (unitLines doc s e))))
              /\ (L - prefixLength context < len word)%Z.
Proof.
  intros H0 H1 H2. cbv zeta.
  set (context := getLineContext (nth (Z.to_nat s) doc [])).
  eexists. split; [now apply reflowLines_unit|].
  intros line Hin.
  destruct (reflowTexts_shape (nth (Z.to_nat s) doc []) (contents (unitLines doc s e)) L)
    as [[E _]|(segs & E & Hc & Hg & _)]; rewrite E in Hin; [destruct Hin|].
  apply in_mapi_from in Hin as (j & l & Hl & ->).
  apply in_map_iff in Hl as (seg & <- & Hseg).
  rewrite Forall_forall in Hg. destruct (Hg seg Hseg) as (Hne & Hcl & Hlen).
  fold context in Hlen, Hg |- *.
  destruct (Z_le_gt_dec (len (join [SP] seg)) (L - prefixLength context)) as [Hle|Hgt].
  - left.
    destruct (addPrefix_length (nth (Z.to_nat s) doc []) j (join [SP] seg))
      as (lead & Hl & Hlead).
    fold context in Hl, Hlead. rewrite Hl, len_app. lia.
  - right. destruct Hlen as [H1w|Hw]; [|lia].
    destruct seg as [|w [|w2 seg]]; try discriminate. cbn [join] in *.
    exists j, w. inversion Hcl as [|? ? Hw' _]; subst.
    split; [reflexivity|]. split; [exact Hw'|]. split; [|lia].
    rewrite <- Hc. apply (in_concat_seg [w]); simpl; auto.
Qed.

(** ** Content preservation *)

Lemma skipn_mapi_lead {A} (f : nat -> A -> str) (g : A -> str) n l :
  (forall i x, exists lead, f i x = lead ++ g x /\ length lead = n) ->
  forall i, map (skipn n) (mapi_from f i l) = map g l.
Proof.
  intros H. induction l as [|x l IH]; intros i; simpl; auto.
  destruct (H i x) as (lead & -> & <-).
  now rewrite skipn_app, skipn_all, Nat.sub_diag, IH.
Qed.

Lemma flat_map_words_join segs :
  Forall (Forall clean) segs ->
  flat_map words_of (map (join [SP]) segs) = concat segs.
Proof.
  induction 1 as [|seg segs Hs _ IH]; simpl; auto.
  now rewrite (words_of_join seg Hs), IH.
Qed.

Lemma good_clean eff segs : Forall (good eff) segs -> Forall (Forall clean) segs.
Proof. apply Forall_impl. now intros seg (_ & H & _). Qed.

(** C4, amended.  For every valid extent, [reflowLines] returns, and the
    word sequence of its lines, once the lead that [addPrefix] re-attached
    (the first [prefixLength] characters) is removed from each, is the
    word sequence of the contents that the classifier extracted from the
    lines of the unit: no content word is added, dropped, duplicated or
    reordered. *)
Theorem reflowLines_preserves_content_words doc s e L :
  (0 <= s)%Z -> (s <= e)%Z -> (e < lineCount doc)%Z ->
  let context := getLineContext (nth (Z.to_nat s) doc []) in
  exists out,
    reflowLines doc s e L = Done out
    /\ flat_map words_of (map (skipn (Z.to_nat (prefixLength context))) out)
       = words_of (join [SP] (contents (unitLines doc s e))).
Proof.
  intros H0 H1 H2. cbv zeta. eexists. split; [now apply reflowLines_unit|].
  destruct (reflowTexts_shape (nth (Z.to_nat s) doc []) (contents (unitLines doc s e)) L)
    as [[E1 E2]|(segs & E & Hc & Hg & _)]; [now rewrite E1, E2|].
  rewrite E. unfold mapi.
  rewrite (skipn_mapi_lead _ (fun x => x)).
  - now rewrite map_id, flat_map_words_join, Hc by (eapply good_clean; eauto).
  - intros i x. destruct (addPrefix_length (nth (Z.to_nat s) doc []) i x)
      as (lead & Hl & Hn).
    exists lead. split; auto. unfold len in Hn. lia.
Qed.

(** ** Idempotence *)

Lemma join_words_dot seg :
  Forall clean seg -> forallb is_dot (join [SP] seg) = true.
Proof.
  assert (Hw : forall w, no_ws w = true -> forallb is_dot w = true).
  { intros w. unfold no_ws. rewrite !forallb_forall. intros H x Hx.
    apply not_ws_is_dot, negb_true_iff, H, Hx. }
  induction 1 as [|w l [_ Hc] _ IH]; auto.
  destruct l as [|w2 l]; [simpl; auto|].
  rewrite join_cons by discriminate.
  rewrite !forallb_app, (Hw w Hc), IH. reflexivity.
Qed.

Lemma filled_facts line :
  filled line ->
  heads_ok line /\ last_ws line = false /\ line <> []
  /\ forallb is_dot line = true.
Proof.
  intros (seg & Hne & Hcl & ->).
  destruct (join_words_ends seg Hcl Hne) as (H1 & H2 & H3).
  repeat split; auto. now apply join_words_dot.
Qed.

Lemma trim_leading ind s :
  forallb is_ws ind = true -> heads_ok s -> trim (ind ++ s) = trim s.
Proof.
  intros Hi Hs. unfold trim.
  destruct (span_app is_ws ind s Hi Hs) as [_ ->].
  now rewrite (drop_while_id is_ws s Hs).
Qed.

Lemma span_ws_line ind rest :
  forallb is_ws ind = true -> heads_ok rest ->
  take_while is_ws (ind ++ rest) = ind /\ drop_while is_ws (ind ++ rest) = rest.
Proof. intros Hi Hr. apply span_app; auto. Qed.

Lemma ws_tail_sp lo line c :
  (lo <= 1)%nat -> filled line ->
  ws_tail lo (SP :: line) c = Some ((3, line) :: c).
Proof.
  intros Hlo Hf. destruct (filled_facts line Hf) as (Hh & _ & Hne & Hd).
  unfold ws_tail. change (SP :: line) with ([SP] ++ line).
  destruct (span_ws_line [SP] line eq_refl Hh) as [-> ->].
  rewrite Hd. simpl length.
  assert (E : (lo <=? 1)%nat = true) by (apply Nat.leb_le; lia).
  now rewrite E.
Qed.

Lemma isToken_head tok rest :
  isToken tok -> heads_ok (tok ++ rest).
Proof.
  intros [(b & -> & Hb)|(ds & d & -> & Hne & Hds & _)].
  - simpl. now apply bullet_not_ws.
  - destruct ds as [|x ds]; [congruence|]. simpl in *.
    apply andb_true_iff in Hds as [Hx _]. now apply digit_not_ws.
Qed.

Lemma classify_list ind tok line :
  forallb is_ws ind = true -> isToken tok -> filled line ->
  getLineContext (ind ++ tok ++ [SP] ++ line) = mkLineContext TList ind tok line.
Proof.
  intros Hi Ht Hf. rewrite getLineContext_direct. unfold list_direct.
  destruct (span_ws_line ind (tok ++ [SP] ++ line) Hi (isToken_head _ _ Ht))
    as [-> ->].
  match goal with |- context [token_direct ?a ?b] =>
    assert (E : token_direct a b = Some [(3, line); (2, tok); (1, ind)]) end.
  { destruct Ht as [(b & -> & Hb)|(ds & d & -> & Hne & Hds & Hd)].
    - simpl. rewrite Hb. now apply ws_tail_sp.
    - unfold token_direct.
      destruct ds as [|x ds]; [congruence|]. simpl in Hds.
      apply andb_true_iff in Hds as [Hx Hds].
      assert (Hb : one_of "*-+" x = false).
      { destruct (one_of "*-+" x) eqn:Eb; auto.
        apply bullet_not_digit in Eb. congruence. }
      rewrite <- !app_assoc. cbn [app]. rewrite Hb.
      change (x :: ds ++ d :: SP :: line) with ((x :: ds) ++ d :: SP :: line).
      destruct (span_app is_digit (x :: ds) (d :: SP :: line)) as [-> ->].
      + simpl. now rewrite Hx.
      + now apply period_not_digit.
      + rewrite Hd. now apply ws_tail_sp. }
  now rewrite E.
Qed.

Lemma gt_not_bullet x : is_chr ">" x = true -> one_of "*-+" x = false.
Proof. char_fact. Qed.

Lemma gt_not_digit x : is_chr ">" x = true -> is_digit x = false.
Proof. char_fact. Qed.

Lemma classify_quote ind marks line :
  forallb is_ws ind = true ->
  nonempty marks = true -> forallb (is_chr ">") marks = true -> filled line ->
  getLineContext (ind ++ marks ++ [SP] ++ line)
  = mkLineContext TBlockquote ind marks line.
Proof.
  intros Hi Hn Hm Hf. rewrite getLineContext_direct.
  unfold list_direct, quote_direct.
  destruct marks as [|x marks]; [discriminate|].
  pose proof Hm as Hm'. cbn [forallb] in Hm'. apply andb_true_iff in Hm' as [Hx _].
  assert (Hh : heads_ok ((x :: marks) ++ [SP] ++ line))
    by (cbn [app heads_ok]; now apply gt_not_ws).
  destruct (span_ws_line ind ((x :: marks) ++ [SP] ++ line) Hi Hh) as [-> ->].
  match goal with |- context [token_direct ?a ?b] =>
    assert (E : token_direct a b = None) end.
  { cbn [app token_direct take_while].
    now rewrite (gt_not_bullet x Hx), (gt_not_digit x Hx). }
  rewrite E. unfold marks_direct.
  destruct (span_app (is_chr ">") (x :: marks) ([SP] ++ line) Hm eq_refl)
    as [-> ->].
  cbn [nonempty app]. now rewrite (ws_tail_sp 0 line _ (Nat.le_0_l 1) Hf).
Qed.

Lemma classify_paragraph ind line :
  forallb is_ws ind = true -> filled line ->
  type (getLineContext (ind ++ line)) = TParagraph ->
  getLineContext (ind ++ line) = mkLineContext TParagraph ind [] line.
Proof.
  intros Hi Hf Ht. destruct (filled_facts line Hf) as (Hh & Hl & _ & _).
  pose proof (getLineContext_indent (ind ++ line)) as H1.
  destruct (getLineContext_paragraph _ Ht) as [H2 H3].
  destruct (span_ws_line ind line Hi Hh) as [E _]. rewrite E in H1.
  rewrite (trim_leading ind line Hi Hh), (trim_id line Hh Hl) in H3.
  destruct (getLineContext (ind ++ line)); simpl in *. congruence.
Qed.

Lemma spaces_ws n : forallb is_ws (spaces n) = true.
Proof. induction n; simpl; auto. Qed.

Lemma context_indent_ws text : forallb is_ws (indent (getLineContext text)) = true.
Proof. rewrite getLineContext_indent. apply take_while_all. Qed.

(** a line written by [addPrefix] that keeps its block type when it is
    classified on its own gives back the filled line as content, and the
    first one gives back the context of the unit *)
Lemma emitted_context first index line :
  let context := getLineContext first in
  filled line ->
  type (getLineContext (addPrefix context index line))
  = emittedType (type context) index ->
  content (getLineContext (addPrefix context index line)) = line
  /\ (index = 0%nat ->
      type (getLineContext (addPrefix context index line)) = type context
      /\ indent (getLineContext (addPrefix context index line)) = indent context
      /\ prefix (getLineContext (addPrefix context index line)) = prefix context).
Proof.
  intros context Hf. subst context. unfold addPrefix, emittedType.
  pose proof (context_indent_ws first) as Hi.
  destruct (type (getLineContext first)) eqn:Et.
  - destruct index as [|index]; intros Hty.
    + rewrite classify_list; auto. now apply getLineContext_list.
    + rewrite app_assoc in Hty |- *. rewrite classify_paragraph; auto.
      * split; [reflexivity | discriminate].
      * now rewrite forallb_app, Hi, spaces_ws.
  - intros _. destruct (getLineContext_quote first Et) as [Hn Hm].
    rewrite classify_quote; auto.
  - intros Hty. destruct (getLineContext_paragraph first Et) as [Hp _].
    rewrite classify_paragraph; auto.
Qed.

Lemma contents_stable first lines :
  Forall filled lines ->
  forall i,
    mapi_from (fun _ line => type (getLineContext line)) i
              (mapi_from (addPrefix (getLineContext first)) i lines)
    = mapi_from (fun index _ => emittedType (type (getLineContext first)) index) i
                (mapi_from (addPrefix (getLineContext first)) i lines) ->
    contents (mapi_from (addPrefix (getLineContext first)) i lines) = lines.
Proof.
  induction 1 as [|l lines Hl _ IH]; intros i Hst; [reflexivity|].
  cbn [mapi_from] in Hst. injection Hst as H1 H2.
  cbn [mapi_from contents map].
  destruct (emitted_context first i l Hl H1) as [-> _].
  f_equal. apply IH, H2.
Qed.

Lemma join_concat sep (segs : list (list str)) :
  Forall (fun seg => seg <> []) segs ->
  join sep (map (join sep) segs) = join sep (concat segs).
Proof.
  induction 1 as [|seg segs Hs Hr IH]; [reflexivity|].
  destruct segs as [|seg2 segs].
  - simpl. now rewrite app_nil_r.
  - cbn [map concat]. rewrite join_cons by discriminate.
    cbn [map concat] in IH. rewrite IH.
    inversion Hr; subst.
    rewrite (join_app sep seg (seg2 ++ concat segs)); auto.
    destruct seg2; [congruence | simpl; discriminate].
Qed.

Lemma mapi_from_ext {A B} (f g : nat -> A -> B) l :
  (forall i x, f i x = g i x) -> forall i, mapi_from f i l = mapi_from g i l.
Proof.
  intros H. induction l as [|x l IH]; intros i; simpl; auto.
  now rewrite H, IH.
Qed.

Lemma addPrefix_ext c1 c2 index line :
  type c1 = type c2 -> indent c1 = indent c2 -> prefix c1 = prefix c2 ->
  addPrefix c1 index line = addPrefix c2 index line
  /\ prefixLength c1 = prefixLength c2.
Proof.
  unfold addPrefix, prefixLength. now intros -> -> ->.
Qed.

Lemma getLineContext_nil : getLineContext [] = mkLineContext TParagraph [] [] [].
Proof. vm_compute. reflexivity. Qed.

Lemma good_filled eff segs :
  Forall (good eff) segs -> Forall filled (map (join [SP]) segs).
Proof.
  intros H. apply Forall_map. revert H. apply Forall_impl.
  intros seg (Hne & Hcl & _). now exists seg.
Qed.

Lemma concat_clean eff segs :
  Forall (good eff) segs -> segs <> [] ->
  Forall clean (concat segs) /\ concat segs <> []
  /\ Forall (fun seg : list str => seg <> []) segs.
Proof.
  intros H Hne. repeat split.
  - apply Forall_concat. revert H. apply Forall_impl. now intros seg (_ & Hc & _).
  - destruct H as [|seg segs (Hs & _) _]; [congruence|].
    simpl. destruct seg; [congruence | discriminate].
  - revert H. apply Forall_impl. now intros seg (Hs & _).
Qed.

(** C5, amended.  For every valid extent, [reflowLines] returns; when
    every line it returns, classified on its own, has the block type under
    which it was written (the unit's type for the first line and for
    every line of a block quote, plain paragraph for the continuation
    lines of a list item or of a paragraph), [reflowLines] applied to
    the whole of the text it produced, with the same line length, returns
    the same lines. *)
Theorem reflowLines_idempotent_on_stable_output doc s e L :
  (0 <= s)%Z -> (s <= e)%Z -> (e < lineCount doc)%Z ->
  exists out,
    reflowLines doc s e L = Done out
    /\ (stable (type (getLineContext (nth (Z.to_nat s) doc []))) out ->
        reflowLines (linesOfText out) 0 (lineCount (linesOfText out) - 1) L
        = Done out).
Proof.
  intros H0 H1 H2. eexists. split; [now apply reflowLines_unit|].
  set (first := nth (Z.to_nat s) doc []).
  set (cs := contents (unitLines doc s e)).
  destruct (reflowTexts_shape first cs L)
    as [[E _]|(segs & E & Hc & Hg & Hne & Hw & Hfill)]; rewrite E.
  - intros _. cbn [linesOfText]. unfold reflowLines. cbn [lineAt lineCount length].
    simpl. rewrite getLineContext_nil. reflexivity.
  - intros Hst. unfold stable, mapi in Hst.
    destruct (concat_clean _ segs Hg Hne) as (Hcl & Hcne & Hsne).
    pose proof (good_filled _ segs Hg) as Hfl.
    pose proof (contents_stable first _ Hfl 0%nat Hst) as Hcont.
    destruct segs as [|seg segs]; [congruence|].
    cbn [map mapi mapi_from] in *. cbn [linesOfText].
    set (o0 := addPrefix (getLineContext first) 0 (join [SP] seg)) in *.
    set (os := mapi_from (addPrefix (getLineContext first)) 1 (map (join [SP]) segs)) in *.
    rewrite reflowLines_unit; try (unfold lineCount; simpl length; lia).
    f_equal. unfold unitLines, trips, lineCount. cbn [Z.to_nat skipn nth].
    replace (Z.to_nat (Z.of_nat (length (o0 :: os)) - 1 - 0 + 1))
      with (length (o0 :: os)) by lia.
    rewrite firstn_all. unfold reflowTexts. rewrite Hcont.
    injection Hst as Hty _.
    inversion Hfl as [|? ? Hf0 _]; subst.
    destruct (emitted_context first 0 (join [SP] seg) Hf0 Hty) as [_ Hctx].
    destruct (Hctx eq_refl) as (Ht & Hi & Hp). fold o0 in Ht, Hi, Hp.
    destruct (addPrefix_ext (getLineContext o0) (getLineContext first) 0 [] Ht Hi Hp)
      as [_ Hpl].
    rewrite Hpl.
    change (join [SP] seg :: map (join [SP]) segs)
      with (map (join [SP]) (seg :: segs)).
    rewrite (join_concat [SP] (seg :: segs) Hsne).
    rewrite (trim_join_words _ Hcl Hcne), (split_join_words _ Hcl Hcne), Hfill.
    unfold mapi. cbn [map mapi_from].
    rewrite (mapi_from_ext (addPrefix (getLineContext o0))
                           (addPrefix (getLineContext first))).
    + destruct (addPrefix_ext (getLineContext o0) (getLineContext first) 0
                  (join [SP] seg) Ht Hi Hp) as [-> _]. reflexivity.
    + intros i x. now destruct (addPrefix_ext (getLineContext o0)
                                  (getLineContext first) i x Ht Hi Hp).
Qed.

(** ** The edit planner *)

Lemma bind_done {A B} (m : result A) (f : A -> result B) b :
  bind m f = Done b -> exists a, m = Done a /\ f a = Done b.
Proof. destruct m; simpl; try discriminate. intros H. now exists a. Qed.

Lemma lineAt_done doc i t :
  lineAt doc i = Done t -> (0 <= i < lineCount doc)%Z /\ t = textAt doc i.
Proof.
  unfold lineAt, textAt.
  destruct (0 <=? i)%Z eqn:E1; destruct (i <? lineCount doc)%Z eqn:E2;
    simpl; try discriminate.
  intros H; inversion H. apply Z.leb_le in E1. apply Z.ltb_lt in E2. auto.
Qed.

Lemma find_containsLine ranges i r :
  findRangeContainingLine ranges i = Some r ->
  In r ranges /\ (line (start r) <= i <= line (end_ r))%Z.
Proof.
  unfold findRangeContainingLine. intros H. apply find_some in H as [H1 H2].
  split; auto. unfold containsLine in H2. lia.
Qed.

Lemma find_containsLine_none ranges i r :
  findRangeContainingLine ranges i = None -> In r ranges ->
  ~ (line (start r) <= i <= line (end_ r))%Z.
Proof.
  unfold findRangeContainingLine. intros H Hin Hl.
  pose proof (find_none _ _ H r Hin) as Hf. unfold containsLine in Hf. lia.
Qed.

Lemma mkRange_lines a b c d :
  (line (start (mkRange a b c d)) = Z.min a c
   /\ line (end_ (mkRange a b c d)) = Z.max a c)%Z.
Proof.
  unfold mkRange, isBefore. cbn [line character].
  destruct (c <? a)%Z eqn:E1; cbn [orb].
  - cbn [start end_ line]. lia.
  - destruct (c =? a)%Z eqn:E2; cbn [andb].
    + destruct (d <? b)%Z; cbn [start end_ line]; lia.
    + cbn [start end_ line]. lia.
Qed.

Lemma mkRange_ordered a b c d :
  (a <= c)%Z ->
  line (start (mkRange a b c d)) = a /\ line (end_ (mkRange a b c d)) = c.
Proof. intros H. destruct (mkRange_lines a b c d). lia. Qed.

Lemma newRange_done a b c d r :
  newRange a b c d = Done r -> r = mkRange a b c d.
Proof.
  unfold newRange. destruct (_ || _); [discriminate|]. now intros H; inversion H.
Qed.

Lemma newRange_nonneg a b c d :
  (0 <= a)%Z -> (0 <= b)%Z -> (0 <= c)%Z -> (0 <= d)%Z ->
  newRange a b c d = Done (mkRange a b c d).
Proof.
  intros. unfold newRange.
  assert (E : ((a <? 0) || (b <? 0) || (c <? 0) || (d <? 0))%Z = false).
  { rewrite !orb_false_iff, !Z.ltb_ge. auto. }
  now rewrite E.
Qed.

Lemma len_nonneg s : (0 <= len s)%Z.
Proof. unfold len. lia. Qed.

Section PlannerFacts.

Variable OtherInfo : Type.
Variable getStartLine : document -> Z -> Z.
Variable getEndLine : document -> Z -> Z.
Variable otherInfoOf : document -> Z -> OtherInfo.
Variable getReflowedText : StartEndInfo OtherInfo -> str -> Settings -> str.

Local Notation "'skipOf'" := (shouldSkipParagraph getStartLine getEndLine).
Local Notation "'stepOf'" :=
  (planStep OtherInfo getStartLine getEndLine otherInfoOf getReflowedText).
Local Notation "'loopOf'" :=
  (planLoop OtherInfo getStartLine getEndLine otherInfoOf getReflowedText).
Local Notation "'editsOf'" :=
  (computeReflowEdits OtherInfo getStartLine getEndLine otherInfoOf getReflowedText).

(** where an emitted edit comes from: the extent resolved at the cursor
    passed the range gate and the skip policy *)
Lemma planStep_edit doc fm fenced jsx hasRange startLine endLine settings i next e :
  stepOf doc fm fenced jsx hasRange startLine endLine settings i
  = Done (Continue next (Some e)) ->
  let ls := getStartLine doc i in
  let le := getEndLine doc i in
  (0 <= i < lineCount doc)%Z
  /\ skipOf (mkParagraphSkipContext doc ls le fenced jsx fm settings) = Done false
  /\ range e = mkRange ls 0 le (len (textAt doc le))
  /\ (hasRange = true ->
      (startLine <= ls)%Z /\ (le <= endLine)%Z
      /\ (startLine <= le)%Z /\ (ls <= endLine)%Z).
Proof.
  unfold planStep. cbv zeta.
  destruct (inFrontMatter fm i); [discriminate|].
  destruct (findRangeContainingLine fenced i); [discriminate|].
  destruct (findRangeContainingLine jsx i); [discriminate|].
  intros H. apply bind_done in H as (mid & Hmid & H).
  apply lineAt_done in Hmid as [Hi _]. cbn [lineStart lineEnd] in H.
  destruct (hasRange && (getEndLine doc i <? startLine)%Z) eqn:E1; [discriminate|].
  destruct (hasRange && (getStartLine doc i >? endLine)%Z) eqn:E2; [discriminate|].
  destruct (hasRange && ((getStartLine doc i <? startLine)%Z
                         || (getEndLine doc i >? endLine)%Z)) eqn:E3; [discriminate|].
  apply bind_done in H as (skip & Hskip & H).
  destruct skip; [discriminate|].
  apply bind_done in H as (endText & Hend & H).
  apply bind_done in H as (rng & Hrng & H).
  apply lineAt_done in Hend as [_ ->]. apply newRange_done in Hrng.
  destruct (str_eqb _ _); [discriminate|]. inversion H; subst. cbn [range].
  split; [exact Hi|]. split; [exact Hskip|]. split; [reflexivity|].
  intros ->. cbn [andb] in E1, E2, E3. apply orb_false_iff in E3 as [Ea Eb].
  apply Z.ltb_ge in Ea, E1. rewrite Z.gtb_ltb in Eb, E2.
  apply Z.ltb_ge in Eb, E2. lia.
Qed.

Lemma planStep_gate doc fm fenced jsx startLine endLine settings i text :
  inFrontMatter fm i = None ->
  findRangeContainingLine fenced i = None ->
  findRangeContainingLine jsx i = None ->
  lineAt doc i = Done text ->
  let ls := getStartLine doc i in
  let le := getEndLine doc i in
  ((le < startLine)%Z ->
   stepOf doc fm fenced jsx true startLine endLine settings i
   = Done (Continue (le + 1) None))
  /\ ((startLine <= le)%Z -> (endLine < ls)%Z ->
      stepOf doc fm fenced jsx true startLine endLine settings i = Done Break)
  /\ ((startLine <= le)%Z -> (ls <= endLine)%Z ->
      (ls < startLine)%Z \/ (endLine < le)%Z ->
      stepOf doc fm fenced jsx true startLine endLine settings i
      = Done (Continue (le + 1) None)).
Proof.
  intros H1 H2 H3 H4. cbv zeta. unfold planStep. rewrite H1, H2, H3, H4.
  cbn [bind lineStart lineEnd andb]. repeat split.
  - intros H. apply Z.ltb_lt in H. now rewrite H.
  - intros Ha Hb. apply Z.ltb_ge in Ha. rewrite Ha.
    assert (E : (getStartLine doc i >? endLine)%Z = true)
      by (rewrite Z.gtb_ltb; now apply Z.ltb_lt).
    now rewrite E.
  - intros Ha Hb Hc. apply Z.ltb_ge in Ha. rewrite Ha.
    assert (E : (getStartLine doc i >? endLine)%Z = false)
      by (rewrite Z.gtb_ltb; now apply Z.ltb_ge).
    rewrite E.
    assert (E' : ((getStartLine doc i <? startLine)%Z
                  || (getEndLine doc i >? endLine)%Z) = true).
    { apply orb_true_iff. rewrite Z.gtb_ltb, !Z.ltb_lt. exact Hc. }
    now rewrite E'.
Qed.

Lemma in_pushEdit e edits o :
  In e (pushEdit edits o) -> In e edits \/ o = Some e.
Proof.
  destruct o as [x|]; simpl; auto. intros H.
  apply in_app_or in H as [H|[->|[]]]; auto.
Qed.

(** every edit the loop returns was there before or was emitted by a step *)
Lemma planLoop_edits doc fm fenced jsx hasRange startLine endLine settings fuel :
  forall i edits out,
    loopOf fuel doc fm fenced jsx hasRange startLine endLine settings i edits
    = Done out ->
    forall e, In e out ->
      In e edits
      \/ exists j next,
           stepOf doc fm fenced jsx hasRange startLine endLine settings j
           = Done (Continue next (Some e)).
Proof.
  induction fuel as [|fuel IH]; intros i edits out; cbn [planLoop].
  - destruct (i <=? endLine)%Z; [discriminate|].
    intros H; inversion H; auto.
  - destruct (i <=? endLine)%Z; [|intros H; inversion H; auto].
    intros H. apply bind_done in H as (o & Ho & H).
    destruct o as [next oe|]; [|inversion H; auto].
    intros e He. destruct (IH _ _ _ H e He) as [Hin|Hstep]; auto.
    apply in_pushEdit in Hin as [Hin| ->]; auto.
    right. now exists i, next.
Qed.

Lemma computeReflowEdits_edits fuel doc targetRange settings out :
  editsOf fuel doc targetRange settings = Done out ->
  forall e, In e out ->
    exists j next,
      let fenced := getFencedCodeBlockRanges doc in
      let '(hasRange, startLine, endLine) := boundsOf doc targetRange in
      stepOf doc (getFrontMatterRange doc) fenced
             (getJsxExpressionRanges doc fenced) hasRange startLine endLine
             settings j
      = Done (Continue next (Some e)).
Proof.
  unfold computeReflowEdits, boundsOf. cbv zeta. intros H e He.
  destruct targetRange as [t|]; destruct (getFrontMatterRange doc) as [r|];
    try (destruct (containsRange r t);
         [inversion H; subst; destruct He|]);
    (destruct (planLoop_edits _ _ _ _ _ _ _ _ _ _ _ _ H e He) as [[]|Hs];
     exact Hs).
Qed.

Lemma anyLineFrom_false p doc n :
  forall a, anyLineFrom p doc a n = Done false ->
    forall l, (a <= l < a + Z.of_nat n)%Z -> p (textAt doc l) = false.
Proof.
  induction n as [|n IH]; intros a H l Hl; [lia|].
  cbn [anyLineFrom] in H. apply bind_done in H as (t & Ht & H).
  apply lineAt_done in Ht as [_ ->].
  destruct (p (textAt doc a)) eqn:E; [discriminate|].
  destruct (Z.eq_dec l a) as [->|Hne]; auto.
  apply (IH (a + 1)%Z H). lia.
Qed.

Lemma anyLine_false p doc a b :
  anyLine p doc a b = Done false ->
  forall l, (a <= l <= b)%Z -> p (textAt doc l) = false.
Proof.
  unfold anyLine, trips. intros H l Hl.
  apply (anyLineFrom_false p doc _ a H). lia.
Qed.

Lemma anyLineFrom_total p doc n :
  forall a, (0 <= a)%Z -> (a + Z.of_nat n <= lineCount doc)%Z ->
    exists b, anyLineFrom p doc a n = Done b.
Proof.
  induction n as [|n IH]; intros a H0 H1; [now exists false|].
  cbn [anyLineFrom]. rewrite lineAt_in by lia. cbn [bind].
  destruct (p _); [now exists true|]. apply IH; lia.
Qed.

Lemma anyLine_total p doc a b :
  (0 <= a)%Z -> (a <= b)%Z -> (b < lineCount doc)%Z ->
  exists r, anyLine p doc a b = Done r.
Proof.
  intros. unfold anyLine, trips. apply anyLineFrom_total; lia.
Qed.

Lemma singleLine_false p doc a b :
  singleLine p doc a b = Done false -> a = b -> p (textAt doc a) = false.
Proof.
  unfold singleLine. intros H ->. rewrite Z.eqb_refl in H.
  apply bind_done in H as (t & Ht & H). apply lineAt_done in Ht as [_ ->].
  now inversion H.
Qed.

Lemma singleLine_total p doc a b :
  (0 <= a)%Z -> (a < lineCount doc)%Z -> exists r, singleLine p doc a b = Done r.
Proof.
  intros. unfold singleLine. destruct (a =? b)%Z; [|now exists false].
  rewrite lineAt_in by lia. cbn [bind]. eauto.
Qed.

Lemma findFrom_some p lines :
  forall i0 i, findFrom p lines i0 = Some i ->
    (i0 <= i < i0 + Z.of_nat (length lines))%Z.
Proof.
  induction lines as [|t lines IH]; intros i0 i; simpl; [discriminate|].
  destruct (p t).
  - intros H; inversion H. lia.
  - intros H. apply IH in H. lia.
Qed.

(** the front matter range lies in the document *)
Lemma getFrontMatterRange_bounds doc r :
  getFrontMatterRange doc = Some r ->
  (0 <= line (start r) <= line (end_ r))%Z /\ (line (end_ r) < lineCount doc)%Z.
Proof.
  unfold getFrontMatterRange.
  destruct (lineCount doc =? 0)%Z eqn:E0; [discriminate|].
  destruct (findFrom _ doc 0) as [first|] eqn:Ef; [|discriminate].
  apply findFrom_some in Ef. fold (lineCount doc) in Ef.
  destruct (negb _ && negb _); [discriminate|].
  destruct (findFrom _ (skipn _ doc) _) as [i|] eqn:Ec; intros H; inversion H.
  - apply findFrom_some in Ec. rewrite length_skipn in Ec.
    unfold lineCount in *.
    destruct (mkRange_ordered first 0 i (len (textAt doc i))); lia.
  - destruct (mkRange_ordered first 0 (lineCount doc - 1)
                (len (textAt doc (lineCount doc - 1)))); lia.
Qed.

Lemma shouldSkipParagraph_false ctx :
  skipOf ctx = Done false ->
  (forall l, (ctxLineStart ctx <= l <= ctxLineEnd ctx)%Z ->
             isTriggerLine (textAt (ctxDocument ctx) l) = false)
  /\ (ctxLineStart ctx = ctxLineEnd ctx ->
      lineStartsWithTripleColon (textAt (ctxDocument ctx) (ctxLineStart ctx)) = false
      /\ lineIsXmlTagOnly (textAt (ctxDocument ctx) (ctxLineStart ctx)) = false).
Proof.
  unfold shouldSkipParagraph. cbv zeta.
  destruct (overlapsFrontMatter ctx); [discriminate|].
  destruct (_ || _); [discriminate|].
  intros H.
  apply bind_done in H as ([|] & H1 & H); [discriminate|].
  apply bind_done in H as ([|] & H2 & H); [discriminate|].
  apply bind_done in H as ([|] & H3 & H); [discriminate|].
  apply bind_done in H as ([|] & H4 & H); [discriminate|].
  apply bind_done in H as ([|] & H5 & H); [discriminate|].
  apply bind_done in H as ([|] & H6 & H); [discriminate|].
  apply bind_done in H as ([|] & H7 & H); [discriminate|].
  apply bind_done in H as ([|] & H8 & H); [discriminate|].
  split.
  - intros l Hl. unfold isTriggerLine.
    rewrite (anyLine_false _ _ _ _ H1 l Hl), (anyLine_false _ _ _ _ H2 l Hl),
      (anyLine_false _ _ _ _ H3 l Hl), (anyLine_false _ _ _ _ H5 l Hl).
    pose proof (anyLine_false _ _ _ _ H4 l Hl) as Ht. cbv beta in Ht.
    now rewrite Ht.
  - intros E. split.
    + exact (singleLine_false _ _ _ _ H7 E).
    + exact (singleLine_false _ _ _ _ H8 E).
Qed.

(** *** Under the contract of the extent resolver

    The resolver belongs to [./testable]; what the planner needs from it
    is that the extent it returns for a seed line of the document lies in
    the document and contains the seed. *)

Hypothesis resolver_ok : forall doc i,
  (0 <= i < lineCount doc)%Z ->
  (0 <= getStartLine doc i <= i)%Z /\ (i <= getEndLine doc i < lineCount doc)%Z.

Lemma getFirstContentParagraphRange_total doc :
  exists r, getFirstContentParagraphRange getStartLine getEndLine doc = Done r.
Proof.
  unfold getFirstContentParagraphRange. cbv zeta.
  set (i0 := match getFrontMatterRange doc with
             | Some r => (line (end_ r) + 1)%Z | None => 0%Z end).
  assert (H0 : (0 <= i0)%Z).
  { subst i0. destruct (getFrontMatterRange doc) as [r|] eqn:E; [|lia].
    apply getFrontMatterRange_bounds in E. lia. }
  destruct (findFrom _ _ i0) as [i|] eqn:Ef; [|now exists None].
  apply findFrom_some in Ef. rewrite length_skipn in Ef.
  assert (Hi : (0 <= i < lineCount doc)%Z) by (unfold lineCount; lia).
  destruct (resolver_ok doc i Hi) as [Hs He].
  rewrite lineAt_in by lia. cbn [bind].
  rewrite newRange_nonneg; try lia; [|apply len_nonneg]. cbn [bind]. eauto.
Qed.

Lemma shouldSkipParagraph_total doc ls le fenced jsx fm settings :
  (0 <= ls)%Z -> (ls <= le)%Z -> (le < lineCount doc)%Z ->
  exists b, skipOf (mkParagraphSkipContext doc ls le fenced jsx fm settings) = Done b.
Proof.
  intros H0 H1 H2. unfold shouldSkipParagraph. cbv zeta.
  cbn [ctxDocument ctxLineStart ctxLineEnd ctxFencedRanges ctxJsxExprRanges].
  destruct (overlapsFrontMatter _); [now exists true|].
  destruct (_ || _); [now exists true|].
  destruct (anyLine_total (test ATX_HEADING_RE) doc ls le H0 H1 H2) as ([|] & E1);
    unfold paragraphHasAtxHeading; rewrite E1; cbn [bind]; [now exists true|].
  destruct (anyLine_total (test MDX_IMPORT_RE) doc ls le H0 H1 H2) as ([|] & E2);
    unfold paragraphHasMdxImport; rewrite E2; cbn [bind]; [now exists true|].
  destruct (anyLine_total (test FOOTNOTE_DEF_RE) doc ls le H0 H1 H2) as ([|] & E3);
    unfold paragraphHasFootnoteDef; rewrite E3; cbn [bind]; [now exists true|].
  destruct (anyLine_total
              (fun t => test MD_TABLE_SEPARATOR_RE t || test MD_TABLE_ROW_RE t)
              doc ls le H0 H1 H2) as ([|] & E4);
    unfold paragraphHasMarkdownTable; rewrite E4; cbn [bind]; [now exists true|].
  destruct (anyLine_total (test LIST_LINK_ONLY_RE) doc ls le H0 H1 H2) as ([|] & E5);
    unfold paragraphHasListLinkOnly; rewrite E5; cbn [bind]; [now exists true|].
  assert (E6 : exists b, overlapsFirstParagraph getStartLine getEndLine
                 (mkParagraphSkipContext doc ls le fenced jsx fm settings) = Done b).
  { unfold overlapsFirstParagraph. cbn [ctxSettings ctxDocument].
    destruct (neverReflowFirstParagraph settings); [|now exists false].
    destruct (getFirstContentParagraphRange_total doc) as (r & ->). cbn [bind].
    destruct r; eauto. }
  destruct E6 as ([|] & ->); cbn [bind]; [now exists true|].
  destruct (singleLine_total lineStartsWithTripleColon doc ls le) as ([|] & ->);
    try lia; cbn [bind]; [now exists true|].
  destruct (singleLine_total lineIsXmlTagOnly doc ls le) as ([|] & ->);
    try lia; cbn [bind]; eauto.
Qed.

Lemma inFrontMatter_some fm i r :
  inFrontMatter fm i = Some r -> (i <= line (end_ r))%Z.
Proof.
  unfold inFrontMatter. destruct fm as [r'|]; [|discriminate].
  destruct (containsLine i r') eqn:E; [|discriminate].
  intros H; inversion H; subst. unfold containsLine in E. lia.
Qed.

Lemma planStep_total doc fm fenced jsx hasRange startLine endLine settings i :
  (0 <= i < lineCount doc)%Z ->
  exists o,
    stepOf doc fm fenced jsx hasRange startLine endLine settings i = Done o.
Proof.
  intros Hi. unfold planStep.
  destruct (inFrontMatter fm i); [eauto|].
  destruct (findRangeContainingLine fenced i); [eauto|].
  destruct (findRangeContainingLine jsx i); [eauto|].
  rewrite lineAt_in by lia. cbn [bind lineStart lineEnd].
  destruct (resolver_ok doc i Hi) as [Hs He].
  destruct (hasRange && _); [eauto|].
  destruct (hasRange && _); [eauto|].
  destruct (hasRange && _); [eauto|].
  destruct (shouldSkipParagraph_total doc (getStartLine doc i) (getEndLine doc i)
              fenced jsx fm settings) as ([|] & ->); try lia; cbn [bind]; [eauto|].
  rewrite lineAt_in by lia. cbn [bind].
  rewrite newRange_nonneg; try lia; [|apply len_nonneg]. cbn [bind]. eauto.
Qed.

Lemma planStep_increases doc fm fenced jsx hasRange startLine endLine settings i next e :
  stepOf doc fm fenced jsx hasRange startLine endLine settings i
  = Done (Continue next e) ->
  (i < next)%Z.
Proof.
  unfold planStep.
  destruct (inFrontMatter fm i) as [r|] eqn:E1.
  { intros H; inversion H. apply inFrontMatter_some in E1. lia. }
  destruct (findRangeContainingLine fenced i) as [r|] eqn:E2.
  { intros H; inversion H. apply find_containsLine in E2. lia. }
  destruct (findRangeContainingLine jsx i) as [r|] eqn:E3.
  { intros H; inversion H. apply find_containsLine in E3. lia. }
  intros H. apply bind_done in H as (mid & Hmid & H).
  apply lineAt_done in Hmid as [Hi _].
  destruct (resolver_ok doc i Hi) as [Hs He].
  cbn [lineStart lineEnd] in H.
  destruct (hasRange && _); [inversion H; lia|].
  destruct (hasRange && _); [discriminate|].
  destruct (hasRange && _); [inversion H; lia|].
  apply bind_done in H as ([|] & _ & H); [inversion H; lia|].
  apply bind_done in H as (endText & _ & H).
  apply bind_done in H as (rng & _ & H). inversion H; lia.
Qed.

Lemma planLoop_total doc fm fenced jsx hasRange startLine endLine settings fuel :
  (endLine < lineCount doc)%Z ->
  forall i edits,
    (0 <= i)%Z -> (endLine - i + 1 <= Z.of_nat fuel)%Z ->
    exists out,
      loopOf fuel doc fm fenced jsx hasRange startLine endLine settings i edits
      = Done out.
Proof.
  intros Hend. induction fuel as [|fuel IH]; intros i edits H0 Hf; cbn [planLoop].
  - destruct (i <=? endLine)%Z eqn:E; [apply Z.leb_le in E; lia | eauto].
  - destruct (i <=? endLine)%Z eqn:E; [apply Z.leb_le in E | eauto].
    destruct (planStep_total doc fm fenced jsx hasRange startLine endLine settings i)
      as (o & Ho); [lia|].
    rewrite Ho. cbn [bind]. destruct o as [next oe|]; [|eauto].
    apply planStep_increases in Ho. apply IH; lia.
Qed.

Lemma computeReflowEdits_total doc targetRange settings :
  validTarget doc targetRange ->
  exists out,
    editsOf (Z.to_nat (lineCount doc)) doc targetRange settings = Done out.
Proof.
  intros Hv. unfold computeReflowEdits. cbv zeta.
  assert (Hn : Z.of_nat (Z.to_nat (lineCount doc)) = lineCount doc)
    by (unfold lineCount; lia).
  destruct targetRange as [t|]; cbn [validTarget] in Hv.
  - destruct Hv as [Hs He].
    destruct (getFrontMatterRange doc) as [r|];
      [destruct (containsRange r t); [eauto|]|];
      apply planLoop_total; auto; lia.
  - destruct (getFrontMatterRange doc) as [r|] eqn:Efm.
    + apply getFrontMatterRange_bounds in Efm.
      apply planLoop_total; lia.
    + apply planLoop_total; lia.
Qed.

(** no emitted edit covers a trigger line, and an edit of a single line
    is not on a [:::] line nor on a line that is only a tag or a comment *)
Lemma edits_pass_skip_policy fuel doc targetRange settings out :
  editsOf fuel doc targetRange settings = Done out ->
  forall e, In e out ->
    (forall l, (line (start (range e)) <= l <= line (end_ (range e)))%Z ->
               isTriggerLine (textAt doc l) = false)
    /\ (line (start (range e)) = line (end_ (range e)) ->
        lineStartsWithTripleColon (textAt doc (line (start (range e)))) = false
        /\ lineIsXmlTagOnly (textAt doc (line (start (range e)))) = false).
Proof.
  intros H e He.
  destruct (computeReflowEdits_edits _ _ _ _ _ H e He) as (j & next & Hs).
  cbv zeta in Hs. destruct (boundsOf doc targetRange) as [[hasRange startLine] endLine].
  apply planStep_edit in Hs. cbv zeta in Hs.
  destruct Hs as (Hj & Hskip & Hr & _).
  destruct (resolver_ok doc j Hj) as [Hs He'].
  destruct (mkRange_ordered (getStartLine doc j) 0 (getEndLine doc j)
              (len (textAt doc (getEndLine doc j)))) as [E1 E2]; [lia|].
  rewrite Hr, E1, E2.
  apply shouldSkipParagraph_false in Hskip.
  cbn [ctxDocument ctxLineStart ctxLineEnd] in Hskip. exact Hskip.
Qed.

(** C6, amended.  Under the contract of the extent resolver, a
    full-document planning pass returns, and none of its edits covers a
    heading line, an import line, a footnote or reference definition, a
    table row or separator, or a link-only list line with the marker [-]
    or [*] (what [LIST_LINK_ONLY_RE] accepts), nor is any edit of a
    single line on a line that starts with [:::]: a unit with one such
    trigger gets no edit. *)
Theorem full_document_pass_skips_triggers doc settings :
  exists out,
    editsOf (Z.to_nat (lineCount doc)) doc None settings = Done out
    /\ forall e, In e out ->
         (forall l, (line (start (range e)) <= l <= line (end_ (range e)))%Z ->
                    isTriggerLine (textAt doc l) = false)
         /\ (line (start (range e)) = line (end_ (range e)) ->
             lineStartsWithTripleColon (textAt doc (line (start (range e))))
             = false).
Proof.
  destruct (computeReflowEdits_total doc None settings I) as (out & Hout).
  exists out. split; auto. intros e He.
  destruct (edits_pass_skip_policy _ _ _ _ _ Hout e He) as [H1 H2].
  split; auto. intros E. now destruct (H2 E).
Qed.

(** C10.  Under the contract of the extent resolver, a pass over the
    whole document or over a requested range of it returns, and no edit
    of a single line is on a line that consists of one opening or closing
    tag or of one comment. *)
Theorem planner_skips_tag_only_lines doc targetRange settings :
  validTarget doc targetRange ->
  exists out,
    editsOf (Z.to_nat (lineCount doc)) doc targetRange settings = Done out
    /\ forall e, In e out ->
         line (start (range e)) = line (end_ (range e)) ->
         lineIsXmlTagOnly (textAt doc (line (start (range e)))) = false.
Proof.
  intros Hv. destruct (computeReflowEdits_total doc targetRange settings Hv)
    as (out & Hout).
  exists out. split; auto. intros e He E.
  now destruct (edits_pass_skip_policy _ _ _ _ _ Hout e He) as [_ [_ H2]].
Qed.

(** C9.  Under the contract of the extent resolver, the cursor strictly
    increases at every iteration of the planner's loop, whatever the
    branch taken, and the planner returns on every document and every
    requested range of it, within [lineCount] iterations. *)
Theorem planner_terminates :
  (forall doc fm fenced jsx hasRange startLine endLine settings i next e,
      stepOf doc fm fenced jsx hasRange startLine endLine settings i
      = Done (Continue next e) -> (i < next)%Z)
  /\ (forall doc targetRange settings,
         validTarget doc targetRange ->
         exists out,
           editsOf (Z.to_nat (lineCount doc)) doc targetRange settings = Done out).
Proof.
  split.
  - intros. eapply planStep_increases; eauto.
  - intros. now apply computeReflowEdits_total.
Qed.

End PlannerFacts.

(** ** The detectors *)

Lemma closedBefore_mkRange F cs i n :
  (0 <= cs <= i)%Z -> (0 <= n)%Z -> fenceFree F cs i ->
  closedBefore F (i + 1) (mkRange cs 0 i n).
Proof.
  intros H Hn Hf. unfold closedBefore.
  destruct (mkRange_ordered cs 0 i n) as [-> ->]; [lia|].
  repeat split; auto; lia.
Qed.

Lemma closedBefore_mono F i j r :
  (i <= j)%Z -> closedBefore F i r -> closedBefore F j r.
Proof. unfold closedBefore. intros H (H1 & H2 & H3). repeat split; auto; lia. Qed.

Lemma fenceFree_extend F cs i :
  fenceFree F cs (i - 1) -> findRangeContainingLine F i = None ->
  fenceFree F cs i.
Proof.
  intros H Hi l Hl. destruct (Z.eq_dec l i) as [->|Hne]; auto.
  apply H. lia.
Qed.

Lemma jsxStep_inv doc F st i text :
  (0 <= i)%Z -> jsxInv F st i -> jsxInv F (jsxStep doc F st i text) (i + 1).
Proof.
  intros Hi [Hr Hc]. unfold jsxStep.
  assert (Hr' : Forall (closedBefore F (i + 1)) (jRanges st)).
  { revert Hr. apply Forall_impl. intros r. apply closedBefore_mono. lia. }
  assert (Hpush : forall cs, currentStart st = Some cs ->
            Forall (closedBefore F (i + 1))
              (jRanges st ++ [mkRange cs 0 (i - 1) (len (textAt doc (i - 1)))])).
  { intros cs Hcs. destruct (Hc cs Hcs) as [H1 H2].
    apply Forall_app. split; auto. constructor; [|constructor].
    apply (closedBefore_mono F (i - 1 + 1)); [lia|].
    apply closedBefore_mkRange; auto; [lia | apply len_nonneg]. }
  destruct (findRangeContainingLine F i) as [fr|] eqn:Ef.
  - destruct (currentStart st) as [cs|] eqn:Ecs.
    + split; cbn [jRanges currentStart]; [now apply Hpush | discriminate].
    + split; auto. rewrite Ecs. discriminate.
  - destruct (lineInside _); destruct (currentStart st) as [cs|] eqn:Ecs;
      split; cbn [jRanges currentStart]; auto; try discriminate.
    + intros cs' H. injection H as <-. destruct (Hc cs eq_refl) as [H1 H2].
      split; [lia|]. replace (i + 1 - 1)%Z with i by lia.
      now apply fenceFree_extend.
    + intros cs' H. injection H as <-. split; [lia|].
      replace (i + 1 - 1)%Z with i by lia.
      intros l Hl. now replace l with i by lia.
Qed.

Lemma jsxScan_inv doc F lines :
  forall i st, (0 <= i)%Z -> jsxInv F st i ->
    jsxInv F (jsxScan doc F lines i st) (i + Z.of_nat (length lines)).
Proof.
  induction lines as [|text lines IH]; intros i st Hi Hinv; cbn [jsxScan length].
  - now rewrite Z.add_0_r.
  - replace (i + Z.of_nat (S (length lines)))%Z
      with (i + 1 + Z.of_nat (length lines))%Z by lia.
    apply IH; [lia|]. now apply jsxStep_inv.
Qed.

(** every bracket-expression range lies in the document and holds no
    fenced line *)
Lemma jsx_ranges_fence_free doc F r :
  In r (getJsxExpressionRanges doc F) ->
  (0 <= line (start r) <= line (end_ r))%Z /\ (line (end_ r) < lineCount doc)%Z
  /\ fenceFree F (line (start r)) (line (end_ r)).
Proof.
  unfold getJsxExpressionRanges. cbv zeta.
  assert (Hinit : jsxInv F (mkJsxState [] 0 None) 0).
  { split; [constructor | discriminate]. }
  pose proof (jsxScan_inv doc F doc 0 _ (Z.le_refl 0) Hinit) as [Hr Hc].
  cbn [Z.add] in Hr, Hc. fold (lineCount doc) in Hr, Hc.
  set (st := jsxScan doc F doc 0 (mkJsxState [] 0 None)) in *.
  rewrite Forall_forall in Hr.
  destruct (currentStart st) as [cs|] eqn:Ecs.
  - intros Hin. apply in_app_or in Hin as [Hin|[<-|[]]]; [exact (Hr r Hin)|].
    destruct (Hc cs eq_refl) as [H1 H2].
    apply (closedBefore_mono F (lineCount doc - 1 + 1)); [lia|].
    apply closedBefore_mkRange; auto; [lia | apply len_nonneg].
  - intros Hin. exact (Hr r Hin).
Qed.

Lemma fenceStep_ordered st i text :
  Forall ordered (fRanges st) -> Forall ordered (fRanges (fenceStep st i text)).
Proof.
  intros H. unfold fenceStep. destruct (negb (inBlock st)).
  - destruct (exec openRe text); auto.
  - destruct (test _ text); auto. cbn [fRanges].
    apply Forall_app. split; auto. constructor; [|constructor].
    unfold ordered.
    destruct (mkRange_lines (blockStart st) 0 i (len text)) as [-> ->]. lia.
Qed.

Lemma fenceScan_ordered lines :
  forall i st, Forall ordered (fRanges st) ->
               Forall ordered (fRanges (fenceScan lines i st)).
Proof.
  induction lines as [|text lines IH]; intros i st H; cbn [fenceScan]; auto.
  apply IH. now apply fenceStep_ordered.
Qed.

Lemma fenced_ranges_ordered doc r :
  In r (getFencedCodeBlockRanges doc) -> ordered r.
Proof.
  unfold getFencedCodeBlockRanges. cbv zeta.
  pose proof (fenceScan_ordered doc 0 (mkFenceState [] false 0 0%N 0)
                (Forall_nil _)) as H.
  rewrite Forall_forall in H.
  destruct (inBlock _); auto.
  intros Hin. apply in_app_or in Hin as [Hin|[<-|[]]]; auto.
  unfold ordered.
  match goal with |- context [mkRange ?a ?b ?c ?d] =>
    destruct (mkRange_lines a b c d) as [-> ->] end. lia.
Qed.

(** C7, amended.  For every document, no fenced-code range overlaps a
    bracket-expression range, by the overlap test of the source taken in
    either direction. *)
Theorem fenced_and_bracket_ranges_disjoint doc rf rj :
  In rf (getFencedCodeBlockRanges doc) ->
  In rj (getJsxExpressionRanges doc (getFencedCodeBlockRanges doc)) ->
  overlapsLines (line (start rj)) (line (end_ rj)) rf = false
  /\ overlapsLines (line (start rf)) (line (end_ rf)) rj = false.
Proof.
  intros Hf Hj.
  destruct (jsx_ranges_fence_free doc _ rj Hj) as (Ho & _ & Hfree).
  pose proof (fenced_ranges_ordered doc rf Hf) as Hof. unfold ordered in Hof.
  assert (Hd : (line (end_ rj) < line (start rf) \/ line (end_ rf) < line (start rj))%Z).
  { destruct (Z_lt_dec (line (end_ rj)) (line (start rf))) as [|Hn1]; auto.
    destruct (Z_lt_dec (line (end_ rf)) (line (start rj))) as [|Hn2]; auto.
    exfalso.
    set (l := Z.max (line (start rj)) (line (start rf))).
    assert (Hl : (line (start rj) <= l <= line (end_ rj))%Z) by lia.
    apply (find_containsLine_none _ l rf (Hfree l Hl) Hf). lia. }
  unfold overlapsLines. rewrite !Z.gtb_ltb.
  split; apply negb_false_iff, orb_true_iff; rewrite !Z.ltb_lt; lia.
Qed.

(** ** The requested range *)

(** C8.  On a requested range, whatever the extent resolver returns,
    every edit of the planner lies within the lines of the range; at a
    cursor outside the structural ranges, an extent that ends before the
    range is passed over without an edit, one that starts after it stops
    the pass, and one that crosses a boundary of it is passed over without
    an edit.  When the resolver keeps its contract and the range lies in
    the document, the pass returns. *)
Theorem range_pass_edits_inside_range
    (OtherInfo : Type) (getStartLine getEndLine : document -> Z -> Z)
    (otherInfoOf : document -> Z -> OtherInfo)
    (getReflowedText : StartEndInfo OtherInfo -> str -> Settings -> str)
    doc t settings :
  (forall fuel out,
      computeReflowEdits OtherInfo getStartLine getEndLine otherInfoOf
                         getReflowedText fuel doc (Some t) settings = Done out ->
      forall e, In e out ->
        (line (start t) <= line (start (range e)))%Z
        /\ (line (end_ (range e)) <= line (end_ t))%Z)
  /\ (forall fm fenced jsx i text,
         inFrontMatter fm i = None ->
         findRangeContainingLine fenced i = None ->
         findRangeContainingLine jsx i = None ->
         lineAt doc i = Done text ->
         let ls := getStartLine doc i in
         let le := getEndLine doc i in
         let step := planStep OtherInfo getStartLine getEndLine otherInfoOf
                              getReflowedText doc fm fenced jsx true
                              (line (start t)) (line (end_ t)) settings i in
         ((le < line (start t))%Z -> step = Done (Continue (le + 1) None))
         /\ ((line (start t) <= le)%Z -> (line (end_ t) < ls)%Z -> step = Done Break)
         /\ ((line (start t) <= le)%Z -> (ls <= line (end_ t))%Z ->
             (ls < line (start t))%Z \/ (line (end_ t) < le)%Z ->
             step = Done (Continue (le + 1) None)))
  /\ ((forall d i, (0 <= i < lineCount d)%Z ->
                   (0 <= getStartLine d i <= i)%Z
                   /\ (i <= getEndLine d i < lineCount d)%Z) ->
      validTarget doc (Some t) ->
      exists out,
        computeReflowEdits OtherInfo getStartLine getEndLine otherInfoOf
                           getReflowedText (Z.to_nat (lineCount doc)) doc (Some t)
                           settings = Done out).
Proof.
  split; [|split].
  - intros fuel out H e He.
    destruct (computeReflowEdits_edits _ _ _ _ _ _ _ _ _ _ H e He) as (j & next & Hs).
    cbn [boundsOf] in Hs. cbv zeta in Hs.
    apply planStep_edit in Hs. cbv zeta in Hs.
    destruct Hs as (_ & _ & Hr & Hin). specialize (Hin eq_refl).
    destruct (mkRange_lines (getStartLine doc j) 0 (getEndLine doc j)
                (len (textAt doc (getEndLine doc j)))) as [E1 E2].
    rewrite Hr, E1, E2. lia.
  - intros fm fenced jsx i text H1 H2 H3 H4.
    exact (planStep_gate OtherInfo getStartLine getEndLine otherInfoOf
             getReflowedText doc fm fenced jsx (line (start t)) (line (end_ t))
             settings i text H1 H2 H3 H4).
  - intros Hres Hv. now apply computeReflowEdits_total.
Qed.

(** ** The interactive command and the sentence setting *)

(** C2 (evidence of the defect).  The lines that [reflow] hands to the
    editor do not depend on [doubleSpaceBetweenSentences]: with the
    setting enabled, the two sentences of the sample line stay one space
    apart. *)
Theorem reflow_command_ignores_double_space :
  (forall doc lineStart lineEnd L w n,
      reflowCommandLines doc lineStart lineEnd (mkSettings L true w n)
      = reflowCommandLines doc lineStart lineEnd (mkSettings L false w n))
  /\ reflowCommandLines [str_of "Hello world. Next one."] 0 0
                        (mkSettings 80 true [] false)
     = Done [str_of "Hello world. Next one."].
Proof. split; [reflexivity | vm_compute; reflexivity]. Qed.

(** ** The sample instance keeps the resolver's contract *)

Lemma sampleBack_le doc n : (sampleBack doc n <= n)%nat.
Proof.
  induction n as [|n IH]; simpl; auto. destruct (isBlank _); lia.
Qed.

Lemma sampleForward_bounds rest :
  forall i, (i <= sampleForward rest i <= i + Z.of_nat (length rest))%Z.
Proof.
  induction rest as [|t rest IH]; intros i; cbn [sampleForward length]; [lia|].
  destruct (isBlank t); [lia|]. specialize (IH (i + 1)%Z). lia.
Qed.

Lemma sample_resolver_ok doc i :
  (0 <= i < lineCount doc)%Z ->
  (0 <= sampleStartLine doc i <= i)%Z /\ (i <= sampleEndLine doc i < lineCount doc)%Z.
Proof.
  unfold lineCount, sampleStartLine, sampleEndLine. intros Hi.
  destruct (isBlank (textAt doc i)); [lia|].
  pose proof (sampleBack_le doc (Z.to_nat i)).
  pose proof (sampleForward_bounds (skipn (S (Z.to_nat i)) doc) i) as Hf.
  rewrite length_skipn in Hf. lia.
Qed.

(** ** Concrete runs *)

(** C1, counterexample.  An unmatched brace on line 0, a fence on lines
    1 to 3: the depth is still 1 after the fence, and line 4, which holds
    no brace, is in a bracket-expression range. *)
Lemma brace_before_fence_reopens_after_fence :
  let doc := docBraceBeforeFence in
  let fenced := getFencedCodeBlockRanges doc in
  fenced = [mkRange 1 0 3 3]
  /\ jDepth (jsxScan doc fenced (firstn 4 doc) 0 (mkJsxState [] 0 None)) = 1%Z
  /\ findRangeContainingLine (getJsxExpressionRanges doc fenced) 4
     = Some (mkRange 4 0 4 5).
Proof. vm_compute. repeat split. Qed.

Lemma reflowLines_width_bound_witness :
  (0 <= 0)%Z /\ (0 <= 0)%Z /\ (0 < lineCount docItem)%Z
  /\ let context := getLineContext (nth (Z.to_nat 0) docItem []) in
     exists out,
       reflowLines docItem 0 0 20 = Done out
       /\ forall line, In line out ->
            (len line <= 20)%Z
            \/ exists index word,
                 line = addPrefix context index word
                 /\ clean word
                 /\ In word (words_of (join [SP] (contents (unitLines docItem 0 0))))
                 /\ (20 - prefixLength context < len word)%Z.
Proof.
  assert (H : (0 < lineCount docItem)%Z) by (vm_compute; reflexivity).
  split; [lia|]. split; [lia|]. split; [exact H|].
  exact (reflowLines_width_bound docItem 0 0 20 (Z.le_refl 0) (Z.le_refl 0) H).
Defined.

(** C4, counterexample.  A block quote of two lines: the raw words of
    the unit hold two marks, the raw words of the output one. *)
Lemma raw_words_not_preserved :
  exists out,
    reflowLines docQuote 0 1 80 = Done out
    /\ flat_map words_of (unitLines docQuote 0 1)
       = [str_of ">"; str_of "a"; str_of ">"; str_of "b"]
    /\ flat_map words_of out = [str_of ">"; str_of "a"; str_of "b"]
    /\ flat_map words_of out <> flat_map words_of (unitLines docQuote 0 1).
Proof.
  exists [str_of "> a b"]. split; [vm_compute; reflexivity|].
  split; [vm_compute; reflexivity|]. split; [vm_compute; reflexivity|].
  vm_compute. discriminate.
Qed.

Lemma reflowLines_preserves_content_words_witness :
  (0 <= 0)%Z /\ (0 <= 1)%Z /\ (1 < lineCount docQuote)%Z
  /\ let context := getLineContext (nth (Z.to_nat 0) docQuote []) in
     exists out,
       reflowLines docQuote 0 1 80 = Done out
       /\ flat_map words_of (map (skipn (Z.to_nat (prefixLength context))) out)
          = words_of (join [SP] (contents (unitLines docQuote 0 1))).
Proof.
  assert (H : (1 < lineCount docQuote)%Z) by (vm_compute; reflexivity).
  split; [lia|]. split; [lia|]. split; [exact H|].
  exact (reflowLines_preserves_content_words docQuote 0 1 80
           (Z.le_refl 0) (Z.le_0_1) H).
Defined.

(** C5, counterexample.  At length 20 the paragraph of [docDash] breaks
    before its dash; the second line, read again, is a list item, and the
    second pass returns the lines without the dash. *)
Lemma reflowLines_not_idempotent :
  exists out,
    reflowLines docDash 0 0 20 = Done out
    /\ out = [str_of "The total is fifteen"; str_of "- five equals ten"]
    /\ reflowLines (linesOfText out) 0 (lineCount (linesOfText out) - 1) 20
       = Done [str_of "The total is fifteen"; str_of "five equals ten"]
    /\ reflowLines (linesOfText out) 0 (lineCount (linesOfText out) - 1) 20
       <> Done out.
Proof.
  exists [str_of "The total is fifteen"; str_of "- five equals ten"].
  split; [vm_compute; reflexivity|]. split; [reflexivity|].
  split; [vm_compute; reflexivity|]. vm_compute. discriminate.
Qed.

Lemma reflowLines_idempotent_on_stable_output_witness :
  (0 <= 0)%Z /\ (0 <= 0)%Z /\ (0 < lineCount docItem)%Z
  /\ exists out,
       reflowLines docItem 0 0 20 = Done out
       /\ stable (type (getLineContext (nth (Z.to_nat 0) docItem []))) out
       /\ reflowLines (linesOfText out) 0 (lineCount (linesOfText out) - 1) 20
          = Done out.
Proof.
  assert (H : (0 < lineCount docItem)%Z) by (vm_compute; reflexivity).
  split; [lia|]. split; [lia|]. split; [exact H|].
  destruct (reflowLines_idempotent_on_stable_output docItem 0 0 20
              (Z.le_refl 0) (Z.le_refl 0) H) as (out & Hout & Hidem).
  exists out. split; [exact Hout|].
  assert (Hs : stable (type (getLineContext (nth (Z.to_nat 0) docItem []))) out).
  { assert (E : Done out = Done (map str_of ["1. The quick brown"%string;
                                   "   fox jumps over"%string;
                                   "   the lazy dog"%string]))
      by (rewrite <- Hout; vm_compute; reflexivity).
    injection E as ->. vm_compute. reflexivity. }
  split; [exact Hs | exact (Hidem Hs)].
Defined.

(** C7, counterexample.  Front matter on lines 0 to 3 that holds a brace
    pair on line 1 and a fence marker on line 2: a bracket-expression
    range and a fenced range overlap the front matter. *)
Lemma structural_ranges_overlap_front_matter :
  let doc := docFrontMatter in
  let fenced := getFencedCodeBlockRanges doc in
  getFrontMatterRange doc = Some (mkRange 0 0 3 3)
  /\ In (mkRange 2 0 5 3) fenced
  /\ In (mkRange 1 0 1 12) (getJsxExpressionRanges doc fenced)
  /\ overlapsLines 2 5 (mkRange 0 0 3 3) = true
  /\ overlapsLines 1 1 (mkRange 0 0 3 3) = true.
Proof. vm_compute. repeat split; left; reflexivity. Qed.

Lemma fenced_and_bracket_ranges_disjoint_witness :
  let rf := mkRange 4 0 7 6 in
  let rj := mkRange 0 0 2 5 in
  In rf (getFencedCodeBlockRanges docBraces)
  /\ In rj (getJsxExpressionRanges docBraces (getFencedCodeBlockRanges docBraces))
  /\ overlapsLines (line (start rj)) (line (end_ rj)) rf = false
  /\ overlapsLines (line (start rf)) (line (end_ rf)) rj = false.
Proof.
  intros rf rj.
  assert (H1 : In rf (getFencedCodeBlockRanges docBraces))
    by (vm_compute; left; reflexivity).
  assert (H2 : In rj (getJsxExpressionRanges docBraces
                        (getFencedCodeBlockRanges docBraces)))
    by (vm_compute; left; reflexivity).
  split; [exact H1|]. split; [exact H2|].
  exact (fenced_and_bracket_ranges_disjoint docBraces rf rj H1 H2).
Defined.

Lemma full_document_pass_skips_triggers_witness :
  (forall d i, (0 <= i < lineCount d)%Z ->
               (0 <= sampleStartLine d i <= i)%Z
               /\ (i <= sampleEndLine d i < lineCount d)%Z)
  /\ exists out,
       sampleEdits (Z.to_nat (lineCount docMixed)) docMixed None sampleSettings
       = Done out
       /\ forall e, In e out ->
            (forall l, (line (start (range e)) <= l <= line (end_ (range e)))%Z ->
                       isTriggerLine (textAt docMixed l) = false)
            /\ (line (start (range e)) = line (end_ (range e)) ->
                lineStartsWithTripleColon
                  (textAt docMixed (line (start (range e)))) = false).
Proof.
  split; [exact sample_resolver_ok|].
  exact (full_document_pass_skips_triggers unit sampleStartLine sampleEndLine
           sampleOtherInfo sampleReflowedText sample_resolver_ok
           docMixed sampleSettings).
Defined.

Lemma planner_skips_tag_only_lines_witness :
  let target := Some (mkRange 8 0 12 5) in
  (forall d i, (0 <= i < lineCount d)%Z ->
               (0 <= sampleStartLine d i <= i)%Z
               /\ (i <= sampleEndLine d i < lineCount d)%Z)
  /\ validTarget docMixed target
  /\ exists out,
       sampleEdits (Z.to_nat (lineCount docMixed)) docMixed target sampleSettings
       = Done out
       /\ forall e, In e out ->
            line (start (range e)) = line (end_ (range e)) ->
            lineIsXmlTagOnly (textAt docMixed (line (start (range e)))) = false.
Proof.
  intros target.
  assert (Hv : validTarget docMixed target)
    by (vm_compute; split; [discriminate | reflexivity]).
  split; [exact sample_resolver_ok|]. split; [exact Hv|].
  exact (planner_skips_tag_only_lines unit sampleStartLine sampleEndLine
           sampleOtherInfo sampleReflowedText sample_resolver_ok
           docMixed target sampleSettings Hv).
Defined.

Lemma planner_terminates_witness :
  let fenced := getFencedCodeBlockRanges docMixed in
  let jsx := getJsxExpressionRanges docMixed fenced in
  let target := Some (mkRange 2 0 3 5) in
  (forall d i, (0 <= i < lineCount d)%Z ->
               (0 <= sampleStartLine d i <= i)%Z
               /\ (i <= sampleEndLine d i < lineCount d)%Z)
  /\ planStep unit sampleStartLine sampleEndLine sampleOtherInfo
              sampleReflowedText docMixed None fenced jsx false 0 14
              sampleSettings 0
     = Done (Continue 1 None)
  /\ (0 < 1)%Z
  /\ validTarget docMixed target
  /\ exists out,
       sampleEdits (Z.to_nat (lineCount docMixed)) docMixed target sampleSettings
       = Done out.
Proof.
  intros fenced jsx target.
  assert (Hs : planStep unit sampleStartLine sampleEndLine sampleOtherInfo
                 sampleReflowedText docMixed None fenced jsx false 0 14
                 sampleSettings 0
               = Done (Continue 1 None)) by (vm_compute; reflexivity).
  assert (Hv : validTarget docMixed target)
    by (vm_compute; split; [discriminate | reflexivity]).
  split; [exact sample_resolver_ok|]. split; [exact Hs|].
  split; [exact (proj1 (planner_terminates unit sampleStartLine sampleEndLine
                          sampleOtherInfo sampleReflowedText sample_resolver_ok)
                   docMixed None fenced jsx false 0%Z 14%Z sampleSettings
                   0%Z 1%Z None Hs)|].
  split; [exact Hv|].
  exact (proj2 (planner_terminates unit sampleStartLine sampleEndLine
                  sampleOtherInfo sampleReflowedText sample_resolver_ok)
           docMixed target sampleSettings Hv).
Defined.

Lemma range_pass_edits_inside_range_witness :
  let t := mkRange 3 0 12 5 in
  let fenced := getFencedCodeBlockRanges docMixed in
  let jsx := getJsxExpressionRanges docMixed fenced in
  (exists out,
      sampleEdits 20 docMixed (Some t) sampleSettings = Done out
      /\ out <> []
      /\ forall e, In e out ->
           (line (start t) <= line (start (range e)))%Z
           /\ (line (end_ (range e)) <= line (end_ t))%Z)
  /\ (inFrontMatter None 2 = None
      /\ findRangeContainingLine fenced 2 = None
      /\ findRangeContainingLine jsx 2 = None
      /\ lineAt docMixed 2 = Done (textAt docMixed 2)
      /\ (line (start t) <= sampleEndLine docMixed 2)%Z
      /\ (sampleStartLine docMixed 2 <= line (end_ t))%Z
      /\ (sampleStartLine docMixed 2 < line (start t))%Z
      /\ planStep unit sampleStartLine sampleEndLine sampleOtherInfo
                  sampleReflowedText docMixed None fenced jsx true
                  (line (start t)) (line (end_ t)) sampleSettings 2
         = Done (Continue (sampleEndLine docMixed 2 + 1) None))
  /\ ((forall d i, (0 <= i < lineCount d)%Z ->
                   (0 <= sampleStartLine d i <= i)%Z
                   /\ (i <= sampleEndLine d i < lineCount d)%Z)
      /\ validTarget docMixed (Some t)
      /\ exists out,
           sampleEdits (Z.to_nat (lineCount docMixed)) docMixed (Some t)
                       sampleSettings = Done out).
Proof.
  intros t fenced jsx.
  pose proof (range_pass_edits_inside_range unit sampleStartLine sampleEndLine
                sampleOtherInfo sampleReflowedText docMixed t sampleSettings)
    as (Hin & Hgate & Htotal).
  split; [|split].
  - destruct (sampleEdits 20 docMixed (Some t) sampleSettings) as [out| |] eqn:E.
    + exists out. split; [reflexivity|]. split.
      * intros ->. vm_compute in E. discriminate.
      * exact (Hin 20%nat out E).
    + vm_compute in E. discriminate.
    + vm_compute in E. discriminate.
  - assert (H1 : inFrontMatter None 2 = None) by reflexivity.
    assert (H2 : findRangeContainingLine fenced 2 = None) by (vm_compute; reflexivity).
    assert (H3 : findRangeContainingLine jsx 2 = None) by (vm_compute; reflexivity).
    assert (H4 : lineAt docMixed 2 = Done (textAt docMixed 2)) by (vm_compute; reflexivity).
    assert (H5 : (line (start t) <= sampleEndLine docMixed 2)%Z)
      by (vm_compute; discriminate).
    assert (H6 : (sampleStartLine docMixed 2 <= line (end_ t))%Z)
      by (vm_compute; discriminate).
    assert (H7 : (sampleStartLine docMixed 2 < line (start t))%Z)
      by (vm_compute; reflexivity).
    repeat (split; [assumption|]).
    exact (proj2 (proj2 (Hgate None fenced jsx 2%Z (textAt docMixed 2) H1 H2 H3 H4))
             H5 H6 (or_introl H7)).
  - assert (Hv : validTarget docMixed (Some t))
      by (vm_compute; split; [discriminate | reflexivity]).
    split; [exact sample_resolver_ok|]. split; [exact Hv|].
    exact (Htotal sample_resolver_ok Hv).
Defined.


(** ** The model on sample lines and documents *)

Example classify_list_item :
  getLineContext (str_of "  12. foo bar")
  = mkLineContext TList (str_of "  ") (str_of "12.") (str_of "foo bar").
Proof. vm_compute. reflexivity. Qed.

Example classify_block_quote :
  getLineContext (str_of " >> quoted text")
  = mkLineContext TBlockquote (str_of " ") (str_of ">>") (str_of "quoted text").
Proof. vm_compute. reflexivity. Qed.

Example classify_plain_line :
  getLineContext (str_of "   12 plain words  ")
  = mkLineContext TParagraph (str_of "   ") [] (str_of "12 plain words").
Proof. vm_compute. reflexivity. Qed.

Example heading_lines :
  map (test ATX_HEADING_RE)
      [str_of "# h"; str_of "   ###"; str_of "    # h"; str_of "####### h"; str_of "#h"]
  = [true; true; false; false; false].
Proof. vm_compute. reflexivity. Qed.

Example link_only_lines :
  map (test LIST_LINK_ONLY_RE)
      [str_of "- [a b](u)"; str_of "* [a b](u). "; str_of "+ [a b](u)";
       str_of "1. [a b](u)"; str_of "- [a b](u) x"]
  = [true; true; false; false; false].
Proof. vm_compute. reflexivity. Qed.

Example tag_only_lines :
  map (lineIsXmlTagOnly)
      [str_of "<div>"; str_of "</div>"; str_of "<img src=1 />";
       str_of "<!-- note -->"; str_of "<div>x"]
  = [true; true; true; true; false].
Proof. vm_compute. reflexivity. Qed.

(** a list item: the first line carries the marker, the others a hanging
    indent of the marker's width plus one *)
Example reflow_list_item :
  reflowLines docItem 0 0 20
  = Done [str_of "1. The quick brown"; str_of "   fox jumps over"; str_of "   the lazy dog"].
Proof. vm_compute. reflexivity. Qed.

(** a block quote: every line carries the marks *)
Example reflow_block_quote :
  reflowLines [str_of "> The quick brown fox jumps"; str_of "> over the lazy dog"]
              0 1 22
  = Done [str_of "> The quick brown fox"; str_of "> jumps over the lazy"; str_of "> dog"].
Proof. vm_compute. reflexivity. Qed.

(** a word longer than the width stands alone and whole *)
Example reflow_long_word :
  reflowLines [str_of "  see https://example.com/a/very/long/path now"] 0 0 12
  = Done [str_of "  see"; str_of "  https://example.com/a/very/long/path"; str_of "  now"].
Proof. vm_compute. reflexivity. Qed.

(** the planner on [docMixed]: the heading, the fenced block, the [:::]
    line, the tag line and the link-only item stay; the paragraph and the
    item that [LIST_LINK_ONLY_RE] does not match are rewrapped *)
Example plan_mixed_document :
  match sampleEdits 20 docMixed None sampleSettings with
  | Done edits =>
      map (fun e => (line (start (range e)), line (end_ (range e)))) edits
  | _ => []
  end
  = [(2%Z, 3%Z); (12%Z, 12%Z)].
Proof. vm_compute. reflexivity. Qed.

(** * Further properties of the code *)

(** ** The greedy fill breaks only where it must *)

Lemma tight_extend_last eff w seg segs :
  seg <> [] -> tight eff (segs ++ [seg]) -> tight eff (segs ++ [seg ++ [w]]).
Proof.
  intros Hne. induction segs as [|a segs IH]; [simpl; auto|].
  destruct segs as [|b r].
  - cbn [app tight]. intros [H _]. split; [|auto].
    destruct seg; [congruence | exact H].
  - change ((a :: b :: r) ++ [seg]) with (a :: (b :: r) ++ [seg]).
    change ((a :: b :: r) ++ [seg ++ [w]]) with (a :: (b :: r) ++ [seg ++ [w]]).
    cbn [tight]. change ((b :: r) ++ [seg]) with (b :: r ++ [seg]) at 1.
    change ((b :: r) ++ [seg ++ [w]]) with (b :: r ++ [seg ++ [w]]) at 1.
    intros [H1 H2]. split; [exact H1 | exact (IH H2)].
Qed.

Lemma tight_snoc eff w seg segs :
  tight eff (segs ++ [seg]) ->
  (eff < len (join [SP] seg ++ [SP] ++ w))%Z ->
  tight eff ((segs ++ [seg]) ++ [[w]]).
Proof.
  intros H Hw. induction segs as [|a segs IH].
  - cbn [app tight hd]. auto.
  - destruct segs as [|b r].
    + cbn [app tight hd] in *. destruct H as [H1 _]. auto.
    + change (((a :: b :: r) ++ [seg]) ++ [[w]])
        with (a :: ((b :: r) ++ [seg]) ++ [[w]]).
      change ((a :: b :: r) ++ [seg]) with (a :: (b :: r) ++ [seg]) in H.
      cbn [tight] in H |- *.
      change ((b :: r) ++ [seg]) with (b :: r ++ [seg]) in H at 1.
      change (((b :: r) ++ [seg]) ++ [[w]]) with (b :: (r ++ [seg]) ++ [[w]]) at 1.
      destruct H as [H1 H2]. split; [exact H1 | exact (IH H2)].
Qed.

Lemma fold_fill_tight eff ws :
  Forall clean ws ->
  forall segs seg,
    Forall (good eff) segs -> good eff seg -> tight eff (segs ++ [seg]) ->
    exists segs' seg',
      fold_left (fillStep eff) ws (map (join [SP]) segs, join [SP] seg)
        = (map (join [SP]) segs', join [SP] seg')
      /\ Forall (good eff) segs' /\ good eff seg'
      /\ concat (segs' ++ [seg']) = concat (segs ++ [seg]) ++ ws
      /\ tight eff (segs' ++ [seg']).
Proof.
  induction 1 as [|w ws Hw Hws IH]; intros segs seg Hsegs Hseg Ht.
  - exists segs, seg. simpl. rewrite app_nil_r. auto.
  - cbn [fold_left]. pose proof Hseg as Hgood. destruct Hseg as (Hne & Hcl & Hlen).
    rewrite (fillStep_nonempty _ _ _ _ (join_clean_nonempty seg Hne Hcl)).
    destruct (len (join [SP] seg ++ [SP] ++ w) <=? eff)%Z eqn:E.
    + rewrite <- (join_snoc [SP] seg w Hne) in *.
      destruct (IH segs (seg ++ [w])) as (segs' & seg' & H1 & H2 & H3 & H4 & H5); auto.
      { repeat split.
        - destruct seg; discriminate.
        - apply Forall_app; auto.
        - right. now apply Z.leb_le. }
      { now apply tight_extend_last. }
      exists segs', seg'. repeat split; auto; try apply H3.
      rewrite H4, !concat_app. simpl. now rewrite !app_nil_r, <- !app_assoc.
    + assert (Hm : map (join [SP]) segs ++ [join [SP] seg]
                   = map (join [SP]) (segs ++ [seg])) by now rewrite map_app.
      rewrite Hm. change w with (join [SP] [w]) at 1.
      destruct (IH (segs ++ [seg]) [w]) as (segs' & seg' & H1 & H2 & H3 & H4 & H5).
      { apply Forall_app; split; auto. }
      { split; [discriminate | split; [constructor; [exact Hw | constructor] | now left]]. }
      { apply tight_snoc; auto. apply Z.leb_gt in E. exact E. }
      exists segs', seg'. repeat split; auto; try apply H3.
      rewrite H4, !concat_app. simpl. now rewrite !app_nil_r, <- !app_assoc.
Qed.

Lemma fill_tight eff ws :
  Forall clean ws ->
  exists segs, fill eff ws = map (join [SP]) segs
               /\ concat segs = ws /\ Forall (good eff) segs /\ tight eff segs.
Proof.
  intros H. destruct H as [|w ws Hw Hws].
  - exists []. simpl. auto.
  - unfold fill. simpl fold_left.
    change ([] : list str) with (map (join [SP]) []) at 1.
    change w with (join [SP] [w]) at 1.
    destruct (fold_fill_tight eff ws Hws [] [w]) as (segs' & seg' & H1 & H2 & H3 & H4 & H5).
    { constructor. }
    { split; [discriminate | split; [constructor; [exact Hw | constructor] | now left]]. }
    { simpl. auto. }
    rewrite H1, (join_clean_nonempty seg' (proj1 H3) (proj1 (proj2 H3))).
    exists (segs' ++ [seg']). rewrite map_app.
    split; [reflexivity | split; [exact H4 | split; [|exact H5]]].
    apply Forall_app; split; auto.
Qed.

Lemma reflowTexts_segments first cs L :
  exists segs,
    reflowTexts first cs L
    = mapi (addPrefix (getLineContext first)) (map (join [SP]) segs)
    /\ concat segs = words_of (join [SP] cs)
    /\ Forall (good (L - prefixLength (getLineContext first))) segs
    /\ tight (L - prefixLength (getLineContext first)) segs.
Proof.
  unfold reflowTexts.
  destruct (split_trim_words (join [SP] cs)) as [[E1 E2]|[H1 H2]].
  - exists []. rewrite E1, E2. simpl. auto.
  - destruct (fill_tight (L - prefixLength (getLineContext first)) _ H1)
      as (segs & Hf & Hc & Hg & Ht).
    exists segs. rewrite Hf, <- H2, Hc. auto.
Qed.

(** X1.  The lines of [reflowLines] are consecutive segments of the
    unit's content words, each written behind the lead with single
    spaces between its words, and every break is forced: the first word
    of a line would not have fitted at the end of the line before. *)
Theorem reflowLines_greedy doc s e L :
  (0 <= s)%Z -> (s <= e)%Z -> (e < lineCount doc)%Z ->
  let context := getLineContext (nth (Z.to_nat s) doc []) in
  exists segs,
    reflowLines doc s e L
    = Done (mapi (addPrefix context) (map (join [SP]) segs))
    /\ concat segs = words_of (join [SP] (contents (unitLines doc s e)))
    /\ Forall (fun seg => seg <> [] /\ Forall clean seg) segs
    /\ tight (L - prefixLength context) segs.
Proof.
  intros H0 H1 H2. cbv zeta.
  destruct (reflowTexts_segments (nth (Z.to_nat s) doc [])
              (contents (unitLines doc s e)) L) as (segs & E & Hc & Hg & Ht).
  exists segs. rewrite reflowLines_unit, E by assumption.
  repeat split; auto.
  revert Hg. apply Forall_impl. intros seg (Ha & Hb & _). auto.
Qed.

Lemma reflowLines_greedy_witness :
  (0 <= 0)%Z /\ (0 <= 0)%Z /\ (0 < lineCount docItem)%Z
  /\ let context := getLineContext (nth (Z.to_nat 0) docItem []) in
     exists segs,
       reflowLines docItem 0 0 20
       = Done (mapi (addPrefix context) (map (join [SP]) segs))
       /\ concat segs = words_of (join [SP] (contents (unitLines docItem 0 0)))
       /\ Forall (fun seg => seg <> [] /\ Forall clean seg) segs
       /\ tight (20 - prefixLength context) segs.
Proof.
  assert (H : (0 < lineCount docItem)%Z) by (vm_compute; reflexivity).
  split; [lia|]. split; [lia|]. split; [exact H|].
  exact (reflowLines_greedy docItem 0 0 20 (Z.le_refl 0) (Z.le_refl 0) H).
Defined.

Lemma len_join_head sep x l : (len x <= len (join sep (x :: l)))%Z.
Proof.
  destruct l as [|y l]; [simpl; lia|].
  rewrite join_cons by discriminate. rewrite !len_app. 
  pose proof (len_nonneg sep). pose proof (len_nonneg (join sep (y :: l))). lia.
Qed.

(** X2.  When the content words of the unit, joined by single spaces,
    fit the effective width, [reflowLines] returns them on one line. *)
Theorem reflowLines_joins_what_fits doc s e L :
  (0 <= s)%Z -> (s <= e)%Z -> (e < lineCount doc)%Z ->
  let context := getLineContext (nth (Z.to_nat s) doc []) in
  let words := words_of (join [SP] (contents (unitLines doc s e))) in
  words <> [] ->
  (len (join [SP] words) <= L - prefixLength context)%Z ->
  reflowLines doc s e L = Done [addPrefix context 0 (join [SP] words)].
Proof.
  intros H0 H1 H2. cbv zeta. intros Hne Hfit.
  destruct (reflowTexts_segments (nth (Z.to_nat s) doc [])
              (contents (unitLines doc s e)) L) as (segs & E & Hc & Hg & Ht).
  rewrite reflowLines_unit, E by assumption. rewrite <- Hc in *.
  destruct segs as [|a [|b r]].
  - simpl in Hne. congruence.
  - simpl. now rewrite app_nil_r.
  - exfalso. cbn [tight] in Ht. destruct Ht as [Ht _].
    inversion Hg as [|? ? (Hane & _) Hg']; subst.
    inversion Hg' as [|? ? (Hbne & _) _]; subst.
    destruct b as [|w b']; [congruence|]. cbn [hd] in Ht.
    cbn [concat] in Hfit.
    rewrite (join_app [SP] a ((w :: b') ++ concat r)) in Hfit
      by (auto; simpl; discriminate).
    rewrite !len_app in Hfit, Ht.
    pose proof (len_join_head [SP] w (b' ++ concat r)) as Hh.
    cbn [app] in Hfit. lia.
Qed.

Lemma reflowLines_joins_what_fits_witness :
  (0 <= 0)%Z /\ (0 <= 1)%Z /\ (1 < lineCount docQuote)%Z
  /\ words_of (join [SP] (contents (unitLines docQuote 0 1))) <> []
  /\ (len (join [SP] (words_of (join [SP] (contents (unitLines docQuote 0 1))))) 
      <= 80 - prefixLength (getLineContext (nth (Z.to_nat 0) docQuote [])))%Z
  /\ reflowLines docQuote 0 1 80
     = Done [addPrefix (getLineContext (nth (Z.to_nat 0) docQuote [])) 0
               (join [SP] (words_of (join [SP] (contents (unitLines docQuote 0 1)))))].
Proof.
  assert (H : (1 < lineCount docQuote)%Z) by (vm_compute; reflexivity).
  assert (Hne : words_of (join [SP] (contents (unitLines docQuote 0 1))) <> [])
    by (vm_compute; discriminate).
  assert (Hfit : (len (join [SP] (words_of (join [SP] (contents (unitLines docQuote 0 1)))))
                  <= 80 - prefixLength (getLineContext (nth (Z.to_nat 0) docQuote [])))%Z)
    by (vm_compute; discriminate).
  split; [lia|]. split; [lia|]. split; [exact H|]. split; [exact Hne|].
  split; [exact Hfit|].
  exact (reflowLines_joins_what_fits docQuote 0 1 80 (Z.le_refl 0) Z.le_0_1 H Hne Hfit).
Defined.

(** X3.  [reflowLines] returns no line at all exactly when the unit has
    no content word: a unit of blank lines or of bare markers is replaced
    by the empty text. *)
Theorem reflowLines_empty_iff_no_word doc s e L :
  (0 <= s)%Z -> (s <= e)%Z -> (e < lineCount doc)%Z ->
  exists out,
    reflowLines doc s e L = Done out
    /\ (out = [] <-> words_of (join [SP] (contents (unitLines doc s e))) = []).
Proof.
  intros H0 H1 H2.
  destruct (reflowTexts_segments (nth (Z.to_nat s) doc [])
              (contents (unitLines doc s e)) L) as (segs & E & Hc & Hg & _).
  eexists. split; [now apply reflowLines_unit|]. rewrite E, <- Hc.
  destruct segs as [|a r]; [simpl; tauto|].
  inversion Hg as [|? ? (Hane & _) _]; subst.
  split; [discriminate|]. destruct a; [congruence | discriminate].
Qed.

Lemma reflowLines_empty_iff_no_word_witness :
  (0 <= 0)%Z /\ (0 <= 0)%Z /\ (0 < lineCount [str_of "- "])%Z
  /\ exists out,
       reflowLines [str_of "- "] 0 0 80 = Done out
       /\ (out = []
           <-> words_of (join [SP] (contents (unitLines [str_of "- "] 0 0))) = []).
Proof.
  assert (H : (0 < lineCount [str_of "- "])%Z) by (vm_compute; reflexivity).
  split; [lia|]. split; [lia|]. split; [exact H|].
  exact (reflowLines_empty_iff_no_word [str_of "- "] 0 0 80
           (Z.le_refl 0) (Z.le_refl 0) H).
Defined.

(** ** The classifier loses nothing but white space *)

Lemma trim_decomposes text :
  exists tail,
    text = take_while is_ws text ++ trim text ++ tail
    /\ forallb is_ws tail = true.
Proof.
  unfold trim. set (u := drop_while is_ws text).
  exists (rev (take_while is_ws (rev u))). split.
  - rewrite <- rev_app_distr, take_drop_while, rev_involutive.
    subst u. symmetry. apply take_drop_while.
  - apply forallb_rev, take_while_all.
Qed.

Lemma nonempty_take_while p s :
  (1 <= length (take_while p s))%nat -> take_while p s <> [].
Proof. destruct (take_while p s); simpl; [lia | discriminate]. Qed.

(** X4.  [getLineContext] cuts a line into indent, marker, gap and
    content and drops nothing but white space: the line is the four
    pieces in that order, followed for a paragraph by the white space
    that [trim] removed.  The indent and the gap are white space, the
    content does not start with white space; a list marker is followed by
    at least one white space character. *)
Theorem getLineContext_decomposes text :
  let c := getLineContext text in
  exists gap tail,
    text = indent c ++ prefix c ++ gap ++ content c ++ tail
    /\ forallb is_ws (indent c) = true
    /\ forallb is_ws gap = true
    /\ forallb is_ws tail = true
    /\ heads_ok (content c)
    /\ match type c with
       | TList => isToken (prefix c) /\ gap <> [] /\ tail = []
       | TBlockquote =>
           nonempty (prefix c) = true
           /\ forallb (is_chr ">") (prefix c) = true /\ tail = []
       | TParagraph => prefix c = [] /\ gap = [] /\ last_ws (content c) = false
       end.
Proof.
  cbv zeta. rewrite getLineContext_direct.
  pose proof (take_drop_while is_ws text) as Ht.
  destruct (list_direct text) as [m|] eqn:El.
  - unfold list_direct in El.
    apply token_direct_groups in El as (tok & r & Er & Htok & El).
    apply ws_tail_groups in El as (-> & Hlo & _).
    cbn [type indent prefix content group Nat.eqb].
    exists (take_while is_ws r), []. rewrite app_nil_r, take_drop_while, <- Er.
    split; [first [reflexivity | symmetry; exact Ht]|].
    repeat split; auto using take_while_all.
    + apply drop_while_head.
    + now apply nonempty_take_while.
  - destruct (quote_direct text) as [m|] eqn:Eq.
    + unfold quote_direct, marks_direct in Eq.
      destruct (nonempty (take_while (is_chr ">") (drop_while is_ws text))) eqn:En;
        [|discriminate].
      apply ws_tail_groups in Eq as (-> & _ & _).
      cbn [type indent prefix content group Nat.eqb].
      exists (take_while is_ws (drop_while (is_chr ">") (drop_while is_ws text))), [].
      rewrite app_nil_r, !take_drop_while.
      split; [first [reflexivity | symmetry; exact Ht]|].
      repeat split; auto using take_while_all.
      apply drop_while_head.
    + cbn [type indent prefix content].
      destruct (trim_decomposes text) as (tail & E & Hw).
      exists [], tail. cbn [app].
      repeat split; auto using take_while_all, trim_last_ok.
      apply trim_heads_ok.
Qed.

(** ** The engine sees only the first line's lead and the words *)

Lemma split_go_not_nil b s : split_go b s <> [].
Proof.
  revert b. induction s as [|c s IH]; intros b; simpl; [discriminate|].
  destruct (is_ws c).
  - destruct b; [apply IH | discriminate].
  - destruct (split_go false s); discriminate.
Qed.

Lemma split_trim_of_words t1 t2 :
  words_of t1 = words_of t2 -> split_ws (trim t1) = split_ws (trim t2).
Proof.
  intros E.
  destruct (split_trim_words t1) as [[E1 W1]|[_ H1]];
    destruct (split_trim_words t2) as [[E2 W2]|[_ H2]].
  - now rewrite E1, E2.
  - exfalso. rewrite <- E, W1 in H2. exact (split_go_not_nil _ _ H2).
  - exfalso. rewrite E, W2 in H1. exact (split_go_not_nil _ _ H1).
  - now rewrite H1, H2.
Qed.

(** X5.  The result of [reflowLines] depends on the unit only through
    the block type, indent and marker of its first line and through the
    sequence of its content words: where the lines were broken and how
    much white space separated the words makes no difference. *)
Theorem reflowLines_depends_on_words doc1 s1 e1 doc2 s2 e2 L :
  (0 <= s1)%Z -> (s1 <= e1)%Z -> (e1 < lineCount doc1)%Z ->
  (0 <= s2)%Z -> (s2 <= e2)%Z -> (e2 < lineCount doc2)%Z ->
  let c1 := getLineContext (nth (Z.to_nat s1) doc1 []) in
  let c2 := getLineContext (nth (Z.to_nat s2) doc2 []) in
  type c1 = type c2 -> indent c1 = indent c2 -> prefix c1 = prefix c2 ->
  words_of (join [SP] (contents (unitLines doc1 s1 e1)))
  = words_of (join [SP] (contents (unitLines doc2 s2 e2))) ->
  reflowLines doc1 s1 e1 L = reflowLines doc2 s2 e2 L.
Proof.
  intros A1 A2 A3 B1 B2 B3. cbv zeta. intros Ht Hi Hp Hw.
  rewrite !reflowLines_unit by assumption. f_equal. unfold reflowTexts.
  rewrite (split_trim_of_words _ _ Hw).
  destruct (addPrefix_ext _ _ 0 [] Ht Hi Hp) as [_ ->].
  unfold mapi. apply mapi_from_ext. intros i x.
  now destruct (addPrefix_ext _ _ i x Ht Hi Hp).
Qed.

Lemma reflowLines_depends_on_words_witness :
  let doc1 := [str_of "- a   b"; str_of "  c"] in
  let doc2 := [str_of "x"; str_of "- a"; str_of "b c  "] in
  (0 <= 0)%Z /\ (0 <= 1)%Z /\ (1 < lineCount doc1)%Z
  /\ (0 <= 1)%Z /\ (1 <= 2)%Z /\ (2 < lineCount doc2)%Z
  /\ words_of (join [SP] (contents (unitLines doc1 0 1)))
     = words_of (join [SP] (contents (unitLines doc2 1 2)))
  /\ reflowLines doc1 0 1 5 = reflowLines doc2 1 2 5.
Proof.
  intros doc1 doc2.
  assert (A3 : (1 < lineCount doc1)%Z) by (vm_compute; reflexivity).
  assert (B3 : (2 < lineCount doc2)%Z) by (vm_compute; reflexivity).
  assert (Hw : words_of (join [SP] (contents (unitLines doc1 0 1)))
               = words_of (join [SP] (contents (unitLines doc2 1 2))))
    by (vm_compute; reflexivity).
  assert (B2 : (1 <= 2)%Z) by lia.
  repeat (split; [first [lia | assumption]|]).
  exact (reflowLines_depends_on_words doc1 0 1 doc2 1 2 5
           (Z.le_refl 0) Z.le_0_1 A3 Z.le_0_1 B2 B3
           eq_refl eq_refl eq_refl Hw).
Defined.

(** ** When [reflowLines] throws *)

Lemma collectFrom_thrown doc n :
  forall s, (0 <= s <= lineCount doc)%Z -> (lineCount doc < s + Z.of_nat n)%Z ->
    collectFrom doc s n = Thrown.
Proof.
  induction n as [|n IH]; intros s H0 H1; [lia|].
  cbn [collectFrom].
  destruct (Z.lt_ge_cases s (lineCount doc)) as [Hin|Hout].
  - rewrite lineAt_in by lia. cbn [bind]. rewrite IH by lia. reflexivity.
  - rewrite lineAt_out by lia. reflexivity.
Qed.

(** X6.  [reflowLines] throws exactly when its first line or one of the
    lines up to the end line is not a line of the document; an extent
    whose end line lies before its start line gives no line at all. *)
Theorem reflowLines_throws_outside_document doc s e L :
  (reflowLines doc s e L = Thrown
   <-> ~ ((0 <= s < lineCount doc)%Z /\ (e < lineCount doc)%Z))
  /\ ((0 <= s < lineCount doc)%Z -> (e < s)%Z -> reflowLines doc s e L = Done []).
Proof.
  split; [split|].
  - intros H [Hs He].
    destruct (Z.le_gt_cases s e) as [Hle|Hgt].
    + rewrite reflowLines_unit in H by lia. discriminate.
    + unfold reflowLines in H. rewrite lineAt_in in H by lia.
      unfold trips in H. replace (Z.to_nat (e - s + 1)) with 0%nat in H by lia.
      discriminate.
  - intros H. unfold reflowLines.
    destruct (Z.le_gt_cases 0 s) as [H0|H0]; [|now rewrite lineAt_out by lia].
    destruct (Z.lt_ge_cases s (lineCount doc)) as [H1|H1];
      [|now rewrite lineAt_out by lia].
    rewrite lineAt_in by lia. cbn [bind].
    rewrite collectFrom_thrown; [reflexivity | lia | unfold trips; lia].
  - intros Hs He. unfold reflowLines. rewrite lineAt_in by lia.
    unfold trips. replace (Z.to_nat (e - s + 1)) with 0%nat by lia.
    reflexivity.
Qed.

(** ** Chains of ranges *)

Lemma chain_snoc gap lo rs r :
  chain gap lo (rs ++ [r])
  <-> chain gap lo rs /\ (chainEnd gap lo rs <= line (start r))%Z
      /\ (line (start r) <= line (end_ r))%Z.
Proof.
  unfold chainEnd. revert lo. induction rs as [|x rs IH]; intros lo; cbn [app chain fold_left].
  - tauto.
  - rewrite IH. tauto.
Qed.

Lemma chainEnd_snoc gap lo rs r :
  chainEnd gap lo (rs ++ [r]) = (line (end_ r) + gap)%Z.
Proof. unfold chainEnd. now rewrite fold_left_app. Qed.

Lemma chain_lower gap lo rs :
  (0 <= gap)%Z -> chain gap lo rs ->
  forall j r, nth_error rs j = Some r -> (lo <= line (start r))%Z.
Proof.
  intros Hg. revert lo. induction rs as [|x rs IH]; intros lo H j r Hj.
  - destruct j; discriminate.
  - destruct H as (H1 & H2 & H3). destruct j as [|j].
    + injection Hj as <-. exact H1.
    + specialize (IH _ H3 j r Hj). lia.
Qed.

Lemma chain_separated gap lo rs :
  (0 <= gap)%Z -> chain gap lo rs -> separated gap rs.
Proof.
  intros Hg. revert lo. induction rs as [|x rs IH]; intros lo H i j r1 r2 Hij H1 H2.
  - destruct i; discriminate.
  - destruct H as (Ha & Hb & Hc). destruct j as [|j]; [lia|].
    destruct i as [|i].
    + injection H1 as <-. exact (chain_lower _ _ _ Hg Hc j r2 H2).
    + apply (IH _ Hc i j r1 r2); auto. lia.
Qed.

Lemma chain_ordered gap lo rs :
  chain gap lo rs -> Forall ordered rs.
Proof.
  revert lo. induction rs as [|x rs IH]; intros lo H; constructor.
  - apply H.
  - apply (IH _ (proj2 (proj2 H))).
Qed.

Lemma chain_bounds gap lo rs :
  (0 <= gap)%Z -> chain gap lo rs ->
  (lo <= chainEnd gap lo rs)%Z
  /\ Forall (fun r => (lo <= line (start r))%Z
                      /\ (line (end_ r) + gap <= chainEnd gap lo rs)%Z) rs.
Proof.
  intros Hg. unfold chainEnd. revert lo.
  induction rs as [|x rs IH]; intros lo H; cbn [fold_left].
  - split; [lia | constructor].
  - destruct H as (Ha & Hb & Hc). destruct (IH _ Hc) as [H1 H2]. split; [lia|].
    constructor; [lia|]. revert H2. apply Forall_impl. intros r. lia.
Qed.

(** ** Overlap and containment of lines *)

Lemma overlapsLines_false a b r l :
  overlapsLines a b r = false -> (a <= l <= b)%Z -> containsLine l r = false.
Proof.
  unfold overlapsLines, containsLine. intros H Hl.
  apply negb_false_iff, orb_true_iff in H. rewrite Z.gtb_ltb, !Z.ltb_lt in H.
  destruct (l >=? line (start r))%Z eqn:E1; [|reflexivity].
  destruct (l <=? line (end_ r))%Z eqn:E2; [|reflexivity]. lia.
Qed.

Lemma rangeOverlapsAny_false a b rs :
  rangeOverlapsAny a b rs = false ->
  forall l, (a <= l <= b)%Z -> findRangeContainingLine rs l = None.
Proof.
  unfold rangeOverlapsAny, findRangeContainingLine. intros H l Hl.
  induction rs as [|r rs IH]; [reflexivity|].
  cbn [existsb find] in *. apply orb_false_iff in H as [H1 H2].
  rewrite (overlapsLines_false _ _ _ _ H1 Hl). auto.
Qed.

(** X7.  For an extent [a <= b] and ranges whose start line is not
    after their end line, [rangeOverlapsAny] answers whether some line
    of the extent is found in a range by [findRangeContainingLine]. *)
Theorem rangeOverlapsAny_iff_some_line_contained a b rs :
  (a <= b)%Z -> Forall ordered rs ->
  (rangeOverlapsAny a b rs = true
   <-> exists l, (a <= l <= b)%Z /\ findRangeContainingLine rs l <> None).
Proof.
  intros Hab Hord. split.
  - intros H. destruct (rangeOverlapsAny a b rs) eqn:E; [|discriminate].
    unfold rangeOverlapsAny in E. apply existsb_exists in E as (r & Hin & Ho).
    rewrite Forall_forall in Hord. specialize (Hord r Hin). unfold ordered in Hord.
    unfold overlapsLines in Ho. apply negb_true_iff, orb_false_iff in Ho as [H1 H2].
    rewrite Z.gtb_ltb in H2. apply Z.ltb_ge in H1, H2.
    exists (Z.max a (line (start r))). split; [lia|].
    intros Hn. apply (find_containsLine_none _ _ r Hn Hin). lia.
  - intros (l & Hl & Hf).
    destruct (rangeOverlapsAny a b rs) eqn:E; [reflexivity|].
    exfalso. apply Hf. exact (rangeOverlapsAny_false _ _ _ E l Hl).
Qed.

Lemma rangeOverlapsAny_iff_some_line_contained_witness :
  let rs := getFencedCodeBlockRanges docMixed in
  (2 <= 6)%Z /\ Forall ordered rs
  /\ (rangeOverlapsAny 2 6 rs = true
      <-> exists l, (2 <= l <= 6)%Z /\ findRangeContainingLine rs l <> None).
Proof.
  intros rs.
  assert (H1 : (2 <= 6)%Z) by lia.
  assert (H2 : Forall ordered rs).
  { vm_compute. constructor; [discriminate | constructor]. }
  split; [exact H1|]. split; [exact H2|].
  exact (rangeOverlapsAny_iff_some_line_contained 2 6 rs H1 H2).
Defined.

(** ** More on the skip policy and the planner *)

Lemma firstn_snoc_nth {A} (d : A) (l : list A) k :
  (k < length l)%nat -> firstn (S k) l = firstn k l ++ [nth k l d].
Proof.
  revert k. induction l as [|x l IH]; intros k Hk; simpl in Hk; [lia|].
  destruct k; [reflexivity|]. cbn [firstn nth app]. f_equal. apply IH. lia.
Qed.

Lemma nth_skipn {A} (d : A) (l : list A) n k :
  nth k (skipn n l) d = nth (n + k) l d.
Proof.
  revert l. induction n as [|n IH]; intros l; [reflexivity|].
  destruct l; [now destruct k | apply IH].
Qed.

(** the text of a range of whole lines is the lines joined by LF *)
Lemma getText_whole_lines doc ls le :
  (0 <= ls)%Z -> (ls <= le)%Z -> (le < lineCount doc)%Z ->
  getText doc (mkRange ls 0 le (len (textAt doc le)))
  = join [LF] (unitLines doc ls le).
Proof.
  intros H0 H1 H2. unfold mkRange, isBefore. cbn [line character].
  pose proof (len_nonneg (textAt doc le)) as Hl.
  assert (E : ((le <? ls)%Z
               || ((le =? ls)%Z && (len (textAt doc le) <? 0)%Z)) = false).
  { apply orb_false_iff. split; [now apply Z.ltb_ge|].
    apply andb_false_iff. right. now apply Z.ltb_ge. }
  rewrite E. unfold getText. cbn [start end_ line character].
  unfold unitLines, trips. unfold lineCount in H2.
  destruct (ls =? le)%Z eqn:El.
  - apply Z.eqb_eq in El. subst le.
    replace (Z.to_nat (ls - ls + 1)) with 1%nat by lia.
    rewrite (@skipn_nth str [] doc (Z.to_nat ls)) by lia.
    cbn [firstn join Z.to_nat skipn]. unfold textAt, len.
    rewrite Nat2Z.id, Nat.sub_0_r. apply firstn_all.
  - apply Z.eqb_neq in El.
    replace (Z.to_nat (le - ls + 1)) with (S (S (Z.to_nat (le - ls - 1)))) by lia.
    rewrite (@skipn_nth str [] doc (Z.to_nat ls)) by lia.
    cbn [Z.to_nat skipn]. unfold len. rewrite Nat2Z.id, firstn_all.
    change (firstn (S (S ?n)) (?x :: ?l)) with (x :: firstn (S n) l).
    rewrite (firstn_snoc_nth [] (skipn (S (Z.to_nat ls)) doc))
      by (rewrite length_skipn; lia).
    rewrite nth_skipn. unfold textAt.
    replace (S (Z.to_nat ls) + Z.to_nat (le - ls - 1))%nat with (Z.to_nat le) by lia.
    reflexivity.
Qed.

Lemma str_eqb_false a b : str_eqb a b = false -> a <> b.
Proof. unfold str_eqb. now destruct (list_eq_dec N.eq_dec a b). Qed.

Section PlannerMore.

Variable OtherInfo : Type.
Variable getStartLine : document -> Z -> Z.
Variable getEndLine : document -> Z -> Z.
Variable otherInfoOf : document -> Z -> OtherInfo.
Variable getReflowedText : StartEndInfo OtherInfo -> str -> Settings -> str.

Local Notation "'skipOf'" := (shouldSkipParagraph getStartLine getEndLine).
Local Notation "'firstOf'" := (getFirstContentParagraphRange getStartLine getEndLine).
Local Notation "'stepOf'" :=
  (planStep OtherInfo getStartLine getEndLine otherInfoOf getReflowedText).
Local Notation "'loopOf'" :=
  (planLoop OtherInfo getStartLine getEndLine otherInfoOf getReflowedText).
Local Notation "'editsOf'" :=
  (computeReflowEdits OtherInfo getStartLine getEndLine otherInfoOf getReflowedText).

(** what the skip policy has checked about the zones when it lets an
    extent through *)
Lemma shouldSkipParagraph_false_zones ctx :
  skipOf ctx = Done false ->
  overlapsFrontMatter ctx = false
  /\ rangeOverlapsAny (ctxLineStart ctx) (ctxLineEnd ctx) (ctxFencedRanges ctx) = false
  /\ rangeOverlapsAny (ctxLineStart ctx) (ctxLineEnd ctx) (ctxJsxExprRanges ctx) = false
  /\ overlapsFirstParagraph getStartLine getEndLine ctx = Done false.
Proof.
  unfold shouldSkipParagraph. cbv zeta.
  destruct (overlapsFrontMatter ctx); [discriminate|].
  destruct (rangeOverlapsAny _ _ (ctxFencedRanges ctx)); [discriminate|].
  destruct (rangeOverlapsAny _ _ (ctxJsxExprRanges ctx)); [discriminate|].
  cbn [orb]. intros H.
  apply bind_done in H as ([|] & H1 & H); [discriminate|].
  apply bind_done in H as ([|] & H2 & H); [discriminate|].
  apply bind_done in H as ([|] & H3 & H); [discriminate|].
  apply bind_done in H as ([|] & H4 & H); [discriminate|].
  apply bind_done in H as ([|] & H5 & H); [discriminate|].
  apply bind_done in H as ([|] & H6 & H); [discriminate|].
  auto.
Qed.

(** the new text of an emitted edit *)
Lemma planStep_edit_text doc fm fenced jsx hasRange startLine endLine settings i next e :
  stepOf doc fm fenced jsx hasRange startLine endLine settings i
  = Done (Continue next (Some e)) ->
  let sei := mkStartEndInfo OtherInfo (getStartLine doc i) (getEndLine doc i)
                            (otherInfoOf doc i) in
  next = (getEndLine doc i + 1)%Z
  /\ newText e = getReflowedText sei (getText doc (range e)) settings
  /\ newText e <> getText doc (range e).
Proof.
  unfold planStep. cbv zeta.
  destruct (inFrontMatter fm i); [discriminate|].
  destruct (findRangeContainingLine fenced i); [discriminate|].
  destruct (findRangeContainingLine jsx i); [discriminate|].
  intros H. apply bind_done in H as (mid & _ & H). cbn [lineStart lineEnd] in H.
  destruct (hasRange && _); [discriminate|].
  destruct (hasRange && _); [discriminate|].
  destruct (hasRange && _); [discriminate|].
  apply bind_done in H as (skip & _ & H). destruct skip; [discriminate|].
  apply bind_done in H as (endText & _ & H).
  apply bind_done in H as (rng & _ & H).
  destruct (str_eqb _ _) eqn:E; [discriminate|]. apply str_eqb_false in E.
  inversion H; subst. cbn [range newText]. auto.
Qed.

(** a step that emits nothing when the cursor is in a zone *)
Lemma planStep_zone doc fenced jsx hasRange startLine endLine settings i :
  inZone doc i = true ->
  fenced = getFencedCodeBlockRanges doc ->
  jsx = getJsxExpressionRanges doc fenced ->
  exists next,
    stepOf doc (getFrontMatterRange doc) fenced jsx hasRange startLine endLine
           settings i = Done (Continue next None)
    /\ (i < next)%Z.
Proof.
  intros H -> ->. revert H. unfold inZone, planStep. cbv zeta.
  destruct (inFrontMatter (getFrontMatterRange doc) i) as [r|] eqn:E1.
  { intros _. eexists. split; [reflexivity|]. apply inFrontMatter_some in E1. lia. }
  destruct (findRangeContainingLine (getFencedCodeBlockRanges doc) i) as [r|] eqn:E2.
  { intros _. eexists. split; [reflexivity|]. apply find_containsLine in E2. lia. }
  destruct (findRangeContainingLine
              (getJsxExpressionRanges doc (getFencedCodeBlockRanges doc)) i)
    as [r|] eqn:E3; [|intros H; discriminate H].
  intros _. eexists. split; [reflexivity|]. apply find_containsLine in E3. lia.
Qed.

Lemma planLoop_zone doc fenced jsx hasRange startLine endLine settings fuel :
  fenced = getFencedCodeBlockRanges doc ->
  jsx = getJsxExpressionRanges doc fenced ->
  forall i edits,
    (forall l, (i <= l <= endLine)%Z -> inZone doc l = true) ->
    (endLine - i + 1 <= Z.of_nat fuel)%Z ->
    loopOf fuel doc (getFrontMatterRange doc) fenced jsx hasRange startLine endLine
           settings i edits = Done edits.
Proof.
  intros Hf Hj. induction fuel as [|fuel IH]; intros i edits Hz Hfuel; cbn [planLoop].
  - destruct (i <=? endLine)%Z eqn:E; [apply Z.leb_le in E; lia | reflexivity].
  - destruct (i <=? endLine)%Z eqn:E; [apply Z.leb_le in E | reflexivity].
    destruct (planStep_zone doc fenced jsx hasRange startLine endLine settings i)
      as (next & -> & Hn); auto; [apply Hz; lia|].
    cbn [bind pushEdit]. apply IH; [|lia]. intros l Hl. apply Hz. lia.
Qed.

(** X8.  A request all of whose lines lie in the front matter, in
    fenced code blocks or in bracket-expression ranges gives no edit;
    the extent resolver is not consulted. *)
Theorem request_inside_zones_gives_no_edit doc targetRange settings :
  validTarget doc targetRange ->
  (forall l,
      (match targetRange with Some r => line (start r) | None => 0 end <= l
       <= match targetRange with
          | Some r => line (end_ r) | None => lineCount doc - 1 end)%Z ->
      inZone doc l = true) ->
  editsOf (Z.to_nat (lineCount doc)) doc targetRange settings = Done [].
Proof.
  intros Hv Hz. unfold computeReflowEdits. cbv zeta.
  assert (Hn : Z.of_nat (Z.to_nat (lineCount doc)) = lineCount doc)
    by (unfold lineCount; lia).
  destruct targetRange as [t|]; cbn [validTarget] in Hv.
  - destruct (getFrontMatterRange doc) as [r|] eqn:Efm;
      [destruct (containsRange r t); [reflexivity|]|];
      rewrite <- Efm; apply planLoop_zone; auto; lia.
  - destruct (getFrontMatterRange doc) as [r|] eqn:Efm.
    + pose proof (getFrontMatterRange_bounds _ _ Efm) as Hb.
      rewrite <- Efm. apply planLoop_zone; auto; [|lia].
      intros l Hl. apply Hz. lia.
    + rewrite <- Efm. apply planLoop_zone; auto; lia.
Qed.


(** the first match of [findFrom] *)
Lemma findFrom_first p lines :
  forall i0 i, findFrom p lines i0 = Some i ->
    p (nth (Z.to_nat (i - i0)) lines []) = true
    /\ forall l, (i0 <= l < i)%Z -> p (nth (Z.to_nat (l - i0)) lines []) = false.
Proof.
  induction lines as [|t lines IH]; intros i0 i; cbn [findFrom]; [discriminate|].
  destruct (p t) eqn:E.
  - intros H; inversion H; subst. rewrite Z.sub_diag. split; [exact E | lia].
  - intros H. pose proof (findFrom_some _ _ _ _ H) as Hb.
    destruct (IH _ _ H) as [H1 H2]. split.
    + replace (Z.to_nat (i - i0)) with (S (Z.to_nat (i - (i0 + 1)))) by lia.
      exact H1.
    + intros l Hl. destruct (Z.eq_dec l i0) as [->|Hne].
      * now rewrite Z.sub_diag.
      * replace (Z.to_nat (l - i0)) with (S (Z.to_nat (l - (i0 + 1)))) by lia.
        apply H2. lia.
Qed.

Lemma findFrom_none p lines :
  forall i0, findFrom p lines i0 = None ->
    forall k, (k < length lines)%nat -> p (nth k lines []) = false.
Proof.
  induction lines as [|t lines IH]; intros i0; cbn [findFrom length]; [lia|].
  destruct (p t) eqn:E; [discriminate|]. intros H [|k] Hk; [exact E|].
  apply (IH _ H). lia.
Qed.

Lemma findFrom_skipn_spec p doc i0 :
  (0 <= i0)%Z ->
  match findFrom p (skipn (Z.to_nat i0) doc) i0 with
  | Some i =>
      (i0 <= i < lineCount doc)%Z /\ p (textAt doc i) = true
      /\ forall l, (i0 <= l < i)%Z -> p (textAt doc l) = false
  | None => forall l, (i0 <= l < lineCount doc)%Z -> p (textAt doc l) = false
  end.
Proof.
  intros H0. unfold textAt, lineCount.
  destruct (findFrom _ _ i0) as [i|] eqn:E.
  - pose proof (findFrom_some _ _ _ _ E) as Hb. rewrite length_skipn in Hb.
    destruct (findFrom_first _ _ _ _ E) as [H1 H2].
    rewrite nth_skipn in H1.
    replace (Z.to_nat i0 + Z.to_nat (i - i0))%nat with (Z.to_nat i) in H1 by lia.
    split; [lia|]. split; [exact H1|]. intros l Hl.
    specialize (H2 l Hl). rewrite nth_skipn in H2.
    now replace (Z.to_nat i0 + Z.to_nat (l - i0))%nat with (Z.to_nat l) in H2 by lia.
  - intros l Hl.
    pose proof (findFrom_none _ _ _ E (Z.to_nat (l - i0))) as H.
    rewrite length_skipn, nth_skipn in H.
    replace (Z.to_nat i0 + Z.to_nat (l - i0))%nat with (Z.to_nat l) in H by lia.
    apply H. lia.
Qed.

Lemma afterFrontMatter_nonneg doc : (0 <= afterFrontMatter doc)%Z.
Proof.
  unfold afterFrontMatter. destruct (getFrontMatterRange doc) as [r|] eqn:E; [|lia].
  apply getFrontMatterRange_bounds in E. lia.
Qed.

(** where the edits of a pass come from *)
Lemma computeReflowEdits_origin fuel doc targetRange settings out :
  editsOf fuel doc targetRange settings = Done out ->
  forall e, In e out ->
    exists j,
      let ls := getStartLine doc j in
      let le := getEndLine doc j in
      let fenced := getFencedCodeBlockRanges doc in
      (0 <= j < lineCount doc)%Z
      /\ range e = mkRange ls 0 le (len (textAt doc le))
      /\ skipOf (mkParagraphSkipContext doc ls le fenced
                   (getJsxExpressionRanges doc fenced)
                   (getFrontMatterRange doc) settings) = Done false
      /\ newText e
         = getReflowedText (mkStartEndInfo OtherInfo ls le (otherInfoOf doc j))
                           (getText doc (range e)) settings
      /\ newText e <> getText doc (range e).
Proof.
  intros H e He.
  destruct (computeReflowEdits_edits OtherInfo getStartLine getEndLine otherInfoOf
              getReflowedText _ _ _ _ _ H e He) as (j & next & Hs).
  cbv zeta in Hs. destruct (boundsOf doc targetRange) as [[hasRange startLine] endLine].
  exists j. cbv zeta.
  destruct (planStep_edit_text _ _ _ _ _ _ _ _ _ _ _ Hs) as (_ & Ht & Hne).
  apply planStep_edit in Hs. cbv zeta in Hs. destruct Hs as (Hj & Hskip & Hr & _).
  auto.
Qed.

(** *** Under the contract of the extent resolver *)

Hypothesis resolver_ok : forall doc i,
  (0 <= i < lineCount doc)%Z ->
  (0 <= getStartLine doc i <= i)%Z /\ (i <= getEndLine doc i < lineCount doc)%Z.

Lemma edit_lines doc j e :
  (0 <= j < lineCount doc)%Z ->
  range e = mkRange (getStartLine doc j) 0 (getEndLine doc j)
                    (len (textAt doc (getEndLine doc j))) ->
  line (start (range e)) = getStartLine doc j
  /\ line (end_ (range e)) = getEndLine doc j
  /\ (0 <= getStartLine doc j <= j)%Z
  /\ (j <= getEndLine doc j < lineCount doc)%Z.
Proof.
  intros Hj Hr. destruct (resolver_ok doc j Hj) as [Hs He].
  destruct (mkRange_ordered (getStartLine doc j) 0 (getEndLine doc j)
              (len (textAt doc (getEndLine doc j)))) as [E1 E2]; [lia|].
  rewrite Hr, E1, E2. auto.
Qed.

(** X9.  Under the contract of the extent resolver, a pass returns and
    no line of any of its edits lies in the front matter, in a fenced
    code block or in a bracket-expression range. *)
Theorem edits_avoid_zones doc targetRange settings :
  validTarget doc targetRange ->
  exists out,
    editsOf (Z.to_nat (lineCount doc)) doc targetRange settings = Done out
    /\ forall e, In e out ->
         forall l, (line (start (range e)) <= l <= line (end_ (range e)))%Z ->
                   inZone doc l = false.
Proof.
  intros Hv.
  destruct (computeReflowEdits_total OtherInfo getStartLine getEndLine otherInfoOf
              getReflowedText resolver_ok doc targetRange settings Hv) as (out & Hout).
  exists out. split; [exact Hout|]. intros e He l Hl.
  destruct (computeReflowEdits_origin _ _ _ _ _ Hout e He) as (j & Hj & Hr & Hskip & _).
  destruct (edit_lines doc j e Hj Hr) as (E1 & E2 & _). rewrite E1, E2 in Hl.
  apply shouldSkipParagraph_false_zones in Hskip as (Hfm & Hf & Hx & _).
  cbn [ctxLineStart ctxLineEnd ctxFencedRanges ctxJsxExprRanges] in Hf, Hx.
  unfold overlapsFrontMatter in Hfm.
  cbn [ctxFrontMatterRange ctxLineStart ctxLineEnd] in Hfm.
  unfold inZone. cbv zeta.
  rewrite (rangeOverlapsAny_false _ _ _ Hf l Hl), (rangeOverlapsAny_false _ _ _ Hx l Hl).
  unfold inFrontMatter. destruct (getFrontMatterRange doc) as [r|]; [|reflexivity].
  now rewrite (overlapsLines_false _ _ _ _ Hfm Hl).
Qed.

(** X10.  With [neverReflowFirstParagraph] set, and under the contract
    of the extent resolver, no edit of a pass meets the lines of the
    first content paragraph. *)
Theorem first_paragraph_is_never_edited doc targetRange settings :
  validTarget doc targetRange ->
  neverReflowFirstParagraph settings = true ->
  exists out,
    editsOf (Z.to_nat (lineCount doc)) doc targetRange settings = Done out
    /\ forall r, firstOf doc = Done (Some r) ->
         forall e, In e out ->
           (line (end_ (range e)) < line (start r))%Z
           \/ (line (end_ r) < line (start (range e)))%Z.
Proof.
  intros Hv Hset.
  destruct (computeReflowEdits_total OtherInfo getStartLine getEndLine otherInfoOf
              getReflowedText resolver_ok doc targetRange settings Hv) as (out & Hout).
  exists out. split; [exact Hout|]. intros r Hfirst e He.
  destruct (computeReflowEdits_origin _ _ _ _ _ Hout e He) as (j & Hj & Hr & Hskip & _).
  destruct (edit_lines doc j e Hj Hr) as (E1 & E2 & _). rewrite E1, E2.
  apply shouldSkipParagraph_false_zones in Hskip as (_ & _ & _ & Hp).
  unfold overlapsFirstParagraph in Hp.
  cbn [ctxSettings ctxDocument ctxLineStart ctxLineEnd] in Hp.
  rewrite Hset, Hfirst in Hp. cbn [bind] in Hp. inversion Hp as [Ho].
  unfold overlapsLines in Ho.
  apply negb_false_iff, orb_true_iff in Ho. rewrite Z.gtb_ltb, !Z.ltb_lt in Ho.
  tauto.
Qed.

(** X11.  Under the contract of the extent resolver,
    [getFirstContentParagraphRange] returns nothing when every line
    after the front matter is blank or an import line; otherwise it
    returns the whole lines of the extent that the resolver gives for
    the first line after the front matter that is neither. *)
Theorem getFirstContentParagraphRange_spec doc :
  ((forall l, (afterFrontMatter doc <= l < lineCount doc)%Z ->
              isContentLine (textAt doc l) = false) ->
   firstOf doc = Done None)
  /\ (forall i,
         (afterFrontMatter doc <= i < lineCount doc)%Z ->
         isContentLine (textAt doc i) = true ->
         (forall l, (afterFrontMatter doc <= l < i)%Z ->
                    isContentLine (textAt doc l) = false) ->
         firstOf doc
         = Done (Some (mkRange (getStartLine doc i) 0 (getEndLine doc i)
                               (len (textAt doc (getEndLine doc i)))))).
Proof.
  pose proof (afterFrontMatter_nonneg doc) as H0.
  pose proof (findFrom_skipn_spec isContentLine doc (afterFrontMatter doc) H0) as Hspec.
  unfold getFirstContentParagraphRange. cbv zeta.
  fold (afterFrontMatter doc).
  change (fun t : str => negb (isBlank t || test MDX_IMPORT_RE t)) with isContentLine.
  destruct (findFrom isContentLine _ _) as [j|].
  - destruct Hspec as (Hj & Hp & Hbefore). split.
    + intros Hall. rewrite (Hall j Hj) in Hp. discriminate.
    + intros i Hi Hc Hb.
      assert (j = i).
      { destruct (Z.lt_trichotomy j i) as [Hlt|[Heq|Hgt]]; auto.
        - rewrite Hb in Hp by lia. discriminate.
        - rewrite Hbefore in Hc by lia. discriminate. }
      subst j. destruct (resolver_ok doc i) as [Hs He]; [lia|].
      rewrite lineAt_in by lia. cbn [bind].
      rewrite newRange_nonneg; try lia; [reflexivity | apply len_nonneg].
  - split; [reflexivity|]. intros i Hi Hc _. rewrite (Hspec i Hi) in Hc. discriminate.
Qed.

(** X12.  Under the contract of the extent resolver, a pass returns and
    every edit replaces the whole lines of the extent resolved at some
    line of the document: its old text is these lines joined by line
    feeds, its new text is what [getReflowedText] makes of them, and the
    two differ, so that no edit leaves the document as it was. *)
Theorem edits_replace_whole_units_by_new_text doc targetRange settings :
  validTarget doc targetRange ->
  exists out,
    editsOf (Z.to_nat (lineCount doc)) doc targetRange settings = Done out
    /\ forall e, In e out ->
         exists j,
           let ls := getStartLine doc j in
           let le := getEndLine doc j in
           let old := join [LF] (unitLines doc ls le) in
           (0 <= j < lineCount doc)%Z
           /\ range e = mkRange ls 0 le (len (textAt doc le))
           /\ getText doc (range e) = old
           /\ newText e
              = getReflowedText (mkStartEndInfo OtherInfo ls le (otherInfoOf doc j))
                                old settings
           /\ newText e <> old.
Proof.
  intros Hv.
  destruct (computeReflowEdits_total OtherInfo getStartLine getEndLine otherInfoOf
              getReflowedText resolver_ok doc targetRange settings Hv) as (out & Hout).
  exists out. split; [exact Hout|]. intros e He.
  destruct (computeReflowEdits_origin _ _ _ _ _ Hout e He)
    as (j & Hj & Hr & _ & Ht & Hne).
  exists j. cbv zeta.
  destruct (resolver_ok doc j Hj) as [Hs Hb].
  assert (E : getText doc (range e)
              = join [LF] (unitLines doc (getStartLine doc j) (getEndLine doc j))).
  { rewrite Hr. apply getText_whole_lines; lia. }
  rewrite <- E. auto.
Qed.

Lemma planLoop_chain doc fm fenced jsx hasRange startLine endLine settings fuel :
  (forall i j, (0 <= i < lineCount doc)%Z -> (0 <= j < lineCount doc)%Z ->
               (getEndLine doc i < j)%Z -> (getEndLine doc i < getStartLine doc j)%Z) ->
  forall i edits out,
    loopOf fuel doc fm fenced jsx hasRange startLine endLine settings i edits
    = Done out ->
    chain 1 0 (map range edits) ->
    (forall i', (i <= i' < lineCount doc)%Z ->
                (chainEnd 1 0 (map range edits) <= getStartLine doc i')%Z) ->
    chain 1 0 (map range out).
Proof.
  intros Hapart. induction fuel as [|fuel IH]; intros i edits out; cbn [planLoop].
  - destruct (i <=? endLine)%Z; [discriminate|]. intros H; inversion H; auto.
  - destruct (i <=? endLine)%Z; [|intros H; inversion H; auto].
    intros H Hc Hinv. apply bind_done in H as (o & Ho & H).
    destruct o as [next oe|]; [|inversion H; subst; auto].
    pose proof (planStep_increases OtherInfo getStartLine getEndLine otherInfoOf
                  getReflowedText resolver_ok _ _ _ _ _ _ _ _ _ _ _ Ho) as Hinc.
    apply (IH _ _ _ H); destruct oe as [e|]; cbn [pushEdit].
    + destruct (planStep_edit_text _ _ _ _ _ _ _ _ _ _ _ Ho) as (Hn & _).
      apply planStep_edit in Ho. cbv zeta in Ho. destruct Ho as (Hi & _ & Hr & _).
      destruct (edit_lines doc i e Hi Hr) as (E1 & E2 & Hs & He).
      rewrite map_app. cbn [map]. apply chain_snoc. rewrite E1, E2.
      split; [exact Hc|]. split; [apply Hinv; lia | lia].
    + exact Hc.
    + destruct (planStep_edit_text _ _ _ _ _ _ _ _ _ _ _ Ho) as (Hn & _).
      apply planStep_edit in Ho. cbv zeta in Ho. destruct Ho as (Hi & _ & Hr & _).
      destruct (edit_lines doc i e Hi Hr) as (E1 & E2 & Hs & He).
      rewrite map_app. cbn [map]. rewrite chainEnd_snoc, E2.
      intros i' Hi'. specialize (Hapart i i' Hi). lia.
    + intros i' Hi'. apply Hinv. lia.
Qed.

(** X13.  When, besides the contract, no extent of the resolver reaches
    back to the end line of an extent before it, a pass returns edits of
    whole lines of the document that follow each other in the order of
    the list without two of them sharing a line. *)
Theorem edits_are_ordered_and_disjoint doc targetRange settings :
  validTarget doc targetRange ->
  (forall i j, (0 <= i < lineCount doc)%Z -> (0 <= j < lineCount doc)%Z ->
               (getEndLine doc i < j)%Z -> (getEndLine doc i < getStartLine doc j)%Z) ->
  exists out,
    editsOf (Z.to_nat (lineCount doc)) doc targetRange settings = Done out
    /\ Forall (inDocument doc) (map range out)
    /\ separated 1 (map range out).
Proof.
  intros Hv Hapart.
  destruct (computeReflowEdits_total OtherInfo getStartLine getEndLine otherInfoOf
              getReflowedText resolver_ok doc targetRange settings Hv) as (out & Hout).
  exists out. split; [exact Hout|]. split.
  - apply Forall_map, Forall_forall. intros e He.
    destruct (computeReflowEdits_origin _ _ _ _ _ Hout e He) as (j & Hj & Hr & _).
    destruct (edit_lines doc j e Hj Hr) as (E1 & E2 & Hs & Hb).
    unfold inDocument. rewrite E1, E2. lia.
  - apply (chain_separated 1 0); [lia|].
    assert (Hinit : forall i', (0 <= i' < lineCount doc)%Z ->
                      (chainEnd 1 0 (map range []) <= getStartLine doc i')%Z).
    { intros i' Hi'. destruct (resolver_ok doc i' Hi'). cbn. lia. }
    unfold computeReflowEdits in Hout. cbv zeta in Hout.
    destruct targetRange as [t|]; destruct (getFrontMatterRange doc) as [r|] eqn:Efm;
      try (destruct (containsRange r t); [inversion Hout; exact I|]);
      apply (planLoop_chain _ _ _ _ _ _ _ _ _ Hapart _ _ _ Hout I);
      intros i' Hi'; apply Hinit;
      try (apply getFrontMatterRange_bounds in Efm); cbn [validTarget] in Hv; lia.
Qed.

End PlannerMore.

Lemma sampleBack_above (doc : document) n k :
  (k < n)%nat -> isBlank (nth k doc []) = true -> (k < sampleBack doc n)%nat.
Proof.
  induction n as [|n IH]; intros Hk Hb; [lia|]. cbn [sampleBack].
  destruct (isBlank (nth n doc [])) eqn:E; [lia|].
  apply IH; auto. destruct (Nat.eq_dec k n) as [->|]; [congruence | lia].
Qed.

Lemma sampleForward_stop (rest : list str) :
  forall i, (sampleForward rest i - i < Z.of_nat (length rest))%Z ->
    isBlank (nth (Z.to_nat (sampleForward rest i - i)) rest []) = true.
Proof.
  induction rest as [|t rest IH]; intros i; cbn [sampleForward length]; [lia|].
  destruct (isBlank t) eqn:E.
  - intros _. now rewrite Z.sub_diag.
  - intros H. pose proof (sampleForward_bounds rest (i + 1)) as Hb.
    replace (Z.to_nat (sampleForward rest (i + 1) - i))
      with (S (Z.to_nat (sampleForward rest (i + 1) - (i + 1)))) by lia.
    apply IH. lia.
Qed.

Lemma sample_resolver_apart doc i j :
  (0 <= i < lineCount doc)%Z -> (0 <= j < lineCount doc)%Z ->
  (sampleEndLine doc i < j)%Z -> (sampleEndLine doc i < sampleStartLine doc j)%Z.
Proof.
  unfold lineCount, sampleStartLine, sampleEndLine, textAt. intros Hi Hj.
  destruct (isBlank (nth (Z.to_nat i) doc [])) eqn:Ei.
  - intros Hlt. destruct (isBlank (nth (Z.to_nat j) doc [])); [lia|].
    pose proof (sampleBack_above doc (Z.to_nat j) (Z.to_nat i)) as H.
    specialize (H ltac:(lia) Ei). lia.
  - set (rest := skipn (S (Z.to_nat i)) doc).
    pose proof (sampleForward_bounds rest i) as Hb.
    pose proof (sampleForward_stop rest i) as Hs.
    subst rest. rewrite length_skipn in Hb, Hs. rewrite nth_skipn in Hs.
    set (e := sampleForward (skipn (S (Z.to_nat i)) doc) i) in *.
    intros Hlt. specialize (Hs ltac:(lia)).
    replace (S (Z.to_nat i) + Z.to_nat (e - i))%nat with (Z.to_nat (e + 1)) in Hs by lia.
    destruct (isBlank (nth (Z.to_nat j) doc [])) eqn:Ej; [lia|].
    assert (Hne : j <> (e + 1)%Z) by (intros ->; congruence).
    pose proof (sampleBack_above doc (Z.to_nat j) (Z.to_nat (e + 1))) as H.
    specialize (H ltac:(lia) Hs). lia.
Qed.


Lemma request_inside_zones_gives_no_edit_witness :
  let target := Some (mkRange 1 0 2 3) in
  validTarget docBraces target
  /\ (forall l, (1 <= l <= 2)%Z -> inZone docBraces l = true)
  /\ sampleEdits (Z.to_nat (lineCount docBraces)) docBraces target sampleSettings
     = Done [].
Proof.
  intros target.
  assert (Hv : validTarget docBraces target)
    by (vm_compute; split; [discriminate | reflexivity]).
  assert (Hz : forall l, (1 <= l <= 2)%Z -> inZone docBraces l = true).
  { intros l Hl. assert (E : l = 1%Z \/ l = 2%Z) by lia.
    destruct E as [-> | ->]; vm_compute; reflexivity. }
  split; [exact Hv|]. split; [exact Hz|].
  exact (request_inside_zones_gives_no_edit unit sampleStartLine sampleEndLine
           sampleOtherInfo sampleReflowedText docBraces target sampleSettings Hv Hz).
Defined.


Lemma edits_avoid_zones_witness :
  (forall d i, (0 <= i < lineCount d)%Z ->
               (0 <= sampleStartLine d i <= i)%Z
               /\ (i <= sampleEndLine d i < lineCount d)%Z)
  /\ validTarget docMixed None
  /\ exists out,
       sampleEdits (Z.to_nat (lineCount docMixed)) docMixed None sampleSettings
       = Done out
       /\ forall e, In e out ->
            forall l, (line (start (range e)) <= l <= line (end_ (range e)))%Z ->
                      inZone docMixed l = false.
Proof.
  split; [exact sample_resolver_ok|]. split; [exact I|].
  exact (edits_avoid_zones unit sampleStartLine sampleEndLine sampleOtherInfo
           sampleReflowedText sample_resolver_ok docMixed None sampleSettings I).
Defined.

Lemma first_paragraph_is_never_edited_witness :
  (forall d i, (0 <= i < lineCount d)%Z ->
               (0 <= sampleStartLine d i <= i)%Z
               /\ (i <= sampleEndLine d i < lineCount d)%Z)
  /\ validTarget docTwoParagraphs None
  /\ neverReflowFirstParagraph sampleSettingsFirst = true
  /\ exists out,
       sampleEdits (Z.to_nat (lineCount docTwoParagraphs)) docTwoParagraphs None
                   sampleSettingsFirst = Done out
       /\ forall r,
            getFirstContentParagraphRange sampleStartLine sampleEndLine
                                          docTwoParagraphs = Done (Some r) ->
            forall e, In e out ->
              (line (end_ (range e)) < line (start r))%Z
              \/ (line (end_ r) < line (start (range e)))%Z.
Proof.
  split; [exact sample_resolver_ok|]. split; [exact I|]. split; [reflexivity|].
  exact (first_paragraph_is_never_edited unit sampleStartLine sampleEndLine
           sampleOtherInfo sampleReflowedText sample_resolver_ok
           docTwoParagraphs None sampleSettingsFirst I eq_refl).
Defined.

Lemma getFirstContentParagraphRange_spec_witness :
  (forall d i, (0 <= i < lineCount d)%Z ->
               (0 <= sampleStartLine d i <= i)%Z
               /\ (i <= sampleEndLine d i < lineCount d)%Z)
  /\ (afterFrontMatter docFrontMatter <= 4 < lineCount docFrontMatter)%Z
  /\ isContentLine (textAt docFrontMatter 4) = true
  /\ (forall l, (afterFrontMatter docFrontMatter <= l < 4)%Z ->
                isContentLine (textAt docFrontMatter l) = false)
  /\ getFirstContentParagraphRange sampleStartLine sampleEndLine docFrontMatter
     = Done (Some (mkRange (sampleStartLine docFrontMatter 4) 0
                           (sampleEndLine docFrontMatter 4)
                           (len (textAt docFrontMatter
                                   (sampleEndLine docFrontMatter 4))))).
Proof.
  assert (H1 : (afterFrontMatter docFrontMatter <= 4 < lineCount docFrontMatter)%Z)
    by (vm_compute; split; [discriminate | reflexivity]).
  assert (H2 : isContentLine (textAt docFrontMatter 4) = true)
    by (vm_compute; reflexivity).
  assert (H3 : forall l, (afterFrontMatter docFrontMatter <= l < 4)%Z ->
                         isContentLine (textAt docFrontMatter l) = false).
  { intros l Hl. assert (E : afterFrontMatter docFrontMatter = 4%Z)
      by (vm_compute; reflexivity).
    rewrite E in Hl. lia. }
  split; [exact sample_resolver_ok|]. split; [exact H1|]. split; [exact H2|].
  split; [exact H3|].
  exact (proj2 (getFirstContentParagraphRange_spec sampleStartLine sampleEndLine
                  sample_resolver_ok docFrontMatter) 4%Z H1 H2 H3).
Defined.

Lemma edits_replace_whole_units_by_new_text_witness :
  let target := Some (mkRange 2 0 3 8) in
  (forall d i, (0 <= i < lineCount d)%Z ->
               (0 <= sampleStartLine d i <= i)%Z
               /\ (i <= sampleEndLine d i < lineCount d)%Z)
  /\ validTarget docMixed target
  /\ exists out,
       sampleEdits (Z.to_nat (lineCount docMixed)) docMixed target sampleSettings
       = Done out
       /\ forall e, In e out ->
            exists j,
              let ls := sampleStartLine docMixed j in
              let le := sampleEndLine docMixed j in
              let old := join [LF] (unitLines docMixed ls le) in
              (0 <= j < lineCount docMixed)%Z
              /\ range e = mkRange ls 0 le (len (textAt docMixed le))
              /\ getText docMixed (range e) = old
              /\ newText e
                 = sampleReflowedText
                     (mkStartEndInfo unit ls le (sampleOtherInfo docMixed j))
                     old sampleSettings
              /\ newText e <> old.
Proof.
  intros target.
  assert (Hv : validTarget docMixed target)
    by (vm_compute; split; [discriminate | reflexivity]).
  split; [exact sample_resolver_ok|]. split; [exact Hv|].
  exact (edits_replace_whole_units_by_new_text unit sampleStartLine sampleEndLine
           sampleOtherInfo sampleReflowedText sample_resolver_ok
           docMixed target sampleSettings Hv).
Defined.

Lemma edits_are_ordered_and_disjoint_witness :
  (forall d i, (0 <= i < lineCount d)%Z ->
               (0 <= sampleStartLine d i <= i)%Z
               /\ (i <= sampleEndLine d i < lineCount d)%Z)
  /\ validTarget docTwoParagraphs None
  /\ (forall i j, (0 <= i < lineCount docTwoParagraphs)%Z ->
                  (0 <= j < lineCount docTwoParagraphs)%Z ->
                  (sampleEndLine docTwoParagraphs i < j)%Z ->
                  (sampleEndLine docTwoParagraphs i
                   < sampleStartLine docTwoParagraphs j)%Z)
  /\ exists out,
       sampleEdits (Z.to_nat (lineCount docTwoParagraphs)) docTwoParagraphs None
                   sampleSettings = Done out
       /\ Forall (inDocument docTwoParagraphs) (map range out)
       /\ separated 1 (map range out).
Proof.
  split; [exact sample_resolver_ok|]. split; [exact I|].
  split; [exact (sample_resolver_apart docTwoParagraphs)|].
  exact (edits_are_ordered_and_disjoint unit sampleStartLine sampleEndLine
           sampleOtherInfo sampleReflowedText sample_resolver_ok
           docTwoParagraphs None sampleSettings I
           (sample_resolver_apart docTwoParagraphs)).
Defined.

Example plan_two_paragraphs :
  map (fun e => (line (start (range e)), line (end_ (range e))))
      (match sampleEdits 3 docTwoParagraphs None sampleSettings with
       | Done out => out | _ => [] end) = [(0, 0); (2, 2)]%Z
  /\ map (fun e => (line (start (range e)), line (end_ (range e))))
         (match sampleEdits 3 docTwoParagraphs None sampleSettingsFirst with
          | Done out => out | _ => [] end) = [(2, 2)]%Z.
Proof. vm_compute. split; reflexivity. Qed.

(** ** The fenced code block detector *)

Lemma skipn_cons_inv {A} (d : A) (l : list A) n x r :
  skipn n l = x :: r -> nth n l d = x /\ skipn (S n) l = r.
Proof.
  revert l. induction n as [|n IH]; intros l H.
  - destruct l; [discriminate|]. simpl in H. injection H as -> ->. auto.
  - destruct l; [discriminate|]. apply (IH l H).
Qed.

Lemma test_exec r t m : exec r t = Some m -> test r t = true.
Proof. unfold test. now intros ->. Qed.

Lemma test_exec_none r t : exec r t = None -> test r t = false.
Proof. unfold test. now intros ->. Qed.

Lemma in_snoc {A} (x y : A) l : In x l -> In x (l ++ [y]).
Proof. intros H. apply in_or_app. now left. Qed.

Lemma in_last {A} (y : A) l : In y (l ++ [y]).
Proof. apply in_or_app. right. now left. Qed.

Lemma fenceStep_inv doc st i :
  (0 <= i < lineCount doc)%Z ->
  fenceInv doc st i -> fenceInv doc (fenceStep st i (textAt doc i)) (i + 1).
Proof.
  intros Hi (Hc & He & Hd & Hb & Hcov). unfold fenceStep.
  destruct (inBlock st) eqn:Eb; cbn [negb].
  - destruct (Hb eq_refl) as (Hbs & (m & Hm & Hfc & Hfl) & Hno).
    assert (Hcl : forall t, closesFence (textAt doc (blockStart st)) t
                            = test (closeRe (fenceChar st) (fenceLen st)) t).
    { intros t. unfold closesFence. now rewrite Hm, Hfc, Hfl. }
    destruct (test (closeRe (fenceChar st) (fenceLen st)) (textAt doc i)) eqn:Et.
    + destruct (mkRange_ordered (blockStart st) 0 i (len (textAt doc i)))
        as [E1 E2]; [lia|].
      unfold fenceInv. cbn [fRanges inBlock blockStart].
      rewrite chainEnd_snoc, E2.
      refine (conj _ (conj _ (conj _ (conj _ _)))).
      * apply chain_snoc. rewrite E1, E2. split; [exact Hc|]. lia.
      * lia.
      * apply Forall_app. split; [exact Hd|]. constructor; [|constructor].
        unfold delimited. cbv zeta. rewrite E1, E2.
        split; [exact (test_exec _ _ _ Hm)|]. split; [exact Hno|].
        left. split; [lia|]. now rewrite Hcl.
      * discriminate.
      * intros l Hl Ho.
        left. destruct (Z.lt_ge_cases l i) as [Hlt|Hge].
        -- destruct (Hcov l ltac:(lia) Ho) as [(r & Hin & Hr)|[_ Hr]].
           ++ exists r. split; [now apply in_snoc | exact Hr].
           ++ eexists. split; [apply in_last|]. rewrite E1, E2. lia.
        -- eexists. split; [apply in_last|]. rewrite E1, E2. lia.
    + unfold fenceInv. rewrite Eb.
      refine (conj Hc (conj He (conj Hd (conj _ _)))).
      * intros _. split; [lia|]. split; [now exists m|].
        intros l Hl. destruct (Z.eq_dec l i) as [->|Hne].
        -- now rewrite Hcl.
        -- apply Hno. lia.
      * intros l Hl Ho. destruct (Z.lt_ge_cases l i) as [Hlt|Hge].
        -- apply Hcov; auto. lia.
        -- right. split; [reflexivity | lia].
  - destruct (exec openRe (textAt doc i)) as [m|] eqn:Em.
    + unfold fenceInv. cbn [fRanges inBlock blockStart fenceChar fenceLen].
      refine (conj Hc (conj He (conj Hd (conj _ _)))).
      * intros _. split; [lia|]. split; [now exists m|]. intros l Hl. lia.
      * intros l Hl Ho. destruct (Z.lt_ge_cases l i) as [Hlt|Hge].
        -- destruct (Hcov l ltac:(lia) Ho) as [H|[H _]]; [now left | discriminate].
        -- right. split; [reflexivity | lia].
    + unfold fenceInv. rewrite Eb.
      refine (conj Hc (conj _ (conj Hd (conj _ _)))).
      * lia.
      * discriminate.
      * intros l Hl Ho. destruct (Z.lt_ge_cases l i) as [Hlt|Hge].
        -- apply Hcov; auto. lia.
        -- replace l with i in Ho by lia.
           rewrite (test_exec_none _ _ Em) in Ho. discriminate.
Qed.

Lemma fenceScan_inv doc lines :
  forall i st, (0 <= i)%Z -> lines = skipn (Z.to_nat i) doc ->
    fenceInv doc st i ->
    fenceInv doc (fenceScan lines i st) (i + Z.of_nat (length lines)).
Proof.
  induction lines as [|text lines IH]; intros i st Hi Hl Hinv; cbn [fenceScan length].
  - now rewrite Z.add_0_r.
  - symmetry in Hl. pose proof (f_equal (@length _) Hl) as Hlen.
    rewrite length_skipn in Hlen. cbn [length] in Hlen.
    destruct (skipn_cons_inv [] doc _ _ _ Hl) as [Ht Hr].
    replace (i + Z.of_nat (S (length lines)))%Z
      with (i + 1 + Z.of_nat (length lines))%Z by lia.
    apply IH; [lia | |].
    + rewrite <- Hr. f_equal. lia.
    + rewrite <- Ht. apply fenceStep_inv; [unfold lineCount; lia | exact Hinv].
Qed.

(** what the scan has established when [getFencedCodeBlockRanges]
    returns *)
Lemma fenced_ranges_inv doc :
  let rs := getFencedCodeBlockRanges doc in
  chain 1 0 rs /\ (chainEnd 1 0 rs <= lineCount doc)%Z
  /\ Forall (delimited doc) rs
  /\ (forall l, (0 <= l < lineCount doc)%Z -> test openRe (textAt doc l) = true ->
                exists r, In r rs /\ (line (start r) <= l <= line (end_ r))%Z).
Proof.
  cbv zeta. unfold getFencedCodeBlockRanges. cbv zeta.
  assert (Hinit : fenceInv doc (mkFenceState [] false 0 0%N 0) 0).
  { unfold fenceInv. cbn [fRanges inBlock blockStart chain map].
    refine (conj I (conj _ (conj (Forall_nil _) (conj _ _)))).
    - unfold chainEnd. cbn. lia.
    - discriminate.
    - intros l Hl. lia. }
  pose proof (fenceScan_inv doc doc 0 _ (Z.le_refl 0) eq_refl Hinit)
    as (Hc & He & Hd & Hb & Hcov).
  cbn [Z.add] in *. fold (lineCount doc) in *.
  set (st := fenceScan doc 0 (mkFenceState [] false 0 0%N 0)) in *.
  destruct (inBlock st) eqn:Eb.
  - destruct (Hb eq_refl) as (Hbs & (m & Hm & _) & Hno).
    destruct (mkRange_ordered (blockStart st) 0 (lineCount doc - 1)
                (len (textAt doc (lineCount doc - 1)))) as [E1 E2]; [lia|].
    rewrite chainEnd_snoc, E2.
    refine (conj _ (conj _ (conj _ _))).
    + apply chain_snoc. rewrite E1, E2. split; [exact Hc|]. lia.
    + lia.
    + apply Forall_app. split; [exact Hd|]. constructor; [|constructor].
      unfold delimited. cbv zeta. rewrite E1, E2.
      split; [exact (test_exec _ _ _ Hm)|]. split; [|now right].
      intros l Hl. apply Hno. lia.
    + intros l Hl Ho. destruct (Hcov l Hl Ho) as [(r & Hin & Hr)|[_ Hr]].
      * exists r. split; [now apply in_snoc | exact Hr].
      * eexists. split; [apply in_last|]. rewrite E1, E2. lia.
  - refine (conj Hc (conj He (conj Hd _))).
    intros l Hl Ho. destruct (Hcov l Hl Ho) as [H|[H _]]; [exact H | discriminate].
Qed.

Lemma chain_in_document gap doc rs :
  (1 <= gap)%Z -> chain gap 0 rs ->
  (chainEnd gap 0 rs <= lineCount doc + gap - 1)%Z ->
  Forall (inDocument doc) rs.
Proof.
  intros Hg Hc He.
  destruct (chain_bounds gap 0 rs ltac:(lia) Hc) as [_ Hb].
  pose proof (chain_ordered _ _ _ Hc) as Ho.
  rewrite Forall_forall in *. intros r Hr.
  specialize (Hb r Hr). specialize (Ho r Hr). unfold ordered in Ho.
  unfold inDocument. lia.
Qed.

(** X14.  The fenced ranges are ranges of lines of the document, listed
    in document order, and no two of them share a line. *)
Theorem fenced_ranges_in_order_and_disjoint doc :
  Forall (inDocument doc) (getFencedCodeBlockRanges doc)
  /\ separated 1 (getFencedCodeBlockRanges doc).
Proof.
  destruct (fenced_ranges_inv doc) as (Hc & He & _). split.
  - apply (chain_in_document 1); auto; lia.
  - apply (chain_separated 1 0); [lia | exact Hc].
Qed.

(** X15.  Every fenced range starts on a line with an opening fence;
    no line strictly inside it closes that fence; and its last line
    closes the fence or is the last line of the document. *)
Theorem fenced_ranges_are_delimited doc :
  Forall (delimited doc) (getFencedCodeBlockRanges doc).
Proof. apply fenced_ranges_inv. Qed.

(** X16.  Every line of the document that holds an opening fence lies
    in a fenced range: it opens one or is inside one. *)
Theorem opening_fence_lines_are_fenced doc l :
  (0 <= l < lineCount doc)%Z ->
  test openRe (textAt doc l) = true ->
  findRangeContainingLine (getFencedCodeBlockRanges doc) l <> None.
Proof.
  intros Hl Ho. destruct (fenced_ranges_inv doc) as (_ & _ & _ & Hcov).
  destruct (Hcov l Hl Ho) as (r & Hin & Hr).
  intros Hn. exact (find_containsLine_none _ _ r Hn Hin Hr).
Qed.

Lemma opening_fence_lines_are_fenced_witness :
  (0 <= 5 < lineCount docBraces)%Z
  /\ test openRe (textAt docBraces 5) = true
  /\ findRangeContainingLine (getFencedCodeBlockRanges docBraces) 5 <> None.
Proof.
  assert (H1 : (0 <= 5 < lineCount docBraces)%Z)
    by (vm_compute; split; [discriminate | reflexivity]).
  assert (H2 : test openRe (textAt docBraces 5) = true) by (vm_compute; reflexivity).
  split; [exact H1|]. split; [exact H2|].
  exact (opening_fence_lines_are_fenced docBraces 5 H1 H2).
Defined.

(** ** The bracket-expression balancer *)

(** a run of backticks changes neither the flag nor the depth *)
Lemma tick_state st run :
  let st' := if negb (inInline st)
             then mkInlineState true run (lineInside st) (depth st)
             else if (inlineTickRun st <=? run)%nat
                  then mkInlineState false 0 (lineInside st) (depth st)
                  else st in
  lineInside st' = lineInside st /\ depth st' = depth st.
Proof.
  cbv zeta. destruct (negb (inInline st)); [auto|].
  destruct (_ <=? _)%nat; auto.
Qed.

Lemma scanChars_depth_nonneg text :
  forall skip st, (0 <= depth st)%Z -> (0 <= depth (scanChars skip text st))%Z.
Proof.
  induction text as [|ch rest IH]; intros skip st H; cbn [scanChars]; [exact H|].
  destruct skip as [|skip]; [|now apply IH].
  destruct (is_tick ch).
  - apply IH. now rewrite (proj2 (tick_state st _)).
  - destruct (inInline st); [now apply IH|].
    destruct (is_chr "{" ch); [apply IH; cbn [depth]; lia|].
    destruct (is_chr "}" ch); [apply IH; cbn [depth]; lia | now apply IH].
Qed.

Lemma scanChars_inside_cause text :
  forall skip st, lineInside (scanChars skip text st) = true ->
    lineInside st = true \/ hasOpenBrace text = true.
Proof.
  unfold hasOpenBrace.
  induction text as [|ch rest IH]; intros skip st H; cbn [scanChars] in H;
    [now left|]. cbn [existsb].
  destruct skip as [|skip].
  - destruct (is_tick ch).
    + destruct (IH _ _ H) as [H1|H1].
      * left. now rewrite (proj1 (tick_state st _)) in H1.
      * right. rewrite H1. apply orb_true_r.
    + destruct (inInline st).
      * destruct (IH _ _ H) as [H1|H1]; [now left|].
        right. rewrite H1. apply orb_true_r.
      * destruct (is_chr "{" ch) eqn:Eo; [now right|].
        destruct (is_chr "}" ch);
          (destruct (IH _ _ H) as [H1|H1];
           [now left | right; rewrite H1; apply orb_true_r]).
  - destruct (IH _ _ H) as [H1|H1]; [now left|].
    right. rewrite H1. apply orb_true_r.
Qed.

Lemma scanChars_not_inside text :
  forall skip st, lineInside (scanChars skip text st) = false ->
    lineInside st = false
    /\ (depth st = 0%Z -> depth (scanChars skip text st) = 0%Z).
Proof.
  induction text as [|ch rest IH]; intros skip st H; cbn [scanChars] in H |- *;
    [auto|].
  destruct skip as [|skip]; [|now apply IH].
  destruct (is_tick ch).
  - destruct (IH _ _ H) as [H1 H2].
    destruct (tick_state st (S (length (take_while is_tick rest)))) as [E1 E2].
    cbv zeta in E1, E2. rewrite E1 in H1. rewrite E2 in H2. auto.
  - destruct (inInline st); [now apply IH|].
    destruct (is_chr "{" ch).
    + destruct (IH _ _ H) as [H1 _]. discriminate.
    + destruct (is_chr "}" ch); [|now apply IH].
      destruct (IH _ _ H) as [H1 H2]. cbn [lineInside depth] in H1, H2.
      split; [exact H1|]. intros E. apply H2. lia.
Qed.

Lemma balancer_push doc F st i :
  chain 2 0 (jRanges st) ->
  Forall (fun r => startsExpression doc F (line (start r))) (jRanges st) ->
  forall cs,
    (chainEnd 2 0 (jRanges st) <= cs)%Z -> (0 <= cs <= i)%Z ->
    startsExpression doc F cs ->
    let rs := jRanges st ++ [mkRange cs 0 i (len (textAt doc i))] in
    chain 2 0 rs /\ chainEnd 2 0 rs = (i + 2)%Z
    /\ Forall (fun r => startsExpression doc F (line (start r))) rs.
Proof.
  intros Hc Hs cs H1 H2 H3. cbv zeta.
  destruct (mkRange_ordered cs 0 i (len (textAt doc i))) as [E1 E2]; [lia|].
  rewrite chainEnd_snoc, E2. split; [|split; [reflexivity|]].
  - apply chain_snoc. rewrite E1, E2. split; [exact Hc|]. lia.
  - apply Forall_app. split; [exact Hs|]. constructor; [|constructor].
    now rewrite E1.
Qed.

Lemma balancerStep_inv doc F st i :
  (0 <= i < lineCount doc)%Z ->
  balancerInv doc F st i ->
  balancerInv doc F (jsxStep doc F st i (textAt doc i)) (i + 1).
Proof.
  intros Hi (Hc & Hd & Hs & Hcur & Hnone). unfold jsxStep.
  assert (Hnone' : (forall l, (0 <= l < i + 1)%Z -> hasOpenBrace (textAt doc l) = false) ->
                   jRanges st = [] /\ currentStart st = None /\ jDepth st = 0%Z
                   /\ hasOpenBrace (textAt doc i) = false).
  { intros H. destruct Hnone as (A & B & C); [intros l Hl; apply H; lia|].
    repeat split; auto. apply H. lia. }
  destruct (findRangeContainingLine F i) as [fr|] eqn:Ef.
  - assert (Hfi : findRangeContainingLine F (i + 1 - 1) <> None).
    { replace (i + 1 - 1)%Z with i by lia. rewrite Ef. discriminate. }
    destruct (currentStart st) as [cs|] eqn:Ecs.
    + destruct Hcur as (H1 & H2 & H3).
      destruct (balancer_push doc F st (i - 1) Hc Hs cs H1 ltac:(lia) H3)
        as (A & B & C). cbv zeta in A, B, C.
      unfold balancerInv. cbn [jRanges jDepth currentStart]. rewrite B.
      refine (conj A (conj Hd (conj C (conj _ _)))).
      * split; [lia | now right].
      * intros H. destruct (Hnone' H) as (_ & D & _). discriminate.
    + unfold balancerInv. rewrite Ecs.
      refine (conj Hc (conj Hd (conj Hs (conj _ _)))).
      * split; [lia | now right].
      * intros H. destruct (Hnone' H) as (A & _ & C & _). auto.
  - set (ln := scanChars 0 (textAt doc i)
                 (mkInlineState false 0 (0 <? jDepth st)%Z (jDepth st))).
    assert (Hdl : (0 <= depth ln)%Z) by (apply scanChars_depth_nonneg; exact Hd).
    destruct (lineInside ln) eqn:El.
    + apply scanChars_inside_cause in El. cbn [lineInside] in El.
      destruct (currentStart st) as [cs|] eqn:Ecs.
      * destruct Hcur as (H1 & H2 & H3).
        unfold balancerInv. cbn [jRanges jDepth currentStart].
        refine (conj Hc (conj Hdl (conj Hs (conj _ _)))).
        -- split; [exact H1|]. split; [lia | exact H3].
        -- intros H. destruct (Hnone' H) as (_ & D & _). discriminate.
      * destruct Hcur as (H1 & H2).
        unfold balancerInv. cbn [jRanges jDepth currentStart].
        refine (conj Hc (conj Hdl (conj Hs (conj _ _)))).
        -- split; [exact H1|]. split; [lia|].
           destruct El as [El|El]; [|now left].
           apply Z.ltb_lt in El. destruct H2 as [H2|H2]; [lia | now right].
        -- intros H. destruct (Hnone' H) as (_ & _ & C & D).
           destruct El as [El|El]; [apply Z.ltb_lt in El; lia | congruence].
    + apply scanChars_not_inside in El. cbn [lineInside depth] in El.
      destruct El as [El Hz]. apply Z.ltb_ge in El.
      assert (E0 : depth ln = 0%Z) by (apply Hz; lia).
      destruct (currentStart st) as [cs|] eqn:Ecs.
      * destruct Hcur as (H1 & H2 & H3).
        destruct (balancer_push doc F st (i - 1) Hc Hs cs H1 ltac:(lia) H3)
          as (A & B & C). cbv zeta in A, B, C.
        unfold balancerInv. cbn [jRanges jDepth currentStart]. rewrite B.
        refine (conj A (conj Hdl (conj C (conj _ _)))).
        -- split; [lia | now left].
        -- intros H. destruct (Hnone' H) as (_ & D & _). discriminate.
      * destruct Hcur as (H1 & H2).
        unfold balancerInv. cbn [jRanges jDepth currentStart].
        refine (conj Hc (conj Hdl (conj Hs (conj _ _)))).
        -- split; [lia | now left].
        -- intros H. destruct (Hnone' H) as (A & _). auto.
Qed.

Lemma balancerScan_inv doc F lines :
  forall i st, (0 <= i)%Z -> lines = skipn (Z.to_nat i) doc ->
    balancerInv doc F st i ->
    balancerInv doc F (jsxScan doc F lines i st) (i + Z.of_nat (length lines)).
Proof.
  induction lines as [|text lines IH]; intros i st Hi Hl Hinv; cbn [jsxScan length].
  - now rewrite Z.add_0_r.
  - symmetry in Hl. pose proof (f_equal (@length _) Hl) as Hlen.
    rewrite length_skipn in Hlen. cbn [length] in Hlen.
    destruct (skipn_cons_inv [] doc _ _ _ Hl) as [Ht Hr].
    replace (i + Z.of_nat (S (length lines)))%Z
      with (i + 1 + Z.of_nat (length lines))%Z by lia.
    apply IH; [lia | |].
    + rewrite <- Hr. f_equal. lia.
    + rewrite <- Ht. apply balancerStep_inv; [unfold lineCount; lia | exact Hinv].
Qed.

Lemma jsx_ranges_inv doc F :
  let rs := getJsxExpressionRanges doc F in
  chain 2 0 rs /\ (chainEnd 2 0 rs <= lineCount doc + 1)%Z
  /\ Forall (fun r => startsExpression doc F (line (start r))) rs
  /\ ((forall l, (0 <= l < lineCount doc)%Z -> hasOpenBrace (textAt doc l) = false) ->
      rs = []).
Proof.
  cbv zeta. unfold getJsxExpressionRanges. cbv zeta.
  assert (Hinit : balancerInv doc F (mkJsxState [] 0 None) 0).
  { unfold balancerInv. cbn [jRanges jDepth currentStart chain].
    refine (conj I (conj (Z.le_refl 0) (conj (Forall_nil _) (conj _ _)))).
    - split; [unfold chainEnd; cbn; lia | now left].
    - auto. }
  pose proof (balancerScan_inv doc F doc 0 _ (Z.le_refl 0) eq_refl Hinit)
    as (Hc & Hd & Hs & Hcur & Hnone).
  cbn [Z.add] in *. fold (lineCount doc) in *.
  set (st := jsxScan doc F doc 0 (mkJsxState [] 0 None)) in *.
  destruct (currentStart st) as [cs|] eqn:Ecs.
  - destruct Hcur as (H1 & H2 & H3).
    destruct (balancer_push doc F st (lineCount doc - 1) Hc Hs cs H1 ltac:(lia) H3)
      as (A & B & C). cbv zeta in A, B, C. rewrite B.
    refine (conj A (conj _ (conj C _))); [lia|].
    intros H. destruct (Hnone H) as (_ & D & _). discriminate.
  - destruct Hcur as (H1 & _).
    refine (conj Hc (conj _ (conj Hs _))); [lia|].
    intros H. now destruct (Hnone H).
Qed.

(** X17.  The bracket-expression ranges are ranges of lines of the
    document, listed in document order, and between two of them lies at
    least one line that belongs to neither. *)
Theorem jsx_ranges_in_order_and_apart doc fencedRanges :
  Forall (inDocument doc) (getJsxExpressionRanges doc fencedRanges)
  /\ separated 2 (getJsxExpressionRanges doc fencedRanges).
Proof.
  destruct (jsx_ranges_inv doc fencedRanges) as (Hc & He & _). split.
  - apply (chain_in_document 2); auto; lia.
  - apply (chain_separated 2 0); [lia | exact Hc].
Qed.

(** X18.  A bracket-expression range starts on a line that holds an
    opening brace or on the line that follows a fenced line; a document
    without opening brace has no bracket-expression range. *)
Theorem jsx_ranges_start_at_brace_or_after_fence doc fencedRanges :
  (forall r, In r (getJsxExpressionRanges doc fencedRanges) ->
             hasOpenBrace (textAt doc (line (start r))) = true
             \/ findRangeContainingLine fencedRanges (line (start r) - 1) <> None)
  /\ ((forall l, (0 <= l < lineCount doc)%Z -> hasOpenBrace (textAt doc l) = false) ->
      getJsxExpressionRanges doc fencedRanges = []).
Proof.
  destruct (jsx_ranges_inv doc fencedRanges) as (_ & _ & Hs & Hn).
  split; [|exact Hn]. rewrite Forall_forall in Hs. exact Hs.
Qed.

(** ** Inline code spans *)

Lemma scanChars_skip a :
  forall rest st, scanChars (length a) (a ++ rest) st = scanChars 0 rest st.
Proof.
  induction a as [|x a IH]; intros rest st; [reflexivity|].
  cbn [length app scanChars]. apply IH.
Qed.

Lemma ticks_all n : forallb is_tick (ticks n) = true.
Proof. induction n; simpl; auto. Qed.

Lemma ticks_length n : length (ticks n) = n.
Proof. apply repeat_length. Qed.

Lemma take_while_ticks n x :
  match x with [] => True | c :: _ => is_tick c = false end ->
  take_while is_tick (ticks n ++ x) = ticks n.
Proof. intros H. exact (proj1 (span_app is_tick (ticks n) x (ticks_all n) H)). Qed.

Lemma scanChars_inline_body body :
  forall x st, inInline st = true -> tick_free body = true ->
    scanChars 0 (body ++ x) st = scanChars 0 x st.
Proof.
  unfold tick_free.
  induction body as [|c body IH]; intros x st Hin Hb; [reflexivity|].
  cbn [forallb] in Hb. apply andb_true_iff in Hb as [Hc Hb].
  apply negb_true_iff in Hc. cbn [app scanChars]. rewrite Hc, Hin. now apply IH.
Qed.

(** X19.  Within a line and outside inline code, a run of backticks,
    a non-empty text without backtick and a run of at least as many
    backticks are passed over as a whole: whatever braces the text
    holds, the scan goes on behind the closing run with the depth and
    the flag it had before the opening run. *)
Theorem scanChars_ignores_inline_code n m body rest st :
  inInline st = false ->
  (1 <= n)%nat -> (n <= m)%nat ->
  body <> [] -> tick_free body = true ->
  match rest with [] => True | c :: _ => is_tick c = false end ->
  scanChars 0 (ticks n ++ body ++ ticks m ++ rest) st
  = scanChars 0 rest (mkInlineState false 0 (lineInside st) (depth st)).
Proof.
  intros Hin Hn Hm Hne Hb Hrest.
  destruct n as [|n]; [lia|]. destruct m as [|m]; [lia|].
  assert (Hhead : match body ++ ticks (S m) ++ rest with
                  | [] => True | c :: _ => is_tick c = false end).
  { destruct body as [|c body]; [congruence|]. cbn [app].
    unfold tick_free in Hb. cbn [forallb] in Hb.
    apply andb_true_iff in Hb as [Hc _]. now apply negb_true_iff in Hc. }
  change (ticks (S n)) with (TICK :: ticks n). cbn [app scanChars].
  change (is_tick TICK) with true. cbv iota.
  rewrite (take_while_ticks n _ Hhead), ticks_length, Hin. cbn [negb].
  replace (S n - 1)%nat with (length (ticks n)) by (rewrite ticks_length; lia).
  rewrite scanChars_skip, scanChars_inline_body by auto.
  change (ticks (S m)) with (TICK :: ticks m). cbn [app scanChars].
  change (is_tick TICK) with true. cbv iota.
  rewrite (take_while_ticks m _ Hrest), ticks_length. cbn [inInline negb inlineTickRun].
  assert (E : (S n <=? S m)%nat = true) by (apply Nat.leb_le; lia).
  rewrite E. cbn [lineInside depth].
  replace (S m - 1)%nat with (length (ticks m)) by (rewrite ticks_length; lia).
  apply scanChars_skip.
Qed.

Lemma scanChars_ignores_inline_code_witness :
  let st := mkInlineState false 0 false 0 in
  inInline st = false
  /\ (1 <= 1)%nat /\ (1 <= 2)%nat
  /\ str_of "{a}{" <> [] /\ tick_free (str_of "{a}{") = true
  /\ scanChars 0 (ticks 1 ++ str_of "{a}{" ++ ticks 2 ++ str_of " b") st
     = scanChars 0 (str_of " b") (mkInlineState false 0 (lineInside st) (depth st)).
Proof.
  intros st.
  assert (H1 : (1 <= 1)%nat) by lia.
  assert (H2 : (1 <= 2)%nat) by lia.
  assert (H3 : str_of "{a}{" <> []) by (vm_compute; discriminate).
  assert (H4 : tick_free (str_of "{a}{") = true) by (vm_compute; reflexivity).
  split; [reflexivity|]. split; [exact H1|]. split; [exact H2|].
  split; [exact H3|]. split; [exact H4|].
  exact (scanChars_ignores_inline_code 1 2 (str_of "{a}{") (str_of " b") st
           eq_refl H1 H2 H3 H4 eq_refl).
Defined.

(** ** The front matter detector *)

Lemma rmatch_ws_eol pos s c :
  rmatch (RSeq (star ws) REol) pos s c kfin
  = if forallb is_ws s then Some c else None.
Proof.
  unfold star, ws. rewrite rmatch_seq, rmatch_rep_chr, greedy_run_max.
  - cbn [Nat.leb]. rewrite rmatch_eol.
    destruct (forallb is_ws s) eqn:E.
    + destruct (drop_while_all is_ws s E) as [-> _]. reflexivity.
    + pose proof (drop_while_not_all is_ws s E).
      destruct (drop_while is_ws s); [congruence | reflexivity].
  - intros _ j Hj. destruct (skipn_run_head is_ws s j) as (x & r & -> & _); [lia|].
    reflexivity.
Qed.

Lemma rmatch_lit3 a b c pos s cp k :
  rmatch (seqs [RChar (N.eqb a); RChar (N.eqb b); RChar (N.eqb c)]) pos s cp k
  = match starts3 a b c s with
    | Some s' => k (S (S (S pos))) s' cp
    | None => None
    end.
Proof.
  unfold starts3. cbn [seqs rmatch].
  destruct s as [|x [|y [|z s']]];
    try destruct (N.eqb a x); try destruct (N.eqb b y);
    try destruct (N.eqb c z); reflexivity.
Qed.

Lemma starts3_some a b c s tail :
  starts3 a b c s = Some tail <-> s = a :: b :: c :: tail.
Proof.
  unfold starts3. split.
  - destruct s as [|x [|y [|z s']]]; try discriminate.
    destruct (N.eqb a x) eqn:E1; [|discriminate].
    destruct (N.eqb b y) eqn:E2; [|discriminate].
    destruct (N.eqb c z) eqn:E3; [|discriminate].
    apply N.eqb_eq in E1, E2, E3. cbn [andb]. intros H; inversion H. congruence.
  - intros ->. now rewrite !N.eqb_refl.
Qed.

Lemma starts3_ws a b c x r :
  is_ws a = false -> is_ws x = true -> starts3 a b c (x :: r) = None.
Proof.
  intros Ha Hx. unfold starts3. destruct r as [|y [|z s']]; try reflexivity.
  destruct (N.eqb a x) eqn:E; [|reflexivity].
  apply N.eqb_eq in E. congruence.
Qed.

(** [^\s*abc\s*$] for a three-character literal that does not start with
    white space *)
Lemma test_delim3 a b c t :
  is_ws a = false ->
  test (seqs [RBol; star ws;
              seqs [RChar (N.eqb a); RChar (N.eqb b); RChar (N.eqb c)];
              star ws; REol]) t
  = delim_direct a b c t.
Proof.
  intros Ha. unfold test, delim_direct.
  change (seqs [RBol; star ws;
                seqs [RChar (N.eqb a); RChar (N.eqb b); RChar (N.eqb c)];
                star ws; REol])
    with (RSeq RBol (RSeq (star ws)
            (RSeq (seqs [RChar (N.eqb a); RChar (N.eqb b); RChar (N.eqb c)])
                  (RSeq (star ws) REol)))).
  rewrite exec_bol, rmatch_seq. unfold star at 1, ws at 1. rewrite rmatch_rep_chr.
  rewrite (greedy_run_ext is_ws _ (fun pos' s' c' =>
             match starts3 a b c s' with
             | Some tail => if forallb is_ws tail then Some c' else None
             | None => None
             end)).
  2:{ intros p' s' c'. rewrite rmatch_seq, rmatch_lit3.
      destruct (starts3 a b c s'); [apply rmatch_ws_eol | reflexivity]. }
  rewrite greedy_run_max.
  - cbn [Nat.leb]. destruct (starts3 a b c (drop_while is_ws t)); [|reflexivity].
    now destruct (forallb is_ws s).
  - intros _ j Hj. destruct (skipn_run_head is_ws t j) as (x & r & -> & Hx); [lia|].
    now rewrite (starts3_ws a b c x r Ha Hx).
Qed.

(** the same with the alternative [(abc|def)] in a group *)
Lemma test_delim3_alt a b c d e f t :
  is_ws a = false -> is_ws d = false ->
  test (seqs [RBol; star ws;
              RGroup 1 (RAlt (seqs [RChar (N.eqb a); RChar (N.eqb b); RChar (N.eqb c)])
                             (seqs [RChar (N.eqb d); RChar (N.eqb e); RChar (N.eqb f)]));
              star ws; REol]) t
  = delim_direct a b c t || delim_direct d e f t.
Proof.
  intros Ha Hd. unfold test, delim_direct.
  match goal with |- context [exec (seqs [RBol; star ws; ?G; star ws; REol]) t] =>
    change (seqs [RBol; star ws; G; star ws; REol])
      with (RSeq RBol (RSeq (star ws) (RSeq G (RSeq (star ws) REol)))) end.
  rewrite exec_bol, rmatch_seq. unfold star at 1, ws at 1. rewrite rmatch_rep_chr.
  rewrite (greedy_run_ext is_ws _ (fun pos' s' c' =>
             orelse
               match starts3 a b c s' with
               | Some tail => if forallb is_ws tail
                              then Some ((1, firstn (S (S (S pos')) - pos') s') :: c')
                              else None
               | None => None
               end
               match starts3 d e f s' with
               | Some tail => if forallb is_ws tail
                              then Some ((1, firstn (S (S (S pos')) - pos') s') :: c')
                              else None
               | None => None
               end)).
  2:{ intros p' s' c'. rewrite rmatch_seq, rmatch_group, rmatch_alt, !rmatch_lit3.
      f_equal.
      - destruct (starts3 a b c s'); [apply rmatch_ws_eol | reflexivity].
      - destruct (starts3 d e f s'); [apply rmatch_ws_eol | reflexivity]. }
  rewrite greedy_run_max.
  - cbn [Nat.leb].
    destruct (starts3 a b c (drop_while is_ws t)) as [s1|];
      destruct (starts3 d e f (drop_while is_ws t)) as [s2|];
      try destruct (forallb is_ws s1); try destruct (forallb is_ws s2); reflexivity.
  - intros _ j Hj. destruct (skipn_run_head is_ws t j) as (x & r & -> & Hx); [lia|].
    now rewrite (starts3_ws a b c x r Ha Hx), (starts3_ws d e f x r Hd Hx).
Qed.

Lemma trim_delimiter d t :
  heads_ok d -> last_ws d = false -> d <> [] ->
  (trim t = d
   <-> exists tail, drop_while is_ws t = d ++ tail /\ forallb is_ws tail = true).
Proof.
  intros Hh Hl Hne. split.
  - intros E. destruct (trim_decomposes t) as (tail & Ht & Hw).
    exists tail. split; [|exact Hw].
    pose proof (take_drop_while is_ws t) as Hs.
    rewrite Ht in Hs at 3. apply app_inv_head in Hs. now rewrite Hs, E.
  - intros (tail & E & Hw). unfold trim. rewrite E, rev_app_distr.
    assert (Hr : match rev d with [] => True | c :: _ => is_ws c = false end).
    { rewrite last_ws_rev in Hl. destruct (rev d); auto. }
    destruct (span_app is_ws (rev tail) (rev d) (forallb_rev _ _ Hw) Hr) as [_ ->].
    apply rev_involutive.
Qed.

Lemma str_eqb_true a b : str_eqb a b = true <-> a = b.
Proof. unfold str_eqb. destruct (list_eq_dec N.eq_dec a b); split; auto; discriminate. Qed.

Lemma delim_direct_trim a b c t :
  is_ws a = false -> is_ws c = false ->
  delim_direct a b c t = str_eqb (trim t) [a; b; c].
Proof.
  intros Ha Hc.
  assert (Hiff : trim t = [a; b; c]
                 <-> exists tail, drop_while is_ws t = [a; b; c] ++ tail
                                  /\ forallb is_ws tail = true).
  { apply trim_delimiter; [exact Ha | cbn; exact Hc | discriminate]. }
  unfold delim_direct.
  destruct (starts3 a b c (drop_while is_ws t)) as [tail|] eqn:E.
  - apply starts3_some in E. destruct (forallb is_ws tail) eqn:Ew.
    + symmetry. apply str_eqb_true, Hiff. now exists tail.
    + destruct (str_eqb (trim t) [a; b; c]) eqn:Es; [|reflexivity].
      apply str_eqb_true, Hiff in Es. destruct Es as (tail' & E' & Hw').
      rewrite E in E'. cbn [app] in E'. injection E' as ->. congruence.
  - destruct (str_eqb (trim t) [a; b; c]) eqn:Es; [|reflexivity].
    apply str_eqb_true, Hiff in Es. destruct Es as (tail' & E' & _).
    cbn [app] in E'. apply starts3_some in E'. congruence.
Qed.

Lemma test_delimiters t :
  test YAML_OPEN_RE t = isDelimiter "---" t
  /\ test TOML_FENCE_RE t = isDelimiter "+++" t
  /\ test YAML_CLOSE_RE t = (isDelimiter "---" t || isDelimiter "..." t).
Proof.
  unfold isDelimiter. split; [|split].
  - change YAML_OPEN_RE
      with (seqs [RBol; star ws;
                  seqs [RChar (N.eqb 45); RChar (N.eqb 45); RChar (N.eqb 45)];
                  star ws; REol]).
    rewrite test_delim3 by reflexivity. now apply delim_direct_trim.
  - change TOML_FENCE_RE
      with (seqs [RBol; star ws;
                  seqs [RChar (N.eqb 43); RChar (N.eqb 43); RChar (N.eqb 43)];
                  star ws; REol]).
    rewrite test_delim3 by reflexivity. now apply delim_direct_trim.
  - change YAML_CLOSE_RE
      with (seqs [RBol; star ws;
                  RGroup 1
                    (RAlt (seqs [RChar (N.eqb 45); RChar (N.eqb 45); RChar (N.eqb 45)])
                          (seqs [RChar (N.eqb 46); RChar (N.eqb 46); RChar (N.eqb 46)]));
                  star ws; REol]).
    rewrite test_delim3_alt by reflexivity.
    now rewrite !delim_direct_trim by reflexivity.
Qed.

(** X20.  The three delimiter tests of [getFrontMatterRange] look at the
    trimmed line only: the opening tests hold when it is [---] or [+++],
    the closing test of YAML when it is [---] or three periods. *)
Theorem front_matter_delimiters t :
  test YAML_OPEN_RE t = isDelimiter "---" t
  /\ test TOML_FENCE_RE t = isDelimiter "+++" t
  /\ test YAML_CLOSE_RE t = (isDelimiter "---" t || isDelimiter "..." t).
Proof. exact (test_delimiters t). Qed.

Lemma findFrom_skipn_is p doc i0 i :
  (0 <= i0)%Z -> (i0 <= i < lineCount doc)%Z ->
  p (textAt doc i) = true ->
  (forall l, (i0 <= l < i)%Z -> p (textAt doc l) = false) ->
  findFrom p (skipn (Z.to_nat i0) doc) i0 = Some i.
Proof.
  intros H0 Hi Hp Hb. pose proof (findFrom_skipn_spec p doc i0 H0) as Hs.
  destruct (findFrom p _ i0) as [j|].
  - destruct Hs as (Hj & Hpj & Hbj). f_equal.
    destruct (Z.lt_trichotomy j i) as [Hlt|[Heq|Hgt]]; auto.
    + rewrite Hb in Hpj by lia. discriminate.
    + rewrite Hbj in Hp by lia. discriminate.
  - rewrite (Hs i Hi) in Hp. discriminate.
Qed.

Lemma findFrom_skipn_no p doc i0 :
  (0 <= i0)%Z ->
  (forall l, (i0 <= l < lineCount doc)%Z -> p (textAt doc l) = false) ->
  findFrom p (skipn (Z.to_nat i0) doc) i0 = None.
Proof.
  intros H0 Hb. pose proof (findFrom_skipn_spec p doc i0 H0) as Hs.
  destruct (findFrom p _ i0) as [j|]; [|reflexivity].
  destruct Hs as (Hj & Hpj & _). rewrite (Hb j Hj) in Hpj. discriminate.
Qed.

(** X21.  [getFrontMatterRange] finds no front matter when the document
    has no line that is not blank, or when the first such line is not an
    opening delimiter.  Otherwise the front matter starts on that line
    and ends on the first later line that closes it, or on the last line
    of the document when no line closes it. *)
Theorem getFrontMatterRange_spec doc :
  ((forall l, (0 <= l < lineCount doc)%Z -> isBlank (textAt doc l) = true) ->
   getFrontMatterRange doc = None)
  /\ (forall first,
         (0 <= first < lineCount doc)%Z ->
         isBlank (textAt doc first) = false ->
         (forall l, (0 <= l < first)%Z -> isBlank (textAt doc l) = true) ->
         let opener := textAt doc first in
         (isOpener opener = false -> getFrontMatterRange doc = None)
         /\ (isOpener opener = true ->
             (forall i,
                 (first < i < lineCount doc)%Z ->
                 closesFrontMatter opener (textAt doc i) = true ->
                 (forall l, (first < l < i)%Z ->
                            closesFrontMatter opener (textAt doc l) = false) ->
                 getFrontMatterRange doc
                 = Some (mkRange first 0 i (len (textAt doc i))))
             /\ ((forall l, (first < l < lineCount doc)%Z ->
                            closesFrontMatter opener (textAt doc l) = false) ->
                 getFrontMatterRange doc
                 = Some (mkRange first 0 (lineCount doc - 1)
                                 (len (textAt doc (lineCount doc - 1))))))).
Proof.
  unfold getFrontMatterRange. split.
  - intros Hall. destruct (lineCount doc =? 0)%Z; [reflexivity|].
    pose proof (findFrom_skipn_no (fun t => negb (isBlank t)) doc 0 (Z.le_refl 0))
      as Hnone.
    cbn [Z.to_nat skipn] in Hnone. rewrite Hnone; [reflexivity|].
    intros l Hl. now rewrite (Hall l Hl).
  - intros first Hf Hnb Hb. cbv zeta.
    assert (E0 : (lineCount doc =? 0)%Z = false) by (apply Z.eqb_neq; lia).
    rewrite E0.
    pose proof (findFrom_skipn_is (fun t => negb (isBlank t)) doc 0 first
                  (Z.le_refl 0) Hf) as Hfirst.
    cbn [Z.to_nat skipn] in Hfirst. rewrite Hfirst;
      [|now rewrite Hnb | intros l Hl; now rewrite (Hb l Hl)].
    destruct (test_delimiters (textAt doc first)) as (Ey & Et & _).
    rewrite Ey, Et. unfold isOpener.
    assert (Hcl : forall t,
               test (if isDelimiter "---" (textAt doc first)
                     then YAML_CLOSE_RE else TOML_FENCE_RE) t
               = closesFrontMatter (textAt doc first) t).
    { intros t. unfold closesFrontMatter.
      destruct (test_delimiters t) as (_ & E2 & E3).
      now destruct (isDelimiter "---" (textAt doc first)). }
    split.
    + intros Ho. apply orb_false_iff in Ho as [-> ->]. reflexivity.
    + intros Ho.
      assert (En : negb (isDelimiter "---" (textAt doc first))
                   && negb (isDelimiter "+++" (textAt doc first)) = false).
      { rewrite <- negb_orb, Ho. reflexivity. }
      rewrite En. split.
      * intros i Hi Hc Hno.
        rewrite (findFrom_skipn_is _ doc (first + 1) i); try lia; [reflexivity| |].
        -- now rewrite Hcl.
        -- intros l Hl. rewrite Hcl. apply Hno. lia.
      * intros Hno. rewrite findFrom_skipn_no; [reflexivity | lia |].
        intros l Hl. rewrite Hcl. apply Hno. lia.
Qed.

(** ** The interactive command *)

Section CommandFacts.

Variable OtherInfo : Type.
Variable getStartLine : document -> Z -> Z.
Variable getEndLine : document -> Z -> Z.
Variable otherInfoOf : document -> Z -> OtherInfo.

Local Notation "'skipOf'" := (shouldSkipParagraph getStartLine getEndLine).
Local Notation "'reflowOf'" := (reflow OtherInfo getStartLine getEndLine otherInfoOf).

Hypothesis resolver_ok : forall doc i,
  (0 <= i < lineCount doc)%Z ->
  (0 <= getStartLine doc i <= i)%Z /\ (i <= getEndLine doc i < lineCount doc)%Z.

(** the skip policy on an extent that holds a zone line or a trigger
    line *)
Lemma shouldSkipParagraph_zone_or_trigger doc ls le settings l :
  (0 <= ls)%Z -> (ls <= l <= le)%Z -> (le < lineCount doc)%Z ->
  inZone doc l = true \/ isTriggerLine (textAt doc l) = true ->
  let fenced := getFencedCodeBlockRanges doc in
  skipOf (mkParagraphSkipContext doc ls le fenced
            (getJsxExpressionRanges doc fenced) (getFrontMatterRange doc) settings)
  = Done true.
Proof.
  intros H0 Hl H1 Hz. cbv zeta.
  destruct (shouldSkipParagraph_total getStartLine getEndLine resolver_ok doc ls le
              (getFencedCodeBlockRanges doc)
              (getJsxExpressionRanges doc (getFencedCodeBlockRanges doc))
              (getFrontMatterRange doc) settings) as ([|] & Hb); try lia;
    [exact Hb|].
  exfalso. destruct Hz as [Hz|Hz].
  - apply shouldSkipParagraph_false_zones in Hb as (Hfm & Hf & Hx & _).
    cbn [ctxLineStart ctxLineEnd ctxFencedRanges ctxJsxExprRanges] in Hf, Hx.
    unfold overlapsFrontMatter in Hfm.
    cbn [ctxFrontMatterRange ctxLineStart ctxLineEnd] in Hfm.
    revert Hz. unfold inZone. cbv zeta.
    rewrite (rangeOverlapsAny_false _ _ _ Hf l Hl),
      (rangeOverlapsAny_false _ _ _ Hx l Hl).
    unfold inFrontMatter. destruct (getFrontMatterRange doc) as [r|]; [|discriminate].
    rewrite (overlapsLines_false _ _ _ _ Hfm Hl). discriminate.
  - apply shouldSkipParagraph_false in Hb as [Hb _].
    cbn [ctxDocument ctxLineStart ctxLineEnd] in Hb.
    rewrite (Hb l Hl) in Hz. discriminate.
Qed.

(** X22.  Under the contract of the extent resolver, the command makes
    no edit when the line of the cursor lies in the front matter, in a
    fenced code block or in a bracket-expression range, or is a heading,
    an import line, a footnote or reference definition, a table line or
    a link-only list line. *)
Theorem reflow_command_declines doc position settings :
  (0 <= line position < lineCount doc)%Z ->
  inZone doc (line position) = true
  \/ isTriggerLine (textAt doc (line position)) = true ->
  reflowOf doc position settings = Done None.
Proof.
  intros Hp Hz. unfold reflow. cbv zeta.
  destruct (match getFrontMatterRange doc with
            | Some r => containsPosition r position | None => false end);
    [reflexivity|].
  destruct (findRangeContainingLine (getFencedCodeBlockRanges doc) (line position));
    [reflexivity|].
  destruct (findRangeContainingLine
              (getJsxExpressionRanges doc (getFencedCodeBlockRanges doc))
              (line position)); [reflexivity|].
  rewrite lineAt_in by exact Hp. cbn [bind].
  destruct (test ATX_HEADING_RE _); [reflexivity|].
  unfold GetStartEndInfo. cbv zeta. rewrite lineAt_in by exact Hp.
  cbn [bind lineStart lineEnd].
  destruct (resolver_ok doc (line position) Hp) as [Hs He].
  rewrite (shouldSkipParagraph_zone_or_trigger doc _ _ settings (line position));
    auto; lia.
Qed.

(** X23.  Under the contract of the extent resolver and with the cursor
    on a line of the document, the command returns.  When it makes an
    edit, the edit replaces the whole lines of the extent resolved at
    the cursor, none of which is a zone line or a trigger line, by the
    lines of [reflowLines] for the preferred line length, joined by line
    feeds. *)
Theorem reflow_command_edit doc position settings :
  (0 <= line position < lineCount doc)%Z ->
  exists o,
    reflowOf doc position settings = Done o
    /\ forall e, o = Some e ->
         let ls := getStartLine doc (line position) in
         let le := getEndLine doc (line position) in
         range e = mkRange ls 0 le (len (textAt doc le))
         /\ getText doc (range e) = join [LF] (unitLines doc ls le)
         /\ (forall l, (ls <= l <= le)%Z ->
                       inZone doc l = false
                       /\ isTriggerLine (textAt doc l) = false)
         /\ exists out,
              reflowLines doc ls le (preferredLineLength settings) = Done out
              /\ newText e = join [LF] out.
Proof.
  intros Hp. unfold reflow. cbv zeta.
  destruct (match getFrontMatterRange doc with
            | Some r => containsPosition r position | None => false end);
    [exists None; split; [reflexivity | discriminate]|].
  destruct (findRangeContainingLine (getFencedCodeBlockRanges doc) (line position));
    [exists None; split; [reflexivity | discriminate]|].
  destruct (findRangeContainingLine
              (getJsxExpressionRanges doc (getFencedCodeBlockRanges doc))
              (line position));
    [exists None; split; [reflexivity | discriminate]|].
  rewrite lineAt_in by exact Hp. cbn [bind].
  destruct (test ATX_HEADING_RE _);
    [exists None; split; [reflexivity | discriminate]|].
  unfold GetStartEndInfo. cbv zeta. rewrite lineAt_in by exact Hp.
  cbn [bind lineStart lineEnd].
  destruct (resolver_ok doc (line position) Hp) as [Hs He].
  set (ls := getStartLine doc (line position)) in *.
  set (le := getEndLine doc (line position)) in *.
  destruct (shouldSkipParagraph_total getStartLine getEndLine resolver_ok doc ls le
              (getFencedCodeBlockRanges doc)
              (getJsxExpressionRanges doc (getFencedCodeBlockRanges doc))
              (getFrontMatterRange doc) settings) as (b & Hb); try lia.
  rewrite Hb. cbn [bind]. destruct b;
    [exists None; split; [reflexivity | discriminate]|].
  unfold reflowCommandLines.
  rewrite reflowLines_unit by lia. cbn [bind].
  rewrite lineAt_in by lia. cbn [bind].
  rewrite newRange_nonneg; try lia; [|apply len_nonneg]. cbn [bind].
  eexists. split; [reflexivity|]. intros e He'. injection He' as <-.
  cbn [range newText]. split; [reflexivity|].
  split; [apply getText_whole_lines; lia|]. split.
  - intros l Hl. split.
    + destruct (inZone doc l) eqn:Ez; [|reflexivity].
      rewrite (shouldSkipParagraph_zone_or_trigger doc ls le settings l) in Hb;
        auto; try lia. discriminate.
    + destruct (isTriggerLine (textAt doc l)) eqn:Et; [|reflexivity].
      rewrite (shouldSkipParagraph_zone_or_trigger doc ls le settings l) in Hb;
        auto; try lia. discriminate.
  - eexists. split; reflexivity.
Qed.

End CommandFacts.

Lemma reflow_command_declines_witness :
  (forall d i, (0 <= i < lineCount d)%Z ->
               (0 <= sampleStartLine d i <= i)%Z
               /\ (i <= sampleEndLine d i < lineCount d)%Z)
  /\ (0 <= line (mkPosition 6 3) < lineCount docMixed)%Z
  /\ inZone docMixed (line (mkPosition 6 3)) = true
  /\ reflow unit sampleStartLine sampleEndLine sampleOtherInfo docMixed
            (mkPosition 6 3) sampleSettings = Done None.
Proof.
  assert (H1 : (0 <= line (mkPosition 6 3) < lineCount docMixed)%Z)
    by (vm_compute; split; [discriminate | reflexivity]).
  assert (H2 : inZone docMixed (line (mkPosition 6 3)) = true)
    by (vm_compute; reflexivity).
  split; [exact sample_resolver_ok|]. split; [exact H1|]. split; [exact H2|].
  exact (reflow_command_declines unit sampleStartLine sampleEndLine sampleOtherInfo
           sample_resolver_ok docMixed (mkPosition 6 3) sampleSettings H1
           (or_introl H2)).
Defined.

Lemma reflow_command_edit_witness :
  let position := mkPosition 3 2 in
  (forall d i, (0 <= i < lineCount d)%Z ->
               (0 <= sampleStartLine d i <= i)%Z
               /\ (i <= sampleEndLine d i < lineCount d)%Z)
  /\ (0 <= line position < lineCount docMixed)%Z
  /\ exists o,
       reflow unit sampleStartLine sampleEndLine sampleOtherInfo docMixed
              position sampleSettings = Done o
       /\ forall e, o = Some e ->
            let ls := sampleStartLine docMixed (line position) in
            let le := sampleEndLine docMixed (line position) in
            range e = mkRange ls 0 le (len (textAt docMixed le))
            /\ getText docMixed (range e) = join [LF] (unitLines docMixed ls le)
            /\ (forall l, (ls <= l <= le)%Z ->
                          inZone docMixed l = false
                          /\ isTriggerLine (textAt docMixed l) = false)
            /\ exists out,
                 reflowLines docMixed ls le (preferredLineLength sampleSettings)
                 = Done out
                 /\ newText e = join [LF] out.
Proof.
  intros position.
  assert (H1 : (0 <= line position < lineCount docMixed)%Z)
    by (vm_compute; split; [discriminate | reflexivity]).
  split; [exact sample_resolver_ok|]. split; [exact H1|].
  exact (reflow_command_edit unit sampleStartLine sampleEndLine sampleOtherInfo
           sample_resolver_ok docMixed position sampleSettings H1).
Defined.

Example command_on_sample_document :
  reflow unit sampleStartLine sampleEndLine sampleOtherInfo docMixed
         (mkPosition 3 2) sampleSettings
  = Done (Some (mkTextEdit (mkRange 2 0 3 8)
                  (str_of "The quick brown fox
jumps over the lazy
dog and more")))
  /\ reflow unit sampleStartLine sampleEndLine sampleOtherInfo docMixed
            (mkPosition 0 0) sampleSettings = Done None
  /\ reflow unit sampleStartLine sampleEndLine sampleOtherInfo docMixed
            (mkPosition 10 4) sampleSettings = Done None.
Proof. vm_compute. repeat split; reflexivity. Qed.

(** ** Bounded repetition and the expressions that use it *)

Lemma rep_loop_chr_upto p c k s :
  forall fuel lo hi pos, (length s < fuel)%nat ->
    rep_loop (rmatch (RChar p)) true fuel lo (Some hi) pos s c k
    = greedy_upto p k c lo hi pos s.
Proof.
  induction s as [|x s IH]; intros fuel lo hi pos Hf;
    (destruct fuel as [|fuel]; [simpl in Hf; lia|]).
  - destruct hi; destruct lo; reflexivity.
  - destruct hi as [|hi].
    + cbn [rep_loop hi_open greedy_upto]. destruct lo; reflexivity.
    + cbn [rep_loop hi_open hi_pred pred rmatch greedy_upto]. destruct (p x).
      * assert (E : (pos <? S pos) = true) by (apply Nat.ltb_lt; lia).
        rewrite E. rewrite IH by (simpl in Hf; lia).
        destruct lo; [reflexivity | now rewrite orelse_none_r].
      * destruct lo; reflexivity.
Qed.

Lemma rmatch_rep_upto lo hi p pos s c k :
  rmatch (RRep lo (Some hi) true (RChar p)) pos s c k = greedy_upto p k c lo hi pos s.
Proof. cbn [rmatch]. apply rep_loop_chr_upto. lia. Qed.

Lemma greedy_upto_ext p k k' c lo hi pos s :
  (forall p' s' c', k p' s' c' = k' p' s' c') ->
  greedy_upto p k c lo hi pos s = greedy_upto p k' c lo hi pos s.
Proof.
  intros Hk. revert lo hi pos. induction s as [|x s IH]; intros lo hi pos.
  - destruct hi; cbn [greedy_upto]; now rewrite Hk.
  - destruct hi as [|hi]; cbn [greedy_upto]; rewrite Hk; [reflexivity|].
    now rewrite IH.
Qed.

(** a bounded run before something that cannot start with a character of
    the run: only the whole run is a candidate *)
Lemma greedy_upto_strict p k c s :
  forall lo hi pos,
    (forall j x r, skipn j s = x :: r -> p x = true ->
                   k (pos + j)%nat (x :: r) c = None) ->
    greedy_upto p k c lo hi pos s
    = if (lo <=? run p s)%nat && (run p s <=? hi)%nat
      then k (pos + run p s)%nat (drop_while p s) c
      else None.
Proof.
  unfold run. induction s as [|x s IH]; intros lo hi pos H.
  - cbn [take_while drop_while length]. rewrite Nat.add_0_r.
    destruct hi; destruct lo; reflexivity.
  - cbn [take_while drop_while]. destruct (p x) eqn:E.
    + cbn [length].
      assert (Hhere : match lo with O => k pos (x :: s) c | S _ => None end = None).
      { destruct lo; [|reflexivity]. specialize (H 0%nat x s eq_refl E).
        now rewrite Nat.add_0_r in H. }
      destruct hi as [|hi]; cbn [greedy_upto].
      * rewrite Hhere. cbn [Nat.leb]. now rewrite andb_false_r.
      * rewrite E, Hhere, orelse_none_r, IH.
        -- replace (S pos + length (take_while p s))%nat
             with (pos + S (length (take_while p s)))%nat by lia.
           destruct lo; reflexivity.
        -- intros j y r Hj Hy. replace (S pos + j)%nat with (pos + S j)%nat by lia.
           apply H; auto.
    + cbn [length]. rewrite Nat.add_0_r.
      destruct hi; destruct lo; cbn [greedy_upto]; rewrite ?E; reflexivity.
Qed.

(** the same for an unbounded run *)
Lemma greedy_run_strict p k c s lo pos :
  (forall j x r, skipn j s = x :: r -> p x = true ->
                 k (pos + j)%nat (x :: r) c = None) ->
  greedy_run p k c lo pos s
  = if (lo <=? run p s)%nat then k (pos + run p s)%nat (drop_while p s) c else None.
Proof.
  intros H. apply greedy_run_max. intros _ j Hj.
  destruct (skipn_run_head p s j) as (x & r & E & Hx); [lia|].
  rewrite E. now apply H.
Qed.

(** *** [ATX_HEADING_RE] *)

Lemma hash_not_ws x : is_chr "#" x = true -> is_ws x = false.
Proof. char_fact. Qed.

Lemma ws_not_hash x : is_ws x = true -> is_chr "#" x = false.
Proof. char_fact. Qed.

Lemma run_ws_head p x r : p x = false -> run p (x :: r) = 0%nat.
Proof. unfold run. cbn [take_while]. now intros ->. Qed.

(** X24.  A line is a heading for [ATX_HEADING_RE] exactly when it
    starts with at most three white space characters followed by one to
    six hash signs, after which the line ends or white space follows. *)
Theorem heading_test_direct t : test ATX_HEADING_RE t = atx_direct t.
Proof.
  unfold test, atx_direct. cbv zeta.
  change ATX_HEADING_RE
    with (RSeq RBol (RSeq (between 0 3 ws)
                          (RSeq (between 1 6 (lit "#")) (RAlt ws REol)))).
  rewrite exec_bol, rmatch_seq. unfold between at 1, ws at 1.
  rewrite rmatch_rep_upto.
  set (k2 := fun (pos' : nat) (s' : str) (c' : caps) =>
               if (1 <=? run (is_chr "#") s')%nat && (run (is_chr "#") s' <=? 6)%nat
               then match drop_while (is_chr "#") s' with
                    | [] => Some c'
                    | x :: _ => if is_ws x then Some c' else None
                    end
               else None).
  rewrite (greedy_upto_ext is_ws _ k2).
  2:{ intros p' s' c'. subst k2. cbv beta.
      rewrite rmatch_seq. unfold between, lit. rewrite rmatch_rep_upto.
      rewrite greedy_upto_strict.
      - destruct (_ && _); [|reflexivity].
        rewrite rmatch_alt. unfold ws. rewrite rmatch_chr, rmatch_eol.
        destruct (drop_while (is_chr "#") s') as [|x r]; [reflexivity|].
        unfold kfin. now destruct (is_ws x).
      - intros j x r _ Hx. rewrite rmatch_alt. unfold ws.
        rewrite rmatch_chr, rmatch_eol. now rewrite (hash_not_ws x Hx). }
  rewrite greedy_upto_strict.
  - cbn [Nat.leb andb]. destruct (run is_ws t <=? 3)%nat; [|reflexivity].
    subst k2. cbv beta. cbn [andb].
    destruct (_ && _); [|reflexivity].
    destruct (drop_while (is_chr "#") (drop_while is_ws t)) as [|x r]; [reflexivity|].
    now destruct (is_ws x).
  - intros j x r _ Hx. subst k2. cbv beta.
    now rewrite (run_ws_head _ x r (ws_not_hash x Hx)).
Qed.

(** *** [TRIPLE_COLON_RE] *)

(** X25.  [lineStartsWithTripleColon] holds exactly for the lines whose
    first three characters after the leading white space are colons. *)
Theorem triple_colon_test_direct t :
  lineStartsWithTripleColon t = true
  <-> exists tail, drop_while is_ws t = str_of ":::" ++ tail.
Proof.
  unfold lineStartsWithTripleColon, test.
  change TRIPLE_COLON_RE
    with (RSeq RBol (RSeq (star ws)
            (seqs [RChar (N.eqb 58); RChar (N.eqb 58); RChar (N.eqb 58)]))).
  rewrite exec_bol, rmatch_seq. unfold star, ws. rewrite rmatch_rep_chr.
  rewrite (greedy_run_ext is_ws _ (fun pos' s' c' =>
             match starts3 58%N 58%N 58%N s' with Some _ => Some c' | None => None end)).
  2:{ intros p' s' c'. rewrite rmatch_lit3.
      now destruct (starts3 58%N 58%N 58%N s'). }
  rewrite greedy_run_strict.
  - cbn [Nat.leb]. destruct (starts3 58%N 58%N 58%N (drop_while is_ws t)) as [tail|] eqn:E.
    + apply starts3_some in E. split; [|reflexivity]. intros _. now exists tail.
    + split; [discriminate|]. intros (tail & Ht).
      change (str_of ":::" ++ tail) with (58%N :: 58%N :: 58%N :: tail) in Ht.
      apply starts3_some in Ht. congruence.
  - intros j x r _ Hx. now rewrite (starts3_ws 58%N 58%N 58%N x r eq_refl Hx).
Qed.

(** *** [openRe] and [closeRe] *)

Lemma ws_not_tick x : is_ws x = true -> is_chr "`" x = false.
Proof. char_fact. Qed.

Lemma ws_not_tilde x : is_ws x = true -> is_chr "~" x = false.
Proof. char_fact. Qed.

Lemma take_while_chr a s :
  take_while (is_chr a) s = repeat (chr a) (run (is_chr a) s).
Proof.
  unfold run. induction s as [|x s IH]; [reflexivity|]. cbn [take_while].
  destruct (is_chr a x) eqn:E; [|reflexivity].
  cbn [length repeat]. unfold is_chr in E. apply N.eqb_eq in E. now rewrite <- IH, E.
Qed.

(** a run of at least [lo] characters at the end of the expression *)
Lemma rmatch_run_group lo a pos s c :
  rmatch (at_least lo (lit a)) pos s c
    (fun pos' s' c' => kfin pos' s' ((1, firstn (pos' - pos) s) :: c'))
  = if (lo <=? run (is_chr a) s)%nat
    then Some ((1, repeat (chr a) (run (is_chr a) s)) :: c)
    else None.
Proof.
  unfold at_least, lit. rewrite rmatch_rep_chr, greedy_run_max.
  - fold (run (is_chr a) s). destruct (_ <=? _)%nat; [|reflexivity].
    unfold kfin, run. rewrite add_sub_l, firstn_run.
    rewrite (take_while_chr a s) at 1. reflexivity.
  - discriminate.
Qed.

Lemma exec_openRe t :
  exec openRe t
  = match fenceOf t with
    | Some (ch, n) => Some [(1, repeat ch n)]
    | None => None
    end.
Proof.
  unfold fenceOf. cbv zeta.
  change openRe
    with (RSeq RBol (RSeq (between 0 3 ws)
            (RGroup 1 (RAlt (at_least 3 (lit "`")) (at_least 3 (lit "~")))))).
  rewrite exec_bol, rmatch_seq. unfold between, ws. rewrite rmatch_rep_upto.
  set (k2 := fun (pos' : nat) (s' : str) (c' : caps) =>
               if (3 <=? run (is_chr "`") s')%nat
               then Some ((1, repeat (chr "`") (run (is_chr "`") s')) :: c')
               else if (3 <=? run (is_chr "~") s')%nat
                    then Some ((1, repeat (chr "~") (run (is_chr "~") s')) :: c')
                    else None).
  rewrite (greedy_upto_ext is_ws _ k2).
  2:{ intros p' s' c'. subst k2. cbv beta.
      rewrite rmatch_group, rmatch_alt, !rmatch_run_group.
      now destruct (3 <=? run (is_chr "`") s')%nat. }
  rewrite greedy_upto_strict.
  - change (0 <=? run is_ws t)%nat with true. cbn [andb].
    destruct (run is_ws t <=? 3)%nat; [|reflexivity].
    subst k2. cbv beta.
    destruct (3 <=? run (is_chr "`") (drop_while is_ws t))%nat; [reflexivity|].
    now destruct (3 <=? run (is_chr "~") (drop_while is_ws t))%nat.
  - intros j x r _ Hx. subst k2. cbv beta.
    now rewrite (run_ws_head _ x r (ws_not_tick x Hx)),
      (run_ws_head _ x r (ws_not_tilde x Hx)).
Qed.

Lemma test_closeRe fc fl t :
  is_ws fc = false -> (1 <= fl)%nat ->
  test (closeRe fc fl) t = closes_direct fc fl t.
Proof.
  intros Hfc Hfl. unfold test, closes_direct. cbv zeta.
  change (closeRe fc fl)
    with (RSeq RBol (RSeq (between 0 3 ws)
            (RSeq (at_least fl (RChar (N.eqb fc))) (RSeq (star ws) REol)))).
  rewrite exec_bol, rmatch_seq. unfold between, ws at 1. rewrite rmatch_rep_upto.
  assert (Hnot : forall x, N.eqb fc x = true -> is_ws x = false).
  { intros x E. apply N.eqb_eq in E. now subst x. }
  set (k2 := fun (pos' : nat) (s' : str) (c' : caps) =>
               if (fl <=? run (N.eqb fc) s')%nat
               then if forallb is_ws (drop_while (N.eqb fc) s')
                    then Some c' else None
               else None).
  rewrite (greedy_upto_ext is_ws _ k2).
  2:{ intros p' s' c'. subst k2. cbv beta.
      rewrite rmatch_seq. unfold at_least. rewrite rmatch_rep_chr.
      rewrite (greedy_run_ext (N.eqb fc) _ (fun _ s'' c'' =>
                 if forallb is_ws s'' then Some c'' else None))
        by (intros; apply rmatch_ws_eol).
      rewrite greedy_run_strict; [reflexivity|].
      intros j x r _ Hx. cbn [forallb]. now rewrite (Hnot x Hx). }
  rewrite greedy_upto_strict.
  - change (0 <=? run is_ws t)%nat with true. cbn [andb].
    destruct (run is_ws t <=? 3)%nat; [|reflexivity].
    subst k2. cbv beta. cbn [andb].
    destruct (fl <=? run (N.eqb fc) (drop_while is_ws t))%nat; [|reflexivity].
    now destruct (forallb is_ws _).
  - intros j x r _ Hx. subst k2. cbv beta.
    assert (E : N.eqb fc x = false).
    { destruct (N.eqb fc x) eqn:E; [|reflexivity].
      rewrite (Hnot x E) in Hx. discriminate. }
    rewrite (run_ws_head _ x r E).
    destruct fl; [lia | reflexivity].
Qed.

Lemma fenceOf_some t ch n :
  fenceOf t = Some (ch, n) -> is_ws ch = false /\ (3 <= n)%nat.
Proof.
  unfold fenceOf. cbv zeta. destruct (_ <=? 3)%nat; [|discriminate].
  destruct (3 <=? run (is_chr "`") _)%nat eqn:E1.
  - intros H; inversion H; subst. apply Nat.leb_le in E1. split; [reflexivity | exact E1].
  - destruct (3 <=? run (is_chr "~") _)%nat eqn:E2; [|discriminate].
    intros H; inversion H; subst. apply Nat.leb_le in E2. split; [reflexivity | exact E2].
Qed.

(** X26.  A line opens a fence exactly when, after at most three white
    space characters, it holds a run of at least three backticks or, if
    not, of at least three tildes; the captured fence is that run.  A
    line closes the fence of an opener exactly when, after at most three
    white space characters, it holds a run of the opener's character at
    least as long as the opener's run, followed by white space only. *)
Theorem fence_tests_direct :
  (forall t,
      exec openRe t
      = match fenceOf t with
        | Some (ch, n) => Some [(1, repeat ch n)]
        | None => None
        end)
  /\ (forall opener t,
         closesFence opener t
         = match fenceOf opener with
           | Some (ch, n) => closes_direct ch n t
           | None => false
           end).
Proof.
  split; [exact exec_openRe|]. intros opener t. unfold closesFence.
  rewrite exec_openRe. destruct (fenceOf opener) as [[ch n]|] eqn:E; [|reflexivity].
  destruct (fenceOf_some _ _ _ E) as [Hch Hn].
  cbn [group Nat.eqb]. rewrite repeat_length.
  destruct n as [|n]; [lia|]. cbn [repeat nth].
  apply test_closeRe; [exact Hch | lia].
Qed.

Example fences_on_sample_lines :
  fenceOf (str_of "  ````js") = Some (chr "`", 4%nat)
  /\ fenceOf (str_of "    ```") = None
  /\ fenceOf (str_of "~~") = None
  /\ closesFence (str_of "````js") (str_of "```") = false
  /\ closesFence (str_of "````js") (str_of " `````  ") = true
  /\ closesFence (str_of "````js") (str_of "```` x") = false
  /\ closesFence (str_of "~~~") (str_of "```") = false.
Proof. vm_compute. repeat split; reflexivity. Qed.

(** ** The skip policy as a decision *)

Lemma anyLineFrom_spec p doc n :
  forall a, (0 <= a)%Z -> (a + Z.of_nat n <= lineCount doc)%Z ->
    anyLineFrom p doc a n = Done (existsb p (firstn n (skipn (Z.to_nat a) doc))).
Proof.
  unfold lineCount.
  induction n as [|n IH]; intros a H0 H1; [reflexivity|].
  cbn [anyLineFrom]. rewrite lineAt_in by (unfold lineCount; lia). cbn [bind].
  rewrite (@skipn_nth str [] doc (Z.to_nat a)) by lia. cbn [firstn existsb].
  destruct (p (nth (Z.to_nat a) doc [])); [reflexivity|]. cbn [orb].
  rewrite IH by lia.
  now replace (Z.to_nat (a + 1)) with (S (Z.to_nat a)) by lia.
Qed.

Lemma anyLine_spec p doc a b :
  (0 <= a)%Z -> (a <= b)%Z -> (b < lineCount doc)%Z ->
  anyLine p doc a b = Done (existsb p (unitLines doc a b)).
Proof.
  intros. unfold anyLine, unitLines. apply anyLineFrom_spec; unfold trips; lia.
Qed.

Lemma existsb_orb {A} (p q : A -> bool) l :
  existsb (fun x => p x || q x) l = existsb p l || existsb q l.
Proof.
  induction l as [|x l IH]; [reflexivity|]. cbn [existsb]. rewrite IH.
  destruct (p x), (q x), (existsb p l), (existsb q l); reflexivity.
Qed.

Section SkipDecision.

Variable getStartLine : document -> Z -> Z.
Variable getEndLine : document -> Z -> Z.

Local Notation "'skipOf'" := (shouldSkipParagraph getStartLine getEndLine).

Hypothesis resolver_ok : forall doc i,
  (0 <= i < lineCount doc)%Z ->
  (0 <= getStartLine doc i <= i)%Z /\ (i <= getEndLine doc i < lineCount doc)%Z.

(** X27.  Under the contract of the extent resolver and on an extent of
    lines of the document, [shouldSkipParagraph] returns, and it answers
    yes exactly when the extent meets the front matter, a fenced range or
    a bracket-expression range, or holds a trigger line, or meets the
    protected first paragraph, or is a single line that starts with
    three colons or consists of one tag or one comment. *)
Theorem shouldSkipParagraph_decides doc ls le fenced jsx fm settings :
  (0 <= ls)%Z -> (ls <= le)%Z -> (le < lineCount doc)%Z ->
  let ctx := mkParagraphSkipContext doc ls le fenced jsx fm settings in
  exists first,
    overlapsFirstParagraph getStartLine getEndLine ctx = Done first
    /\ skipOf ctx
       = Done (overlapsFrontMatter ctx
               || rangeOverlapsAny ls le fenced
               || rangeOverlapsAny ls le jsx
               || existsb isTriggerLine (unitLines doc ls le)
               || first
               || ((ls =? le)%Z
                   && (lineStartsWithTripleColon (textAt doc ls)
                       || lineIsXmlTagOnly (textAt doc ls)))).
Proof.
  intros H0 H1 H2. cbv zeta.
  assert (E6 : exists b, overlapsFirstParagraph getStartLine getEndLine
                 (mkParagraphSkipContext doc ls le fenced jsx fm settings) = Done b).
  { unfold overlapsFirstParagraph. cbn [ctxSettings ctxDocument].
    destruct (neverReflowFirstParagraph settings); [|now exists false].
    destruct (getFirstContentParagraphRange_total getStartLine getEndLine
                resolver_ok doc) as (r & ->). cbn [bind].
    destruct r; eauto. }
  destruct E6 as (first & Hfirst). exists first. split; [exact Hfirst|].
  unfold shouldSkipParagraph. cbv zeta.
  cbn [ctxDocument ctxLineStart ctxLineEnd ctxFencedRanges ctxJsxExprRanges].
  unfold paragraphHasAtxHeading, paragraphHasMdxImport, paragraphHasFootnoteDef,
    paragraphHasMarkdownTable, paragraphHasListLinkOnly, singleLine.
  rewrite !anyLine_spec, Hfirst by assumption.
  assert (Et : existsb isTriggerLine (unitLines doc ls le)
               = existsb (test ATX_HEADING_RE) (unitLines doc ls le)
                 || existsb (test MDX_IMPORT_RE) (unitLines doc ls le)
                 || existsb (test FOOTNOTE_DEF_RE) (unitLines doc ls le)
                 || existsb (fun t => test MD_TABLE_SEPARATOR_RE t
                                      || test MD_TABLE_ROW_RE t) (unitLines doc ls le)
                 || existsb (test LIST_LINK_ONLY_RE) (unitLines doc ls le)).
  { unfold isTriggerLine. now rewrite !existsb_orb. }
  rewrite Et.
  destruct (overlapsFrontMatter _); [reflexivity|].
  destruct (rangeOverlapsAny ls le fenced); [reflexivity|].
  destruct (rangeOverlapsAny ls le jsx); [reflexivity|].
  cbn [orb bind].
  destruct (existsb (test ATX_HEADING_RE) _); [reflexivity|].
  destruct (existsb (test MDX_IMPORT_RE) _); [reflexivity|].
  destruct (existsb (test FOOTNOTE_DEF_RE) _); [reflexivity|].
  destruct (existsb (fun t => test MD_TABLE_SEPARATOR_RE t || test MD_TABLE_ROW_RE t) _);
    [reflexivity|].
  destruct (existsb (test LIST_LINK_ONLY_RE) _); [reflexivity|].
  cbn [orb bind]. destruct first; [reflexivity|]. cbn [orb].
  destruct (ls =? le)%Z; [|reflexivity].
  rewrite lineAt_in by lia. cbn [bind andb]. fold (textAt doc ls).
  destruct (lineStartsWithTripleColon (textAt doc ls)); [reflexivity|].
  cbn [orb]. now destruct (lineIsXmlTagOnly (textAt doc ls)).
Qed.

End SkipDecision.

Lemma shouldSkipParagraph_decides_witness :
  let fenced := getFencedCodeBlockRanges docMixed in
  let jsx := getJsxExpressionRanges docMixed fenced in
  let ctx := mkParagraphSkipContext docMixed 2 3 fenced jsx None sampleSettings in
  (forall d i, (0 <= i < lineCount d)%Z ->
               (0 <= sampleStartLine d i <= i)%Z
               /\ (i <= sampleEndLine d i < lineCount d)%Z)
  /\ (0 <= 2)%Z /\ (2 <= 3)%Z /\ (3 < lineCount docMixed)%Z
  /\ exists first,
       overlapsFirstParagraph sampleStartLine sampleEndLine ctx = Done first
       /\ shouldSkipParagraph sampleStartLine sampleEndLine ctx
          = Done (overlapsFrontMatter ctx
                  || rangeOverlapsAny 2 3 fenced
                  || rangeOverlapsAny 2 3 jsx
                  || existsb isTriggerLine (unitLines docMixed 2 3)
                  || first
                  || ((2 =? 3)%Z
                      && (lineStartsWithTripleColon (textAt docMixed 2)
                          || lineIsXmlTagOnly (textAt docMixed 2)))).
Proof.
  intros fenced jsx ctx.
  assert (H0 : (0 <= 2)%Z) by lia.
  assert (H1 : (2 <= 3)%Z) by lia.
  assert (H2 : (3 < lineCount docMixed)%Z) by (vm_compute; reflexivity).
  split; [exact sample_resolver_ok|].
  split; [exact H0|]. split; [exact H1|]. split; [exact H2|].
  exact (shouldSkipParagraph_decides sampleStartLine sampleEndLine
           sample_resolver_ok docMixed 2 3 fenced jsx None sampleSettings H0 H1 H2).
Defined.

(** ** Block quotes are reflowed once *)

(** the lines written for a block quote are block quote lines *)
Lemma quote_lines_stable first lines :
  type (getLineContext first) = TBlockquote ->
  Forall filled lines ->
  forall i,
    mapi_from (fun _ line => type (getLineContext line)) i
              (mapi_from (addPrefix (getLineContext first)) i lines)
    = mapi_from (fun index _ => emittedType (type (getLineContext first)) index) i
                (mapi_from (addPrefix (getLineContext first)) i lines).
Proof.
  intros Ht. destruct (getLineContext_quote first Ht) as [Hn Hm].
  pose proof (context_indent_ws first) as Hi.
  induction 1 as [|l lines Hl _ IH]; intros i; [reflexivity|].
  cbn [mapi_from]. rewrite IH. f_equal.
  rewrite Ht. cbn [emittedType]. unfold addPrefix. rewrite Ht.
  now rewrite (classify_quote _ _ l Hi Hn Hm Hl).
Qed.

(** reflowing the lines of a result whose lines keep their block type *)
Lemma reflowTexts_again first cs L :
  let out := reflowTexts first cs L in
  stable (type (getLineContext first)) out ->
  reflowLines (linesOfText out) 0 (lineCount (linesOfText out) - 1) L = Done out.
Proof.
  cbv zeta.
  destruct (reflowTexts_shape first cs L)
    as [[E _]|(segs & E & Hc & Hg & Hne & Hw & Hfill)]; rewrite E.
  - intros _. cbn [linesOfText]. unfold reflowLines. cbn [lineAt lineCount length].
    simpl. rewrite getLineContext_nil. reflexivity.
  - intros Hst. unfold stable, mapi in Hst.
    destruct (concat_clean _ segs Hg Hne) as (Hcl & Hcne & Hsne).
    pose proof (good_filled _ segs Hg) as Hfl.
    pose proof (contents_stable first _ Hfl 0%nat Hst) as Hcont.
    destruct segs as [|seg segs]; [congruence|].
    cbn [map mapi mapi_from] in *. cbn [linesOfText].
    set (o0 := addPrefix (getLineContext first) 0 (join [SP] seg)) in *.
    set (os := mapi_from (addPrefix (getLineContext first)) 1 (map (join [SP]) segs)) in *.
    rewrite reflowLines_unit; try (unfold lineCount; simpl length; lia).
    f_equal. unfold unitLines, trips, lineCount. cbn [Z.to_nat skipn nth].
    replace (Z.to_nat (Z.of_nat (length (o0 :: os)) - 1 - 0 + 1))
      with (length (o0 :: os)) by lia.
    rewrite firstn_all. unfold reflowTexts. rewrite Hcont.
    injection Hst as Hty _.
    inversion Hfl as [|? ? Hf0 _]; subst.
    destruct (emitted_context first 0 (join [SP] seg) Hf0 Hty) as [_ Hctx].
    destruct (Hctx eq_refl) as (Ht & Hi & Hp). fold o0 in Ht, Hi, Hp.
    destruct (addPrefix_ext (getLineContext o0) (getLineContext first) 0 [] Ht Hi Hp)
      as [_ Hpl].
    rewrite Hpl.
    change (join [SP] seg :: map (join [SP]) segs)
      with (map (join [SP]) (seg :: segs)).
    rewrite (join_concat [SP] (seg :: segs) Hsne).
    rewrite (trim_join_words _ Hcl Hcne), (split_join_words _ Hcl Hcne), Hfill.
    unfold mapi. cbn [map mapi_from].
    rewrite (mapi_from_ext (addPrefix (getLineContext o0))
                           (addPrefix (getLineContext first))).
    + destruct (addPrefix_ext (getLineContext o0) (getLineContext first) 0
                  (join [SP] seg) Ht Hi Hp) as [-> _]. reflexivity.
    + intros i x. now destruct (addPrefix_ext (getLineContext o0)
                                  (getLineContext first) i x Ht Hi Hp).
Qed.

(** X28.  Reflowing a block quote is idempotent: when the first line of
    the unit is a block quote line, [reflowLines] applied to the text it
    produced, with the same line length, returns the same lines. *)
Theorem reflowLines_idempotent_on_block_quotes doc s e L :
  (0 <= s)%Z -> (s <= e)%Z -> (e < lineCount doc)%Z ->
  type (getLineContext (nth (Z.to_nat s) doc [])) = TBlockquote ->
  exists out,
    reflowLines doc s e L = Done out
    /\ reflowLines (linesOfText out) 0 (lineCount (linesOfText out) - 1) L
       = Done out.
Proof.
  intros H0 H1 H2 Ht. eexists. split; [now apply reflowLines_unit|].
  apply reflowTexts_again.
  set (first := nth (Z.to_nat s) doc []) in *.
  set (cs := contents (unitLines doc s e)).
  destruct (reflowTexts_shape first cs L)
    as [[E _]|(segs & E & _ & Hg & _)]; rewrite E; [reflexivity|].
  unfold stable, mapi. apply quote_lines_stable; [exact Ht|].
  exact (good_filled _ segs Hg).
Qed.

Lemma reflowLines_idempotent_on_block_quotes_witness :
  (0 <= 0)%Z /\ (0 <= 1)%Z /\ (1 < lineCount docQuote)%Z
  /\ type (getLineContext (nth (Z.to_nat 0) docQuote [])) = TBlockquote
  /\ exists out,
       reflowLines docQuote 0 1 3 = Done out
       /\ reflowLines (linesOfText out) 0 (lineCount (linesOfText out) - 1) 3
          = Done out.
Proof.
  assert (H2 : (1 < lineCount docQuote)%Z) by (vm_compute; reflexivity).
  assert (Ht : type (getLineContext (nth (Z.to_nat 0) docQuote [])) = TBlockquote)
    by (vm_compute; reflexivity).
  split; [lia|]. split; [lia|]. split; [exact H2|]. split; [exact Ht|].
  exact (reflowLines_idempotent_on_block_quotes docQuote 0 1 3
           (Z.le_refl 0) Z.le_0_1 H2 Ht).
Defined.

(** ** A full pass leaves no changed unit behind *)

Lemma inZone_in_range doc l :
  (exists r, getFrontMatterRange doc = Some r
             /\ (line (start r) <= l <= line (end_ r))%Z)
  \/ (exists r, In r (getFencedCodeBlockRanges doc)
                /\ (line (start r) <= l <= line (end_ r))%Z)
  \/ (exists r, In r (getJsxExpressionRanges doc (getFencedCodeBlockRanges doc))
                /\ (line (start r) <= l <= line (end_ r))%Z) ->
  inZone doc l = true.
Proof.
  unfold inZone. cbv zeta. intros [(r & E & Hr)|[(r & Hin & Hr)|(r & Hin & Hr)]].
  - unfold inFrontMatter. rewrite E.
    assert (Ec : containsLine l r = true).
    { unfold containsLine. apply andb_true_iff. split; [apply Z.geb_le | apply Z.leb_le]; lia. }
    now rewrite Ec.
  - destruct (findRangeContainingLine (getFencedCodeBlockRanges doc) l) eqn:E.
    + now destruct (inFrontMatter _ l).
    + exfalso. exact (find_containsLine_none _ _ r E Hin Hr).
  - destruct (findRangeContainingLine
                (getJsxExpressionRanges doc (getFencedCodeBlockRanges doc)) l) eqn:E.
    + destruct (inFrontMatter _ l); [reflexivity|].
      now destruct (findRangeContainingLine (getFencedCodeBlockRanges doc) l).
    + exfalso. exact (find_containsLine_none _ _ r E Hin Hr).
Qed.

Lemma inFrontMatter_range fm i r :
  inFrontMatter fm i = Some r ->
  fm = Some r /\ (line (start r) <= i <= line (end_ r))%Z.
Proof.
  unfold inFrontMatter. destruct fm as [r'|]; [|discriminate].
  destruct (containsLine i r') eqn:E; [|discriminate].
  intros H; inversion H; subst. unfold containsLine in E. split; [reflexivity | lia].
Qed.

Section PlannerComplete.

Variable OtherInfo : Type.
Variable getStartLine : document -> Z -> Z.
Variable getEndLine : document -> Z -> Z.
Variable otherInfoOf : document -> Z -> OtherInfo.
Variable getReflowedText : StartEndInfo OtherInfo -> str -> Settings -> str.

Local Notation "'skipOf'" := (shouldSkipParagraph getStartLine getEndLine).
Local Notation "'stepOf'" :=
  (planStep OtherInfo getStartLine getEndLine otherInfoOf getReflowedText).
Local Notation "'loopOf'" :=
  (planLoop OtherInfo getStartLine getEndLine otherInfoOf getReflowedText).
Local Notation "'editsOf'" :=
  (computeReflowEdits OtherInfo getStartLine getEndLine otherInfoOf getReflowedText).

Hypothesis resolver_ok : forall doc i,
  (0 <= i < lineCount doc)%Z ->
  (0 <= getStartLine doc i <= i)%Z /\ (i <= getEndLine doc i < lineCount doc)%Z.

Local Notation "'servedOf'" :=
  (served OtherInfo getStartLine getEndLine otherInfoOf getReflowedText).

Lemma served_mono doc settings edits o l :
  servedOf doc settings edits l -> servedOf doc settings (pushEdit edits o) l.
Proof.
  unfold served. cbv zeta. intros H Hs. destruct (H Hs) as (j & Hj & Hin).
  exists j. split; [exact Hj|]. intros Hne. specialize (Hin Hne).
  destruct o; cbn [pushEdit]; [now apply in_snoc | exact Hin].
Qed.

Lemma planLoop_complete doc settings fuel :
  (forall i l, (0 <= i < lineCount doc)%Z ->
               (getStartLine doc i <= l <= getEndLine doc i)%Z ->
               getStartLine doc l = getStartLine doc i
               /\ getEndLine doc l = getEndLine doc i) ->
  let fenced := getFencedCodeBlockRanges doc in
  forall i0 i edits out,
    loopOf fuel doc (getFrontMatterRange doc) fenced
           (getJsxExpressionRanges doc fenced) false 0 (lineCount doc - 1)
           settings i edits = Done out ->
    (0 <= i0 <= i)%Z ->
    (forall l, (i0 <= l < i)%Z -> inZone doc l = false -> servedOf doc settings edits l) ->
    forall l, (i0 <= l < lineCount doc)%Z -> inZone doc l = false ->
              servedOf doc settings out l.
Proof.
  intros Hco. cbv zeta.
  induction fuel as [|fuel IH]; intros i0 i edits out; cbn [planLoop].
  - destruct (i <=? lineCount doc - 1)%Z eqn:E; [discriminate|].
    apply Z.leb_gt in E. intros H Hi Hinv l Hl. inversion H; subst.
    apply Hinv. lia.
  - destruct (i <=? lineCount doc - 1)%Z eqn:E.
    2:{ apply Z.leb_gt in E. intros H Hi Hinv l Hl. inversion H; subst.
        apply Hinv. lia. }
    apply Z.leb_le in E. intros H Hi Hinv.
    apply bind_done in H as (o & Ho & H).
    assert (Hnobreak : o <> Break).
    { intros ->. revert Ho. unfold planStep.
      destruct (inFrontMatter _ i); [discriminate|].
      destruct (findRangeContainingLine _ i); [discriminate|].
      destruct (findRangeContainingLine _ i); [discriminate|].
      rewrite lineAt_in by lia. cbn [bind andb lineStart lineEnd].
      destruct (resolver_ok doc i ltac:(lia)) as [Hs He].
      destruct (skipOf _) as [[|]| |]; cbn [bind]; try discriminate.
      rewrite lineAt_in by lia. cbn [bind].
      destruct (newRange _ _ _ _); cbn [bind]; discriminate. }
    destruct o as [next oe|]; [|congruence].
    pose proof (planStep_increases OtherInfo getStartLine getEndLine otherInfoOf
                  getReflowedText resolver_ok _ _ _ _ _ _ _ _ _ _ _ Ho) as Hinc.
    apply (IH i0 next _ _ H); [lia|].
    intros l Hl Hz.
    destruct (Z.lt_ge_cases l i) as [Hlt|Hge];
      [apply served_mono, Hinv; auto; lia|].
    revert Ho. unfold planStep.
    destruct (inFrontMatter (getFrontMatterRange doc) i) as [r|] eqn:E1.
    { intros Ho. inversion Ho; subst. apply inFrontMatter_range in E1 as [E1 Hr].
      rewrite inZone_in_range in Hz; [discriminate|].
      left. exists r. split; [exact E1 | lia]. }
    destruct (findRangeContainingLine (getFencedCodeBlockRanges doc) i) as [r|] eqn:E2.
    { intros Ho. inversion Ho; subst. apply find_containsLine in E2 as [Hin Hr].
      rewrite inZone_in_range in Hz; [discriminate|].
      right. left. exists r. split; [exact Hin | lia]. }
    destruct (findRangeContainingLine
                (getJsxExpressionRanges doc (getFencedCodeBlockRanges doc)) i)
      as [r|] eqn:E3.
    { intros Ho. inversion Ho; subst. apply find_containsLine in E3 as [Hin Hr].
      rewrite inZone_in_range in Hz; [discriminate|].
      right. right. exists r. split; [exact Hin | lia]. }
    rewrite lineAt_in by lia. cbn [bind andb lineStart lineEnd].
    destruct (resolver_ok doc i ltac:(lia)) as [Hs He].
    intros Ho.
    assert (Hnext : next = (getEndLine doc i + 1)%Z).
    { destruct (skipOf _) as [[|]| |]; cbn [bind] in Ho; try discriminate.
      - now inversion Ho.
      - rewrite lineAt_in in Ho by lia. cbn [bind] in Ho.
        rewrite newRange_nonneg in Ho; try lia; [|apply len_nonneg].
        cbn [bind] in Ho. now inversion Ho. }
    destruct (Hco i l ltac:(lia) ltac:(lia)) as [Els Ele].
    unfold served. cbv zeta. rewrite Els, Ele. intros Hskip.
    rewrite Hskip in Ho. cbn [bind] in Ho.
    rewrite lineAt_in in Ho by lia. cbn [bind] in Ho.
    rewrite newRange_nonneg in Ho; try lia; [|apply len_nonneg].
    cbn [bind] in Ho. exists i. split; [lia|]. intros Hne.
    destruct (str_eqb _ _) eqn:Eq in Ho.
    + apply str_eqb_true in Eq. exfalso. apply Hne. symmetry. exact Eq.
    + inversion Ho; subst. cbn [pushEdit]. apply in_last.
Qed.

(** X29.  When, besides the contract, the resolver gives the same
    extent for every line of an extent, a pass over the whole document
    leaves no unit behind: for every line after the front matter that is
    outside the zones and whose extent passes the skip policy, the
    extent was resolved at one of its lines and, if [getReflowedText]
    changes its text, the list of edits holds the replacement of its
    whole lines by the new text. *)
Theorem full_pass_edits_every_changed_unit doc settings :
  (forall i l, (0 <= i < lineCount doc)%Z ->
               (getStartLine doc i <= l <= getEndLine doc i)%Z ->
               getStartLine doc l = getStartLine doc i
               /\ getEndLine doc l = getEndLine doc i) ->
  exists out,
    editsOf (Z.to_nat (lineCount doc)) doc None settings = Done out
    /\ forall l,
         (afterFrontMatter doc <= l < lineCount doc)%Z ->
         inZone doc l = false ->
         servedOf doc settings out l.
Proof.
  intros Hco.
  destruct (computeReflowEdits_total OtherInfo getStartLine getEndLine otherInfoOf
              getReflowedText resolver_ok doc None settings I) as (out & Hout).
  exists out. split; [exact Hout|].
  pose proof (afterFrontMatter_nonneg doc) as H0.
  assert (Hloop : loopOf (Z.to_nat (lineCount doc)) doc (getFrontMatterRange doc)
                    (getFencedCodeBlockRanges doc)
                    (getJsxExpressionRanges doc (getFencedCodeBlockRanges doc))
                    false 0 (lineCount doc - 1) settings (afterFrontMatter doc) []
                  = Done out).
  { revert Hout H0. unfold computeReflowEdits, afterFrontMatter. cbv zeta.
    destruct (getFrontMatterRange doc) as [r|]; intros Hout H0; [|exact Hout].
    now rewrite Z.max_r in Hout by lia. }
  intros l Hl Hz.
  assert (Hinit : forall l', (afterFrontMatter doc <= l' < afterFrontMatter doc)%Z ->
                    inZone doc l' = false -> servedOf doc settings [] l') by (intros; lia).
  assert (Hb : (0 <= afterFrontMatter doc <= afterFrontMatter doc)%Z) by lia.
  exact (planLoop_complete doc settings _ Hco (afterFrontMatter doc) _ _ _ Hloop
           Hb Hinit l Hl Hz).
Qed.

End PlannerComplete.

(** the sample resolver gives every line of a paragraph the same extent *)

Lemma sampleBack_run (doc : document) n k :
  (sampleBack doc n <= k < n)%nat -> isBlank (nth k doc []) = false.
Proof.
  induction n as [|n IH]; [lia|]. cbn [sampleBack].
  destruct (isBlank (nth n doc [])) eqn:E; [lia|]. intros Hk.
  destruct (Nat.eq_dec k n) as [->|Hne]; [exact E | apply IH; lia].
Qed.

Lemma sampleBack_same (doc : document) i n :
  (i <= n)%nat -> (forall k, (i <= k < n)%nat -> isBlank (nth k doc []) = false) ->
  sampleBack doc n = sampleBack doc i.
Proof.
  induction n as [|n IH]; intros Hi Hnb.
  - now replace i with 0%nat by lia.
  - destruct (Nat.eq_dec i (S n)) as [->|Hne]; [reflexivity|].
    cbn [sampleBack]. rewrite (Hnb n) by lia. apply IH; [lia|].
    intros k Hk. apply Hnb. lia.
Qed.

Lemma sampleForward_run (rest : list str) :
  forall i k, (Z.of_nat k < sampleForward rest i - i)%Z ->
    isBlank (nth k rest []) = false.
Proof.
  induction rest as [|t rest IH]; intros i k; cbn [sampleForward]; [lia|].
  destruct (isBlank t) eqn:E; [lia|]. intros Hk.
  destruct k as [|k]; [exact E|]. apply (IH (i + 1)%Z). lia.
Qed.

Lemma sampleEnd_step (doc : document) i :
  (0 <= i)%Z -> (i + 1 < lineCount doc)%Z ->
  isBlank (textAt doc (i + 1)) = false ->
  sampleForward (skipn (S (Z.to_nat i)) doc) i
  = sampleForward (skipn (S (Z.to_nat (i + 1))) doc) (i + 1).
Proof.
  unfold lineCount, textAt. intros H0 H1 Hb.
  rewrite (@skipn_nth str [] doc (S (Z.to_nat i))) by lia.
  cbn [sampleForward].
  replace (S (Z.to_nat i)) with (Z.to_nat (i + 1)) by lia.
  now rewrite Hb.
Qed.

Lemma sampleEnd_same (doc : document) d :
  forall i, (0 <= i)%Z ->
    (forall k, (i < k <= i + Z.of_nat d)%Z ->
               (k < lineCount doc)%Z /\ isBlank (textAt doc k) = false) ->
    sampleForward (skipn (S (Z.to_nat (i + Z.of_nat d))) doc) (i + Z.of_nat d)
    = sampleForward (skipn (S (Z.to_nat i)) doc) i.
Proof.
  induction d as [|d IH]; intros i H0 Hnb.
  - now rewrite Z.add_0_r.
  - destruct (Hnb (i + 1)%Z ltac:(lia)) as [H1 H2].
    rewrite (sampleEnd_step doc i H0 H1 H2).
    replace (i + Z.of_nat (S d))%Z with (i + 1 + Z.of_nat d)%Z by lia.
    apply IH; [lia|]. intros k Hk. apply Hnb. lia.
Qed.

Lemma sample_resolver_coherent doc i l :
  (0 <= i < lineCount doc)%Z ->
  (sampleStartLine doc i <= l <= sampleEndLine doc i)%Z ->
  sampleStartLine doc l = sampleStartLine doc i
  /\ sampleEndLine doc l = sampleEndLine doc i.
Proof.
  intros Hi Hl. pose proof (sample_resolver_ok doc i Hi) as [Hs He].
  revert Hl Hs He. unfold sampleStartLine, sampleEndLine.
  destruct (isBlank (textAt doc i)) eqn:Ei.
  { intros Hl _ _. replace l with i by lia. now rewrite Ei. }
  set (b := sampleBack doc (Z.to_nat i)).
  set (e := sampleForward (skipn (S (Z.to_nat i)) doc) i).
  intros Hl Hs He.
  assert (Hnb : forall k, (Z.of_nat b <= k <= e)%Z -> isBlank (textAt doc k) = false).
  { intros k Hk. unfold textAt.
    destruct (Z.lt_trichotomy k i) as [Hlt|[->|Hgt]]; [|exact Ei|].
    - apply (sampleBack_run doc (Z.to_nat i)). fold b. lia.
    - pose proof (sampleForward_run (skipn (S (Z.to_nat i)) doc) i
                    (Z.to_nat (k - i - 1))) as H.
      fold e in H. rewrite nth_skipn in H.
      replace (S (Z.to_nat i) + Z.to_nat (k - i - 1))%nat with (Z.to_nat k) in H by lia.
      apply H. lia. }
  rewrite (Hnb l Hl). split.
  - f_equal. destruct (Z.le_gt_cases l i) as [Hle|Hgt].
    + symmetry. apply sampleBack_same; [lia|].
      intros k Hk. pose proof (Hnb (Z.of_nat k) ltac:(lia)) as Hx.
      unfold textAt in Hx. now rewrite Nat2Z.id in Hx.
    + apply sampleBack_same; [lia|].
      intros k Hk. pose proof (Hnb (Z.of_nat k) ltac:(lia)) as Hx.
      unfold textAt in Hx. now rewrite Nat2Z.id in Hx.
  - destruct (Z.le_gt_cases l i) as [Hle|Hgt].
    + pose proof (sampleEnd_same doc (Z.to_nat (i - l)) l ltac:(lia)) as H.
      replace (l + Z.of_nat (Z.to_nat (i - l)))%Z with i in H by lia.
      symmetry. apply H. intros k Hk. split; [lia|]. apply Hnb. lia.
    + pose proof (sampleEnd_same doc (Z.to_nat (l - i)) i ltac:(lia)) as H.
      replace (i + Z.of_nat (Z.to_nat (l - i)))%Z with l in H by lia.
      apply H. intros k Hk. split; [lia|]. apply Hnb. lia.
Qed.

Lemma full_pass_edits_every_changed_unit_witness :
  (forall d i, (0 <= i < lineCount d)%Z ->
               (0 <= sampleStartLine d i <= i)%Z
               /\ (i <= sampleEndLine d i < lineCount d)%Z)
  /\ (forall i l, (0 <= i < lineCount docMixed)%Z ->
                  (sampleStartLine docMixed i <= l <= sampleEndLine docMixed i)%Z ->
                  sampleStartLine docMixed l = sampleStartLine docMixed i
                  /\ sampleEndLine docMixed l = sampleEndLine docMixed i)
  /\ exists out,
       sampleEdits (Z.to_nat (lineCount docMixed)) docMixed None sampleSettings
       = Done out
       /\ forall l,
            (afterFrontMatter docMixed <= l < lineCount docMixed)%Z ->
            inZone docMixed l = false ->
            served unit sampleStartLine sampleEndLine sampleOtherInfo
                   sampleReflowedText docMixed sampleSettings out l.
Proof.
  split; [exact sample_resolver_ok|].
  split; [exact (sample_resolver_coherent docMixed)|].
  exact (full_pass_edits_every_changed_unit unit sampleStartLine sampleEndLine
           sampleOtherInfo sampleReflowedText sample_resolver_ok
           docMixed sampleSettings (sample_resolver_coherent docMixed)).
Defined.

(** *** [MD_TABLE_ROW_RE] *)

Lemma rmatch_star_eol p pos s c :
  rmatch (RSeq (star (RChar p)) REol) pos s c kfin
  = if forallb p s then Some c else None.
Proof.
  unfold star. rewrite rmatch_seq, rmatch_rep_chr, greedy_run_max.
  - cbn [Nat.leb]. rewrite rmatch_eol.
    destruct (forallb p s) eqn:E.
    + destruct (drop_while_all p s E) as [-> _]. reflexivity.
    + pose proof (drop_while_not_all p s E).
      destruct (drop_while p s); [congruence | reflexivity].
  - intros _ j Hj. destruct (skipn_run_head p s j) as (x & r & -> & _); [lia|].
    reflexivity.
Qed.

(** a greedy star succeeds when one of its candidates does *)
Lemma greedy_run_some p k c s :
  forall pos,
    greedy_run p k c 0 pos s <> None
    <-> exists j, (j <= run p s)%nat /\ k (pos + j)%nat (skipn j s) c <> None.
Proof.
  unfold run. induction s as [|x s IH]; intros pos; cbn [greedy_run take_while].
  - split.
    + intros H. exists 0%nat. rewrite Nat.add_0_r. auto.
    + intros (j & Hj & H). cbn [length] in Hj. replace j with 0%nat in H by lia.
      now rewrite Nat.add_0_r in H.
  - destruct (p x) eqn:E; cbn [length pred].
    + split.
      * intros H. destruct (greedy_run p k c 0 (S pos) s) eqn:Eg.
        -- destruct (proj1 (IH (S pos))) as (j & Hj & Hk); [rewrite Eg; discriminate|].
           exists (S j). split; [lia|].
           now replace (pos + S j)%nat with (S pos + j)%nat by lia.
        -- cbn [orelse] in H. exists 0%nat. rewrite Nat.add_0_r. split; [lia | exact H].
      * intros (j & Hj & Hk). destruct j as [|j].
        -- rewrite Nat.add_0_r in Hk. cbn [skipn] in Hk.
           destruct (greedy_run p k c 0 (S pos) s); [discriminate | exact Hk].
        -- assert (Hg : greedy_run p k c 0 (S pos) s <> None).
           { apply IH. exists j. split; [lia|].
             now replace (S pos + j)%nat with (pos + S j)%nat by lia. }
           destruct (greedy_run p k c 0 (S pos) s); [discriminate | congruence].
    + split.
      * intros H. exists 0%nat. rewrite Nat.add_0_r. auto.
      * intros (j & Hj & H). replace j with 0%nat in H by lia.
        now rewrite Nat.add_0_r in H.
Qed.

Lemma pipe_is_dot x : is_chr "|" x = true -> is_dot x = true.
Proof. unfold is_chr. intros H. apply N.eqb_eq in H. now subst x. Qed.

Lemma ws_not_pipe x : is_ws x = true -> is_chr "|" x = false.
Proof. char_fact. Qed.

Lemma forallb_firstn_run (p : char -> bool) s j :
  (j <= run p s)%nat -> forallb p (firstn j s) = true.
Proof.
  unfold run. revert j. induction s as [|x s IH]; intros j Hj.
  - now destruct j.
  - destruct j as [|j]; [reflexivity|]. cbn [take_while] in Hj.
    destruct (p x) eqn:E; cbn [length] in Hj; [|lia].
    cbn [firstn forallb]. rewrite E. apply IH. lia.
Qed.

Lemma existsb_split (p : char -> bool) s :
  existsb p s = true ->
  exists j x r, skipn j s = x :: r /\ p x = true /\ (j < length s)%nat.
Proof.
  induction s as [|y s IH]; cbn [existsb]; [discriminate|].
  destruct (p y) eqn:E.
  - intros _. exists 0%nat, y, s. cbn. split; [reflexivity|]. split; [exact E | lia].
  - cbn [orb]. intros H. destruct (IH H) as (j & x & r & Hs & Hx & Hj).
    exists (S j), x, r. cbn [skipn length]. split; [exact Hs|]. split; [exact Hx | lia].
Qed.

(** [.*\|.*$] *)
Lemma rmatch_second_pipe pos r c :
  rmatch (seqs [star dot; lit "|"; star dot; REol]) pos r c kfin <> None
  <-> forallb is_dot r = true /\ existsb (is_chr "|") r = true.
Proof.
  change (seqs [star dot; lit "|"; star dot; REol])
    with (RSeq (star dot) (RSeq (lit "|") (RSeq (star dot) REol))).
  rewrite rmatch_seq. unfold star at 1, dot at 1. rewrite rmatch_rep_chr.
  set (k3 := fun (pos' : nat) (s' : str) (c' : caps) =>
               match s' with
               | y :: s2 => if is_chr "|" y
                            then if forallb is_dot s2 then Some c' else None
                            else None
               | [] => None
               end).
  rewrite (greedy_run_ext is_dot _ k3).
  2:{ intros p' s' c'. subst k3. cbv beta. rewrite rmatch_seq. unfold lit.
      rewrite rmatch_chr. destruct s' as [|y s2]; [reflexivity|].
      destruct (is_chr "|" y); [|reflexivity]. unfold dot. apply rmatch_star_eol. }
  rewrite greedy_run_some. subst k3. cbv beta. split.
  - intros (j & Hj & Hk).
    destruct (skipn j r) as [|y s2] eqn:Es; [congruence|].
    destruct (is_chr "|" y) eqn:Ey; [|congruence].
    destruct (forallb is_dot s2) eqn:E2; [|congruence].
    rewrite <- (firstn_skipn j r), Es. split.
    + rewrite forallb_app, (forallb_firstn_run is_dot r j Hj).
      cbn [forallb andb]. now rewrite (pipe_is_dot y Ey), E2.
    + rewrite existsb_app. cbn [existsb]. rewrite Ey. cbn [orb]. apply orb_true_r.
  - intros [Hd He]. destruct (existsb_split _ _ He) as (j & y & s2 & Es & Ey & Hj).
    exists j. split.
    + unfold run. destruct (drop_while_all is_dot r Hd) as [_ ->]. lia.
    + rewrite Es, Ey.
      assert (E2 : forallb is_dot s2 = true).
      { rewrite <- (firstn_skipn j r), Es, forallb_app in Hd.
        apply andb_true_iff in Hd as [_ Hd]. cbn [forallb] in Hd.
        now apply andb_true_iff in Hd as [_ Hd]. }
      rewrite E2. discriminate.
Qed.

(** X30.  A line is a table row for [MD_TABLE_ROW_RE] exactly when its
    first character after the leading white space is a pipe and a second
    pipe follows somewhere behind it, with no line terminator behind the
    first pipe. *)
Theorem table_row_test_direct t : test MD_TABLE_ROW_RE t = table_row_direct t.
Proof.
  unfold test, table_row_direct.
  change MD_TABLE_ROW_RE
    with (RSeq RBol (RSeq (star ws)
            (RSeq (lit "|") (seqs [star dot; lit "|"; star dot; REol])))).
  rewrite exec_bol, rmatch_seq. unfold star at 1, ws at 1. rewrite rmatch_rep_chr.
  rewrite greedy_run_strict.
  - cbn [Nat.leb]. rewrite rmatch_seq. unfold lit at 1. rewrite rmatch_chr.
    destruct (drop_while is_ws t) as [|x r]; [reflexivity|].
    destruct (is_chr "|" x); [|reflexivity]. cbn [andb].
    pose proof (rmatch_second_pipe (S (0 + run is_ws t)) r []) as H.
    destruct (rmatch (seqs [star dot; lit "|"; star dot; REol]) _ r [] kfin).
    + destruct (proj1 H ltac:(discriminate)) as [-> ->]. reflexivity.
    + destruct (forallb is_dot r) eqn:E1; [|reflexivity].
      destruct (existsb (is_chr "|") r) eqn:E2; [|reflexivity].
      exfalso. now apply (proj2 H).
  - intros j x r _ Hx. rewrite rmatch_seq. unfold lit at 1. rewrite rmatch_chr.
    now rewrite (ws_not_pipe x Hx).
Qed.

(** ** The balancer across fences *)

Lemma jsxScan_app doc F a :
  forall b i st,
    jsxScan doc F (a ++ b) i st
    = jsxScan doc F b (i + Z.of_nat (length a)) (jsxScan doc F a i st).
Proof.
  induction a as [|x a IH]; intros b i st; cbn [app jsxScan length].
  - now rewrite Z.add_0_r.
  - rewrite IH. f_equal. lia.
Qed.

Lemma balancerBefore_succ doc F i :
  (0 <= i < lineCount doc)%Z ->
  balancerBefore doc F (i + 1)
  = jsxStep doc F (balancerBefore doc F i) i (textAt doc i).
Proof.
  unfold lineCount. intros Hi. unfold balancerBefore, textAt.
  replace (Z.to_nat (i + 1)) with (S (Z.to_nat i)) by lia.
  rewrite (@firstn_snoc_nth str [] doc (Z.to_nat i)) by lia.
  rewrite jsxScan_app, length_firstn. cbn [jsxScan].
  now replace (0 + Z.of_nat (Nat.min (Z.to_nat i) (length doc)))%Z with i by lia.
Qed.

Lemma balancerBefore_end doc F :
  getJsxExpressionRanges doc F
  = match currentStart (balancerBefore doc F (lineCount doc)) with
    | Some cs =>
        jRanges (balancerBefore doc F (lineCount doc))
        ++ [mkRange cs 0 (lineCount doc - 1) (len (textAt doc (lineCount doc - 1)))]
    | None => jRanges (balancerBefore doc F (lineCount doc))
    end.
Proof.
  unfold getJsxExpressionRanges, balancerBefore, lineCount. cbv zeta.
  now rewrite Nat2Z.id, firstn_all.
Qed.

(** the flag of a line is never taken back within the line *)
Lemma scanChars_inside_stays text skip st :
  lineInside st = true -> lineInside (scanChars skip text st) = true.
Proof.
  intros H. destruct (lineInside (scanChars skip text st)) eqn:E; [reflexivity|].
  apply scanChars_not_inside in E as [E _]. congruence.
Qed.

(** a fenced line leaves the depth as it is and no range open *)
Lemma balancerBefore_fenced doc F l :
  (0 <= l < lineCount doc)%Z ->
  findRangeContainingLine F l <> None ->
  depthBefore doc F (l + 1) = depthBefore doc F l
  /\ currentStart (balancerBefore doc F (l + 1)) = None.
Proof.
  intros Hl Hf. unfold depthBefore. rewrite balancerBefore_succ by exact Hl.
  unfold jsxStep. destruct (findRangeContainingLine F l); [|congruence].
  destruct (currentStart (balancerBefore doc F l)) eqn:E; cbn [jDepth currentStart]; auto.
Qed.

Lemma depthBefore_fence doc F i n :
  (0 <= i)%Z -> (i + Z.of_nat n <= lineCount doc)%Z ->
  (forall k, (i <= k < i + Z.of_nat n)%Z -> findRangeContainingLine F k <> None) ->
  depthBefore doc F (i + Z.of_nat n) = depthBefore doc F i.
Proof.
  intros H0. induction n as [|n IH]; intros H1 Hf.
  - now rewrite Z.add_0_r.
  - replace (i + Z.of_nat (S n))%Z with (i + Z.of_nat n + 1)%Z by lia.
    destruct (balancerBefore_fenced doc F (i + Z.of_nat n)) as [-> _];
      [lia | apply Hf; lia |].
    apply IH; [lia|]. intros k Hk. apply Hf. lia.
Qed.

(** a line that is not fenced and is reached with a positive depth is an
    expression line *)
Lemma exprLine_positive doc F l :
  findRangeContainingLine F l = None -> (0 < depthBefore doc F l)%Z ->
  exprLine doc F l = true.
Proof.
  intros Hf Hd. unfold exprLine. rewrite Hf.
  apply scanChars_inside_stays. cbn [lineInside]. now apply Z.ltb_lt.
Qed.

Lemma exprLine_fenced doc F l :
  findRangeContainingLine F l <> None -> exprLine doc F l = false.
Proof. unfold exprLine. now destruct (findRangeContainingLine F l). Qed.

Lemma runInv_push doc F st i cs :
  runInv doc F st i -> currentStart st = Some cs ->
  exprLine doc F i = false ->
  forall d,
    runInv doc F
      (mkJsxState (jRanges st ++ [mkRange cs 0 (i - 1) (len (textAt doc (i - 1)))])
                  d None) (i + 1).
Proof.
  intros (K1 & K2 & K3) Hcs He d.
  destruct (K2 cs Hcs) as [Hb Hx].
  destruct (mkRange_ordered cs 0 (i - 1) (len (textAt doc (i - 1)))) as [E1 E2]; [lia|].
  unfold runInv. cbn [jRanges currentStart]. refine (conj _ (conj _ _)).
  - intros r Hr. apply in_app_or in Hr as [Hr|[<-|[]]].
    + destruct (K1 r Hr) as (A & B & C). split; [exact A|]. split; [lia | exact C].
    + rewrite E1, E2. split; [lia|]. split; [lia|]. intros l Hl. apply Hx. lia.
  - discriminate.
  - intros a b Hab Hbi Hall. left.
    assert (Hb' : (b < i)%Z).
    { destruct (Z.eq_dec b i) as [->|]; [|lia].
      rewrite (Hall i) in He by lia. discriminate. }
    destruct (K3 a b Hab Hb' Hall) as [(r & Hr & Hs & Hend)|(cs' & Hcs' & Hle)].
    + exists r. split; [now apply in_snoc | auto].
    + rewrite Hcs in Hcs'. injection Hcs' as <-.
      eexists. split; [apply in_last|]. rewrite E1, E2. lia.
Qed.

Lemma runInv_idle doc F st i :
  runInv doc F st i -> currentStart st = None ->
  exprLine doc F i = false ->
  forall d, runInv doc F (mkJsxState (jRanges st) d None) (i + 1).
Proof.
  intros (K1 & K2 & K3) Hcs He d.
  unfold runInv. cbn [jRanges currentStart]. refine (conj _ (conj _ _)).
  - intros r Hr. destruct (K1 r Hr) as (A & B & C).
    split; [exact A|]. split; [lia | exact C].
  - discriminate.
  - intros a b Hab Hbi Hall. left.
    assert (Hb' : (b < i)%Z).
    { destruct (Z.eq_dec b i) as [->|]; [|lia].
      rewrite (Hall i) in He by lia. discriminate. }
    destruct (K3 a b Hab Hb' Hall) as [H|(cs' & Hcs' & _)]; [exact H | congruence].
Qed.

Lemma runInv_open doc F st i :
  (0 <= i)%Z -> runInv doc F st i ->
  exprLine doc F i = true ->
  forall d,
    runInv doc F
      (mkJsxState (jRanges st) d
         (match currentStart st with Some cs => Some cs | None => Some i end))
      (i + 1).
Proof.
  intros Hi (K1 & K2 & K3) He d.
  unfold runInv. cbn [jRanges currentStart]. refine (conj _ (conj _ _)).
  - intros r Hr. destruct (K1 r Hr) as (A & B & C).
    split; [exact A|]. split; [lia | exact C].
  - intros cs Hcs. destruct (currentStart st) as [cs0|] eqn:E0.
    + injection Hcs as <-. destruct (K2 cs0 eq_refl) as [Hb Hx].
      split; [lia|]. intros l Hl.
      destruct (Z.eq_dec l i) as [->|]; [exact He | apply Hx; lia].
    + injection Hcs as <-. split; [lia|]. intros l Hl.
      now replace l with i by lia.
  - intros a b Hab Hbi Hall.
    destruct (Z.lt_ge_cases b i) as [Hlt|Hge].
    + destruct (K3 a b Hab Hlt Hall) as [H|(cs & Hcs & Hle)]; [now left|].
      right. exists cs. rewrite Hcs. auto.
    + assert (b = i) by lia. subst b.
      destruct (Z.eq_dec a i) as [->|Hne].
      * right. destruct (currentStart st) as [cs0|] eqn:E0.
        -- exists cs0. split; [reflexivity|]. destruct (K2 cs0 eq_refl). lia.
        -- exists i. split; [reflexivity | lia].
      * destruct (K3 a (i - 1)%Z ltac:(lia) ltac:(lia)) as [(r & Hr & _ & Hend)|(cs & Hcs & Hle)].
        -- intros k Hk. apply Hall. lia.
        -- destruct (K1 r Hr) as (_ & B & _). lia.
        -- right. exists cs. rewrite Hcs. auto.
Qed.

Lemma runInv_step doc F i :
  (0 <= i < lineCount doc)%Z ->
  runInv doc F (balancerBefore doc F i) i ->
  runInv doc F (balancerBefore doc F (i + 1)) (i + 1).
Proof.
  intros Hi Hinv. rewrite balancerBefore_succ by exact Hi.
  pose proof (eq_refl (exprLine doc F i)) as He. unfold exprLine at 2 in He.
  unfold depthBefore in He. unfold jsxStep.
  set (st := balancerBefore doc F i) in *.
  destruct (findRangeContainingLine F i) as [fr|].
  - destruct (currentStart st) as [cs|] eqn:Ecs.
    + now apply runInv_push.
    + destruct st as [rs d c]. cbn [currentStart] in Ecs. subst c.
      exact (runInv_idle doc F _ i Hinv eq_refl He d).
  - destruct (lineInside _) eqn:El.
    + pose proof (runInv_open doc F st i ltac:(lia) Hinv He) as H.
      destruct (currentStart st); apply H.
    + destruct (currentStart st) as [cs|] eqn:Ecs.
      * now apply runInv_push.
      * now apply runInv_idle.
Qed.

Lemma runInv_all doc F n :
  (n <= length doc)%nat ->
  runInv doc F (balancerBefore doc F (Z.of_nat n)) (Z.of_nat n).
Proof.
  induction n as [|n IH]; intros Hn.
  - unfold runInv, balancerBefore. cbn [Z.of_nat Z.to_nat firstn jsxScan jRanges currentStart].
    refine (conj _ (conj _ _)); [intros r [] | discriminate | intros; lia].
  - replace (Z.of_nat (S n)) with (Z.of_nat n + 1)%Z by lia.
    apply runInv_step; [unfold lineCount; lia | apply IH; lia].
Qed.

(** the ranges of the balancer are the runs of expression lines *)
Lemma jsx_ranges_runs doc F :
  (forall r, In r (getJsxExpressionRanges doc F) ->
     (0 <= line (start r) <= line (end_ r))%Z /\ (line (end_ r) < lineCount doc)%Z
     /\ forall l, (line (start r) <= l <= line (end_ r))%Z ->
                  exprLine doc F l = true)
  /\ (forall a b, (0 <= a <= b)%Z -> (b < lineCount doc)%Z ->
        (forall k, (a <= k <= b)%Z -> exprLine doc F k = true) ->
        exists r, In r (getJsxExpressionRanges doc F)
                  /\ (line (start r) <= a)%Z /\ (b <= line (end_ r))%Z).
Proof.
  rewrite balancerBefore_end.
  pose proof (runInv_all doc F (length doc) (Nat.le_refl _)) as (K1 & K2 & K3).
  fold (lineCount doc) in K1, K2, K3.
  set (st := balancerBefore doc F (lineCount doc)) in *.
  destruct (currentStart st) as [cs|] eqn:Ecs.
  - destruct (K2 cs eq_refl) as [Hb Hx].
    destruct (mkRange_ordered cs 0 (lineCount doc - 1)
                (len (textAt doc (lineCount doc - 1)))) as [E1 E2]; [lia|].
    split.
    + intros r Hr. apply in_app_or in Hr as [Hr|[<-|[]]].
      * destruct (K1 r Hr) as (A & B & C). split; [exact A|]. split; [lia | exact C].
      * rewrite E1, E2. split; [lia|]. split; [lia|]. intros l Hl. apply Hx. lia.
    + intros a b Hab Hbi Hall.
      destruct (K3 a b Hab Hbi Hall) as [(r & Hr & Hs & He)|(cs' & Hcs' & Hle)].
      * exists r. split; [now apply in_snoc | auto].
      * injection Hcs' as <-. eexists. split; [apply in_last|]. rewrite E1, E2. lia.
  - split.
    + intros r Hr. destruct (K1 r Hr) as (A & B & C).
      split; [exact A|]. split; [lia | exact C].
    + intros a b Hab Hbi Hall.
      destruct (K3 a b Hab Hbi Hall) as [H|(cs' & Hcs' & _)]; [exact H | discriminate].
Qed.

(** C1, amended.  When the line scan reaches a line of a fenced range
    while an expression range is in progress, that range is closed at the
    line before and no range stays open, and in the result no
    bracket-expression range holds a line of a fenced range.  The brace
    depth is not cleared: it is the same after a run of fenced lines as
    before it.  So when the depth before a fence is positive, a new
    bracket-expression range starts at the first line after the fence,
    whatever that line holds, and extends over the following lines as
    long as they are not fenced and are reached with a positive depth.
    In general a line of the document lies in a bracket-expression range
    exactly when it is not fenced and the scan of its characters ends
    with the inside flag set, that is, when the depth before it is
    positive or it opens a brace outside inline code. *)
Theorem fence_closes_range_and_keeps_depth doc fencedRanges :
  (forall st i text fr cs,
      findRangeContainingLine fencedRanges i = Some fr ->
      currentStart st = Some cs ->
      jsxStep doc fencedRanges st i text
      = mkJsxState
          (jRanges st ++ [mkRange cs 0 (i - 1) (len (textAt doc (i - 1)))])
          (jDepth st) None)
  /\ (forall r l,
         In r (getJsxExpressionRanges doc fencedRanges) ->
         (line (start r) <= l <= line (end_ r))%Z ->
         findRangeContainingLine fencedRanges l = None)
  /\ (forall i j,
         (0 <= i <= j)%Z -> (j <= lineCount doc)%Z ->
         (forall k, (i <= k < j)%Z -> findRangeContainingLine fencedRanges k <> None) ->
         depthBefore doc fencedRanges j = depthBefore doc fencedRanges i)
  /\ (forall i j l,
         (0 <= i < j)%Z -> (j <= l < lineCount doc)%Z ->
         (forall k, (i <= k < j)%Z -> findRangeContainingLine fencedRanges k <> None) ->
         (0 < depthBefore doc fencedRanges i)%Z ->
         (forall k, (j <= k <= l)%Z -> findRangeContainingLine fencedRanges k = None) ->
         (forall k, (j < k <= l)%Z -> (0 < depthBefore doc fencedRanges k)%Z) ->
         exists r,
           In r (getJsxExpressionRanges doc fencedRanges)
           /\ line (start r) = j /\ (l <= line (end_ r))%Z)
  /\ (forall l,
         (0 <= l < lineCount doc)%Z ->
         (findRangeContainingLine (getJsxExpressionRanges doc fencedRanges) l <> None
          <-> exprLine doc fencedRanges l = true)).
Proof.
  destruct (jsx_ranges_runs doc fencedRanges) as [R1 R2].
  assert (Hcarry : forall i j,
             (0 <= i <= j)%Z -> (j <= lineCount doc)%Z ->
             (forall k, (i <= k < j)%Z ->
                        findRangeContainingLine fencedRanges k <> None) ->
             depthBefore doc fencedRanges j = depthBefore doc fencedRanges i).
  { intros i j Hij Hj Hf.
    pose proof (depthBefore_fence doc fencedRanges i (Z.to_nat (j - i))) as H.
    replace (i + Z.of_nat (Z.to_nat (j - i)))%Z with j in H by lia.
    apply H; [lia | lia | exact Hf]. }
  refine (conj _ (conj _ (conj Hcarry (conj _ _)))).
  - intros st i text fr cs Hf Hc. unfold jsxStep. now rewrite Hf, Hc.
  - intros r l Hin Hl.
    destruct (jsx_ranges_fence_free doc fencedRanges r Hin) as (_ & _ & Hf).
    now apply Hf.
  - intros i j l Hij Hjl Hfence Hd Hfree Hpos.
    assert (Hdj : (0 < depthBefore doc fencedRanges j)%Z).
    { rewrite (Hcarry i j); [exact Hd | lia | lia | exact Hfence]. }
    destruct (R2 j l) as (r & Hr & Hs & He); [lia | lia | |].
    { intros k Hk. apply exprLine_positive; [apply Hfree; lia|].
      destruct (Z.eq_dec k j) as [->|]; [exact Hdj | apply Hpos; lia]. }
    exists r. split; [exact Hr|]. split; [|exact He].
    destruct (Z.eq_dec (line (start r)) j) as [E|Hne]; [exact E|].
    exfalso. destruct (R1 r Hr) as (_ & _ & Hx).
    specialize (Hx (j - 1)%Z ltac:(lia)).
    rewrite (exprLine_fenced doc fencedRanges (j - 1)) in Hx; [discriminate|].
    apply Hfence. lia.
  - intros l Hl. split.
    + intros Hf.
      destruct (findRangeContainingLine (getJsxExpressionRanges doc fencedRanges) l)
        as [r|] eqn:E; [|congruence].
      apply find_containsLine in E as [Hr Hin].
      destruct (R1 r Hr) as (_ & _ & Hx). now apply Hx.
    + intros He Hn.
      destruct (R2 l l) as (r & Hr & Hs & Hend); [lia | lia | |].
      { intros k Hk. now replace k with l by lia. }
      apply (find_containsLine_none _ _ r Hn Hr). lia.
Qed.

Lemma fence_closes_range_and_keeps_depth_witness :
  let doc := docBraceBeforeFence in
  let fenced := getFencedCodeBlockRanges doc in
  let st := mkJsxState [] 1 (Some 0%Z) in
  (findRangeContainingLine fenced 1 = Some (mkRange 1 0 3 3)
   /\ currentStart st = Some 0%Z
   /\ jsxStep doc fenced st 1 (str_of "```")
      = mkJsxState
          (jRanges st ++ [mkRange 0 0 (1 - 1) (len (textAt doc (1 - 1)))])
          (jDepth st) None)
  /\ ((forall k, (1 <= k < 4)%Z -> findRangeContainingLine fenced k <> None)
      /\ (0 < depthBefore doc fenced 1)%Z
      /\ depthBefore doc fenced 4 = depthBefore doc fenced 1)
  /\ ((forall k, (4 <= k <= 4)%Z -> findRangeContainingLine fenced k = None)
      /\ exists r,
           In r (getJsxExpressionRanges doc fenced)
           /\ line (start r) = 4%Z /\ (4 <= line (end_ r))%Z)
  /\ (findRangeContainingLine (getJsxExpressionRanges doc fenced) 4 <> None
      <-> exprLine doc fenced 4 = true).
Proof.
  intros doc fenced st.
  pose proof (fence_closes_range_and_keeps_depth doc fenced)
    as (Hstep & _ & Hcarry & Hopen & Hiff).
  assert (H1 : findRangeContainingLine fenced 1 = Some (mkRange 1 0 3 3))
    by (vm_compute; reflexivity).
  assert (H2 : currentStart st = Some 0%Z) by reflexivity.
  assert (Hf : forall k, (1 <= k < 4)%Z -> findRangeContainingLine fenced k <> None).
  { intros k Hk. assert (E : k = 1%Z \/ k = 2%Z \/ k = 3%Z) by lia.
    destruct E as [-> | [-> | ->]]; vm_compute; discriminate. }
  assert (Hd : (0 < depthBefore doc fenced 1)%Z) by (vm_compute; reflexivity).
  assert (Hfree : forall k, (4 <= k <= 4)%Z -> findRangeContainingLine fenced k = None).
  { intros k Hk. replace k with 4%Z by lia. vm_compute. reflexivity. }
  assert (Hb1 : (0 <= 1 <= 4)%Z) by lia.
  assert (Hb2 : (4 <= lineCount doc)%Z) by (vm_compute; discriminate).
  assert (Hb3 : (0 <= 1 < 4)%Z) by lia.
  assert (Hb4 : (4 <= 4 < lineCount doc)%Z)
    by (vm_compute; split; [discriminate | reflexivity]).
  assert (Hb5 : (0 <= 4 < lineCount doc)%Z)
    by (vm_compute; split; [discriminate | reflexivity]).
  assert (Hpos : forall k, (4 < k <= 4)%Z -> (0 < depthBefore doc fenced k)%Z)
    by (intros k Hk; lia).
  split; [split; [exact H1 | split; [exact H2|]]|].
  { exact (Hstep st 1%Z (str_of "```") (mkRange 1 0 3 3) 0%Z H1 H2). }
  split; [split; [exact Hf | split; [exact Hd|]]|].
  { exact (Hcarry 1%Z 4%Z Hb1 Hb2 Hf). }
  split; [split; [exact Hfree|]|].
  { exact (Hopen 1%Z 4%Z 4%Z Hb3 Hb4 Hf Hd Hfree Hpos). }
  exact (Hiff 4%Z Hb5).
Defined.

(** C6, counterexample.  A unit of one list line whose marker is [+]
    and whose entire content is one markdown link: [LIST_LINK_ONLY_RE]
    does not accept it, the skip policy lets it through, and a
    full-document pass rewraps it.  The same holds for a numbered item. *)
Lemma plus_link_only_item_is_edited :
  let fenced := getFencedCodeBlockRanges docPlusLink in
  let jsx := getJsxExpressionRanges docPlusLink fenced in
  (specLinkOnlyListLine (textAt docPlusLink 0) = true
   /\ test LIST_LINK_ONLY_RE (textAt docPlusLink 0) = false
   /\ shouldSkipParagraph sampleStartLine sampleEndLine
        (mkParagraphSkipContext docPlusLink 0 0 fenced jsx
           (getFrontMatterRange docPlusLink) sampleSettings) = Done false
   /\ sampleEdits (Z.to_nat (lineCount docPlusLink)) docPlusLink None sampleSettings
      = Done [mkTextEdit (mkRange 0 0 0 54)
                (str_of "+ [some long link
  text that
  wraps](http://example.com)")])
  /\ (specLinkOnlyListLine (textAt docNumberedLink 0) = true
      /\ exists e,
           sampleEdits (Z.to_nat (lineCount docNumberedLink)) docNumberedLink None
                       sampleSettings = Done [e]
           /\ line (start (range e)) = 0%Z /\ line (end_ (range e)) = 0%Z
           /\ newText e <> getText docNumberedLink (range e)).
Proof.
  cbv zeta. split; [|split; [vm_compute; reflexivity|]].
  - vm_compute. repeat split; reflexivity.
  - eexists. split; [vm_compute; reflexivity|].
    vm_compute. repeat split; discriminate.
Qed.
